(** * humanfs — the FastIO adapter ([packages/fast-io/fs/src/fast-hfs.js])

    A shallow embedding of [getDetails], [readFile] and the methods of
    [FastHfsImpl], together with the properties of the path resolver, the
    single-entry operations and the recursive tree operations.

    The adapter is asynchronous JavaScript that talks to a hierarchical
    handle store.  It is embedded as a state-and-exception monad over an
    explicit store: every [await] is a sequencing point, a rejected promise
    is a thrown error, and a handle is the location of a node in the store
    (the adapter keeps no cache, every operation re-resolves from the root). *)

From Stdlib Require Import List String Ascii ZArith Lia Bool Arith.
From Stdlib Require Import Strings.Byte.
Import ListNotations.
Open Scope string_scope.
Open Scope list_scope.

Set Warnings "-register-all".

(* ================================================================= *)
(** ** Logical paths *)

(** Modelled from the spec: the [Path] class of [@humanfs/core] is imported
    by the adapter but is not part of the sources.  A logical path is the
    ordered sequence of its segments; [Path.from] of a canonical
    slash-delimited string is that sequence and [toString] renders it back,
    so a path argument is carried as its segments.  The reserved string
    ["root"] is the one-segment path [["root"]]. *)
Definition path := list string.

(** [path.name]: the last segment, [undefined] on the empty path. *)
Fixpoint Path_name (p : path) : option string :=
  match p with
  | [] => None
  | [n] => Some n
  | _ :: rest => Path_name rest
  end.

(** [path.pop()]: removes the last segment and returns it. *)
Definition Path_pop (p : path) : option string * path :=
  (Path_name p, removelast p).

(** [path.push(name)]. *)
Definition Path_push (p : path) (name : string) : path := p ++ [name].

(** [String(undefined)]: how a missing name reaches a host primitive that
    takes a string. *)
Definition js_string (o : option string) : string :=
  match o with Some s => s | None => "undefined" end.

Fixpoint prefix (p q : path) : bool :=
  match p, q with
  | [], _ => true
  | _ :: _, [] => false
  | a :: p', b :: q' => String.eqb a b && prefix p' q'
  end.

(** Neither path lies on the other's branch. *)
Definition disjoint (p q : path) : bool :=
  negb (prefix p q) && negb (prefix q p).

(* ================================================================= *)
(** ** The backing store *)

Inductive kind := FileK | DirectoryK.

Definition kind_eqb (a b : kind) : bool :=
  match a, b with
  | FileK, FileK | DirectoryK, DirectoryK => true
  | _, _ => false
  end.

(** A node of the hierarchy.  Directory entries are kept in enumeration
    order. *)
Inductive node : Type :=
| File (data : list byte) (mtime : Z)
| Dir (entries : list (string * node)).

Definition entries := list (string * node).

Definition node_kind (v : node) : kind :=
  match v with File _ _ => FileK | Dir _ => DirectoryK end.

Fixpoint find_entry (name : string) (es : entries) : option node :=
  match es with
  | [] => None
  | (n, v) :: rest => if String.eqb n name then Some v else find_entry name rest
  end.

Fixpoint map_entry (name : string) (f : node -> node) (es : entries) : entries :=
  match es with
  | [] => []
  | (n, v) :: rest =>
      if String.eqb n name then (n, f v) :: rest
      else (n, v) :: map_entry name f rest
  end.

Fixpoint remove_entry (name : string) (es : entries) : entries :=
  match es with
  | [] => []
  | (n, v) :: rest =>
      if String.eqb n name then remove_entry name rest
      else (n, v) :: remove_entry name rest
  end.

(** Replaces the entry called [name], or appends it when there is none. *)
Fixpoint put_entry (name : string) (v : node) (es : entries) : entries :=
  match es with
  | [] => [(name, v)]
  | (n, w) :: rest =>
      if String.eqb n name then (n, v) :: rest
      else (n, w) :: put_entry name v rest
  end.

Fixpoint lookup (v : node) (p : path) : option node :=
  match p with
  | [] => Some v
  | name :: rest =>
      match v with
      | Dir es =>
          match find_entry name es with
          | Some c => lookup c rest
          | None => None
          end
      | File _ _ => None
      end
  end.

(** Applies [f] to the node at [p], when there is one. *)
Fixpoint alter (f : node -> node) (p : path) (v : node) : node :=
  match p with
  | [] => f v
  | name :: rest =>
      match v with
      | Dir es => Dir (map_entry name (alter f rest) es)
      | File d m => File d m
      end
  end.

Definition on_entries (g : entries -> entries) (v : node) : node :=
  match v with
  | Dir es => Dir (g es)
  | File d m => File d m
  end.

(** The store: the hierarchy below the root and the host's clock. *)
Record store := mkStore { root : node; clock : Z }.

Definition set_root (st : store) (r : node) : store :=
  {| root := r; clock := clock st |}.

(** Faults of the host store, told apart by their [name]. *)
Inductive fault :=
| NotFoundFault
| TypeMismatchFault
| NotAllowedFault
| InvalidModificationFault
| TypeErrorFault
| SecurityFault
| IOFault.

Definition fault_name (f : fault) : string :=
  match f with
  | NotFoundFault => "NotFoundError"
  | TypeMismatchFault => "TypeMismatchError"
  | NotAllowedFault => "NotAllowedError"
  | InvalidModificationFault => "InvalidModificationError"
  | TypeErrorFault => "TypeError"
  | SecurityFault => "SecurityError"
  | IOFault => "NotReadableError"
  end.

(** What the adapter can throw: its three error classes, each carrying the
    operation and its path arguments; a JavaScript [TypeError] (a method
    called on a value that does not have it); or a host fault, unchanged. *)
Inductive error :=
| NotFoundError (op : string) (args : list path)
| DirectoryError (op : string) (args : list path)
| NotEmptyError (op : string) (args : list path)
| TypeError
| HostFault (f : fault).

Definition error_name (e : error) : string :=
  match e with
  | NotFoundError _ _ => "NotFoundError"
  | DirectoryError _ _ => "DirectoryError"
  | NotEmptyError _ _ => "NotEmptyError"
  | TypeError => "TypeError"
  | HostFault f => fault_name f
  end.

(** The behaviour of one host: which locations it refuses to hand out, how
    its native file move answers, and whether directory handles have a
    native move at all. *)
Record host := mkHost {
  access_fault : path -> option fault;
  file_move_fault : option fault;
  dir_move : option (option fault)
}.

(** A host that never faults and moves files natively, but has no native
    directory move. *)
Definition plain_host : host :=
  {| access_fault := fun _ => None; file_move_fault := None; dir_move := None |}.

(* ================================================================= *)
(** ** The monad of operations *)

Inductive outcome (A : Type) : Type :=
| Ok (a : A)
| Throw (e : error)
| OutOfFuel.

Arguments Ok {A} a.
Arguments Throw {A} e.
Arguments OutOfFuel {A}.

Definition M (A : Type) : Type := store -> store * outcome A.

Definition ret {A} (a : A) : M A := fun st => (st, Ok a).

Definition throw {A} (e : error) : M A := fun st => (st, Throw e).

Definition bind {A B} (c : M A) (k : A -> M B) : M B :=
  fun st =>
    match c st with
    | (st', Ok a) => k a st'
    | (st', Throw e) => (st', Throw e)
    | (st', OutOfFuel) => (st', OutOfFuel)
    end.

Notation "x <- c ;; k" := (bind c (fun x => k))
  (at level 61, c at next level, right associativity).
Notation "c ;;; k" := (bind c (fun _ => k))
  (at level 61, right associativity).

(** [try { c } catch { ... }]: runs [c] and hands the thrown error, if any,
    to the caller as a value. *)
Definition attempt {A} (c : M A) : M (error + A) :=
  fun st =>
    match c st with
    | (st', Ok a) => (st', Ok (inr a))
    | (st', Throw e) => (st', Ok (inl e))
    | (st', OutOfFuel) => (st', OutOfFuel)
    end.

Definition get_store : M store := fun st => (st, Ok st).

(** [for (const x of xs) { body x }] *)
Fixpoint for_each {A} (xs : list A) (body : A -> M unit) : M unit :=
  match xs with
  | [] => ret tt
  | x :: rest => body x ;;; for_each rest body
  end.

(* ================================================================= *)
(** ** The host's handle primitives *)

(** A handle: the kind of the node it was obtained for and where that node
    sits below the root.  The root handle has the empty location. *)
Record handle := mkHandle { h_kind : kind; h_loc : path }.

Definition root_handle : handle := {| h_kind := DirectoryK; h_loc := [] |}.

(** [handle.name]; the root's name is the empty string. *)
Definition h_name (h : handle) : string :=
  match Path_name (h_loc h) with Some n => n | None => "" end.

(** The [File] object of [getFile()]. *)
Record file_object := mkFileObject { f_bytes : list byte; f_lastModified : Z }.

(** The sink of [createWritable()]: the file it will replace and what has
    been written to it so far. *)
Record writable := mkWritable { w_target : path; w_buffer : list byte }.

(** One element of [values()]. *)
Record dir_entry := mkDirEntry { e_name : string; e_kind : kind }.

(** The records [list] yields. *)
Record list_entry := mkListEntry {
  name : string;
  isDirectory_ : bool;
  isFile_ : bool;
  isSymlink_ : bool
}.

Section Host.

Variable H : host.

(** Modelled from the spec: the host's handle primitives are the consumed
    capability interface of the spec's section 6 and are not part of the
    sources.  Get-or-create child directory: fails when the name exists as a
    file, creates when [create] is set and the name is missing. *)
Definition getDirectoryHandle (h : handle) (nm : string) (create : bool)
  : M handle :=
  fun st =>
    let loc := h_loc h ++ [nm] in
    if String.eqb nm "" then (st, Throw (HostFault TypeErrorFault)) else
    match access_fault H loc with
    | Some f => (st, Throw (HostFault f))
    | None =>
        match lookup (root st) (h_loc h) with
        | Some (Dir es) =>
            match find_entry nm es with
            | Some (Dir _) => (st, Ok (mkHandle DirectoryK loc))
            | Some (File _ _) => (st, Throw (HostFault TypeMismatchFault))
            | None =>
                if create then
                  (set_root st
                     (alter (on_entries (put_entry nm (Dir []))) (h_loc h) (root st)),
                   Ok (mkHandle DirectoryK loc))
                else (st, Throw (HostFault NotFoundFault))
            end
        | _ => (st, Throw (HostFault NotFoundFault))
        end
    end.

(** Modelled from the spec: get-or-create child file (section 6): fails when
    the name exists as a directory, creates an empty file stamped with the
    host's clock when [create] is set and the name is missing. *)
Definition getFileHandle (h : handle) (nm : string) (create : bool)
  : M handle :=
  fun st =>
    let loc := h_loc h ++ [nm] in
    if String.eqb nm "" then (st, Throw (HostFault TypeErrorFault)) else
    match access_fault H loc with
    | Some f => (st, Throw (HostFault f))
    | None =>
        match lookup (root st) (h_loc h) with
        | Some (Dir es) =>
            match find_entry nm es with
            | Some (File _ _) => (st, Ok (mkHandle FileK loc))
            | Some (Dir _) => (st, Throw (HostFault TypeMismatchFault))
            | None =>
                if create then
                  (set_root st
                     (alter (on_entries (put_entry nm (File [] (clock st))))
                        (h_loc h) (root st)),
                   Ok (mkHandle FileK loc))
                else (st, Throw (HostFault NotFoundFault))
            end
        | _ => (st, Throw (HostFault NotFoundFault))
        end
    end.

(** Modelled from the spec: read a file's content and metadata (section 6).
    Only file handles have [getFile]. *)
Definition getFile (h : handle) : M file_object :=
  fun st =>
    match h_kind h with
    | DirectoryK => (st, Throw TypeError)
    | FileK =>
        match lookup (root st) (h_loc h) with
        | Some (File d m) => (st, Ok (mkFileObject d m))
        | _ => (st, Throw (HostFault NotFoundFault))
        end
    end.

(** Modelled from the spec: open a write sink (section 6).  Only file
    handles have [createWritable]; the sink starts empty. *)
Definition createWritable (h : handle) : M writable :=
  fun st =>
    match h_kind h with
    | DirectoryK => (st, Throw TypeError)
    | FileK =>
        match lookup (root st) (h_loc h) with
        | Some (File _ _) => (st, Ok (mkWritable (h_loc h) []))
        | _ => (st, Throw (HostFault NotFoundFault))
        end
    end.

(** Modelled from the spec: [write(bytes)] on a sink. *)
Definition writable_write (w : writable) (contents : list byte) : M writable :=
  ret (mkWritable (w_target w) (w_buffer w ++ contents)).

(** Modelled from the spec: [close()] on a sink replaces the file's content
    by what was written and stamps it with the host's clock. *)
Definition writable_close (w : writable) : M unit :=
  fun st =>
    match lookup (root st) (w_target w) with
    | Some (File _ _) =>
        (set_root st
           (alter (fun _ => File (w_buffer w) (clock st)) (w_target w) (root st)),
         Ok tt)
    | _ => (st, Throw (HostFault NotFoundFault))
    end.

(** Modelled from the spec: enumerate children (section 6); each call
    re-queries the store.  Only directory handles have [values]. *)
Definition values (h : handle) : M (list dir_entry) :=
  fun st =>
    match h_kind h with
    | FileK => (st, Throw TypeError)
    | DirectoryK =>
        match lookup (root st) (h_loc h) with
        | Some (Dir es) =>
            (st, Ok (map (fun e => mkDirEntry (fst e) (node_kind (snd e))) es))
        | _ => (st, Throw (HostFault NotFoundFault))
        end
    end.

(** Modelled from the spec: remove named child, without the recursive flag
    (section 6): the entry must exist and a directory must be empty. *)
Definition removeEntry (h : handle) (nm : string) : M unit :=
  fun st =>
    if String.eqb nm "" then (st, Throw (HostFault TypeErrorFault)) else
    match access_fault H (h_loc h ++ [nm]) with
    | Some f => (st, Throw (HostFault f))
    | None =>
        match lookup (root st) (h_loc h) with
        | Some (Dir es) =>
            match find_entry nm es with
            | None => (st, Throw (HostFault NotFoundFault))
            | Some (Dir (_ :: _)) =>
                (st, Throw (HostFault InvalidModificationFault))
            | Some _ =>
                (set_root st
                   (alter (on_entries (remove_entry nm)) (h_loc h) (root st)),
                 Ok tt)
            end
        | _ => (st, Throw (HostFault NotFoundFault))
        end
    end.


Fixpoint path_eqb (p q : path) : bool :=
  match p, q with
  | [], [] => true
  | a :: p', b :: q' => String.eqb a b && path_eqb p' q'
  | _, _ => false
  end.

(** Modelled from the spec: [move(newParent, newName)] (section 6,
    optional): relocates the node under a new parent and name, replacing a
    file of that name; [flt] is the fault this host answers a well-formed
    request with, if any.  A missing parent or name is a [TypeError]; the
    host must grant access to the new location; a node cannot move below
    itself nor onto an existing directory. *)
Definition native_move (flt : option fault) (h : handle)
    (newParent : option handle) (newName : option string) : M unit :=
  fun st =>
    match newParent, newName with
    | Some ph, Some nm =>
        if String.eqb nm "" then (st, Throw (HostFault TypeErrorFault)) else
        match flt, access_fault H (h_loc ph ++ [nm]) with
        | Some f, _ => (st, Throw (HostFault f))
        | None, Some f => (st, Throw (HostFault f))
        | None, None =>
            match lookup (root st) (h_loc h), lookup (root st) (h_loc ph) with
            | Some v, Some (Dir es) =>
                if prefix (h_loc h) (h_loc ph) then
                  (st, Throw (HostFault InvalidModificationFault))
                else
                  match find_entry nm es with
                  | Some (Dir _) =>
                      (st, Throw (HostFault InvalidModificationFault))
                  | _ =>
                      let r1 := alter (on_entries (remove_entry (h_name h)))
                                  (removelast (h_loc h)) (root st) in
                      (set_root st
                         (alter (on_entries (put_entry nm v)) (h_loc ph) r1),
                       Ok tt)
                  end
            | _, _ => (st, Throw (HostFault NotFoundFault))
            end
        end
    | _, _ => (st, Throw (HostFault TypeErrorFault))
    end.

(* ================================================================= *)
(** ** Helpers of the adapter *)

Record options := mkOptions {
  returnParent : bool;
  create : bool;
  okind : option kind
}.

Definition default_options : options := mkOptions false false None.

(** The [while (handle && name)] loop of [getDetails]: [hd] is [handle] and
    the head of [steps] is [name]. *)
Fixpoint walk (create : bool) (knd : option kind) (hd : handle)
    (steps : list string) : M (option handle) :=
  match steps with
  | [] => ret None
  | nm :: rest =>
      if String.eqb nm "" then ret None else
      match rest with
      | _ :: _ =>
          r <- attempt (getDirectoryHandle hd nm create) ;;
          match r with
          | inl _ => ret None
          | inr h' => walk create knd h' rest
          end
      | [] =>
          match knd with
          | None =>
              r <- attempt (getDirectoryHandle hd nm create) ;;
              match r with
              | inr h' => ret (Some h')
              | inl _ =>
                  r2 <- attempt (getFileHandle hd nm create) ;;
                  match r2 with
                  | inr h' => ret (Some h')
                  | inl _ => ret None
                  end
              end
          | Some DirectoryK =>
              r <- attempt (getDirectoryHandle hd nm create) ;;
              match r with
              | inr h' => ret (Some h')
              | inl _ => ret None
              end
          | Some FileK =>
              r <- attempt (getFileHandle hd nm create) ;;
              match r with
              | inr h' => ret (Some h')
              | inl _ => ret None
              end
          end
      end
  end.

(** [getDetails(root, opaqueId, options)].  After the check for the
    literal, [Path.from(opaqueId)] turns the string into its segments;
    it stands outside every [try] and throws a [TypeError] for a string
    without segments or with an empty segment.  The definition is given
    the segments, so it is the function on the strings [Path.from]
    accepts: those with at least one segment and no empty segment. *)
Definition getDetails (opaqueId : path) (o : options) : M (option handle) :=
  if path_eqb opaqueId ["root"] then ret (Some root_handle)
  else
    let steps := if returnParent o then removelast opaqueId else opaqueId in
    walk (create o) (okind o) root_handle steps.

(** [readFile(root, filePath, "arrayBuffer")]. *)
Definition readFile (filePath : path) : M (option (list byte)) :=
  h <- getDetails filePath default_options ;;
  match h with
  | None => ret None
  | Some handle =>
      match h_kind handle with
      | DirectoryK => ret None
      | FileK =>
          file <- getFile handle ;;
          ret (Some (f_bytes file))
      end
  end.

(* ================================================================= *)
(** ** [FastHfsImpl]: single-entry operations *)

Definition bytes (filePath : path) : M (option (list byte)) :=
  readFile filePath.

Definition write (filePath : path) (contents : list byte) : M unit :=
  h <- getDetails filePath default_options ;;
  handle <-
    match h with
    | Some handle => ret handle
    | None =>
        let nm := Path_name filePath in
        ph <- getDetails filePath (mkOptions true true (Some DirectoryK)) ;;
        let parentHandle :=
          match ph with Some x => x | None => root_handle end in
        getFileHandle parentHandle (js_string nm) true
    end ;;
  w <- createWritable handle ;;
  w' <- writable_write w contents ;;
  writable_close w'.

Definition append (filePath : path) (contents : list byte) : M unit :=
  h <- getDetails filePath default_options ;;
  match h with
  | None => write filePath contents
  | Some handle =>
      match h_kind handle with
      | DirectoryK => throw (DirectoryError "append" [filePath])
      | FileK =>
          file <- getFile handle ;;
          let newValue := f_bytes file ++ contents in
          write filePath newValue
      end
  end.

Definition isFile (filePath : path) : M bool :=
  h <- getDetails filePath default_options ;;
  ret (match h with
       | Some handle => kind_eqb (h_kind handle) FileK
       | None => false
       end).

Definition isDirectory (dirPath : path) : M bool :=
  h <- getDetails dirPath default_options ;;
  ret (match h with
       | Some handle => kind_eqb (h_kind handle) DirectoryK
       | None => false
       end).

Fixpoint createDirectory_from (hd : handle) (steps : list string) : M unit :=
  match steps with
  | [] => ret tt
  | nm :: rest =>
      h' <- getDirectoryHandle hd nm true ;;
      createDirectory_from h' rest
  end.

Definition createDirectory (dirPath : path) : M unit :=
  createDirectory_from root_handle dirPath.

(** [parentHandle.removeEntry(handle.name)] is not awaited: the removal is
    started, and a rejection of it never reaches the caller of [delete]. *)
Definition delete (opaqueId : path) : M unit :=
  h <- getDetails opaqueId default_options ;;
  ph <- getDetails opaqueId (mkOptions true false None) ;;
  let parentHandle := match ph with Some x => x | None => root_handle end in
  match h with
  | None => throw (NotFoundError "delete" [opaqueId])
  | Some handle =>
      match h_kind handle with
      | DirectoryK =>
          es <- values handle ;;
          match es with
          | _ :: _ => throw (NotEmptyError "delete" [opaqueId])
          | [] => ret tt
          end
      | FileK => ret tt
      end ;;;
      attempt (removeEntry parentHandle (h_name handle)) ;;;
      ret tt
  end.

(** [list]: the entries are those the store holds when the enumeration
    starts. *)
Definition list_ (dirPath : path) : M (list list_entry) :=
  h <- getDetails dirPath default_options ;;
  match h with
  | None => ret []
  | Some handle =>
      es <- values handle ;;
      ret (map (fun e =>
                  mkListEntry (e_name e)
                    (kind_eqb (e_kind e) DirectoryK)
                    (kind_eqb (e_kind e) FileK)
                    false) es)
  end.

Definition size (filePath : path) : M (option nat) :=
  h <- getDetails filePath default_options ;;
  match h with
  | None => ret None
  | Some handle =>
      match h_kind handle with
      | DirectoryK => ret None
      | FileK =>
          file <- getFile handle ;;
          ret (Some (List.length (f_bytes file)))
      end
  end.

Definition out_of_fuel {A} : M A := fun st => (st, OutOfFuel).

(** [new Date()]: the host's clock. *)
Definition now : M Z := fun st => (st, Ok (clock st)).

(** The loop of [lastModified] over the entries of a directory: [acc] is
    the running [lastModified], which starts at [new Date(0)]. *)
Fixpoint newest (rec : path -> M (option Z)) (opaqueId : path)
    (es : list list_entry) (acc : Z) : M Z :=
  match es with
  | [] => ret acc
  | entry :: rest =>
      let entryPath := Path_push opaqueId (name entry) in
      date <- rec entryPath ;;
      newest rec opaqueId rest
        (match date with
         | Some d => if Z.gtb d acc then d else acc
         | None => acc
         end)
  end.

(** [fuel] bounds the depth of the recursion. *)
Fixpoint lastModified (fuel : nat) (opaqueId : path) : M (option Z) :=
  match fuel with
  | O => out_of_fuel
  | S n =>
      h <- getDetails opaqueId default_options ;;
      match h with
      | None => ret None
      | Some handle =>
          match h_kind handle with
          | FileK =>
              file <- getFile handle ;;
              ret (Some (f_lastModified file))
          | DirectoryK =>
              es <- list_ opaqueId ;;
              lm <- newest (lastModified n) opaqueId es 0%Z ;;
              if Z.eqb lm 0 then (t <- now ;; ret (Some t))
              else ret (Some lm)
          end
      end
  end.

(* ================================================================= *)
(** ** [FastHfsImpl]: copy and move *)

Definition copy (source destination : path) : M unit :=
  h <- getDetails source default_options ;;
  match h with
  | None => throw (NotFoundError "copy" [source; destination])
  | Some fromHandle =>
      match h_kind fromHandle with
      | DirectoryK => throw (DirectoryError "copy" [source; destination])
      | FileK =>
          d <- isDirectory destination ;;
          if d then throw (DirectoryError "copy" [source; destination])
          else
            toHandle <- getDetails destination (mkOptions false true (Some FileK)) ;;
            file <- getFile fromHandle ;;
            match toHandle with
            | None => throw TypeError
            | Some th =>
                w <- createWritable th ;;
                w' <- writable_write w (f_bytes file) ;;
                writable_close w'
            end
      end
  end.

(** [fuel] bounds the depth of the recursion; the two cursors are pushed
    before and popped after each entry, so each entry sees
    [source/name] and [destination/name]. *)
Fixpoint copyAll (fuel : nat) (source destination : path) : M unit :=
  match fuel with
  | O => out_of_fuel
  | S n =>
      f <- isFile source ;;
      if f then copy source destination
      else
        d <- isDirectory source ;;
        if negb d then throw (NotFoundError "copyAll" [source; destination])
        else
          createDirectory destination ;;;
          es <- list_ source ;;
          for_each es (fun entry =>
            let destinationPath := Path_push destination (name entry) in
            let sourcePath := Path_push source (name entry) in
            if isDirectory_ entry then copyAll n sourcePath destinationPath
            else copy sourcePath destinationPath)
  end.

Definition move (source destination : path) : M unit :=
  h <- getDetails source default_options ;;
  match h with
  | None => throw (NotFoundError "move" [source; destination])
  | Some handle =>
      match h_kind handle with
      | DirectoryK => throw (DirectoryError "move" [source; destination])
      | FileK =>
          let (destinationName, destinationPath) := Path_pop destination in
          destinationParent <-
            getDetails destinationPath (mkOptions false true (Some DirectoryK)) ;;
          r <- attempt (native_move (file_move_fault H) handle
                          destinationParent destinationName) ;;
          match r with
          | inr _ => ret tt
          | inl ex =>
              (* handleChromeError *)
              if String.eqb (error_name ex) "NotAllowedError" then
                copy source destination ;;;
                delete source
              else throw ex
          end
      end
  end.

Fixpoint moveAll (fuel : nat) (source destination : path) : M unit :=
  match fuel with
  | O => out_of_fuel
  | S n =>
      h <- getDetails source default_options ;;
      match h with
      | None => throw (NotFoundError "moveAll" [source; destination])
      | Some handle =>
          match h_kind handle with
          | FileK => move source destination
          | DirectoryK =>
              match dir_move H with
              | Some flt =>
                  let (destinationName, destinationPath) := Path_pop destination in
                  destinationParent <-
                    getDetails destinationPath
                      (mkOptions false true (Some DirectoryK)) ;;
                  native_move flt handle destinationParent destinationName
              | None =>
                  createDirectory destination ;;;
                  es <- list_ source ;;
                  for_each es (fun entry =>
                    let destinationPath := Path_push destination (name entry) in
                    let sourcePath := Path_push source (name entry) in
                    if isDirectory_ entry then moveAll n sourcePath destinationPath
                    else move sourcePath destinationPath) ;;;
                  delete source
              end
          end
      end
  end.

End Host.

(* ================================================================= *)
(** ** Running the operations on small stores *)

Definition bs (s : string) : list byte := list_byte_of_string s.

Definition st_of (es : entries) : store := {| root := Dir es; clock := 1000 |}.

Example write_then_list :
  let st := fst (write plain_host ["docs"; "readme.txt"] (bs "hi") (st_of [])) in
  snd (list_ plain_host ["docs"] st)
    = Ok [mkListEntry "readme.txt" false true false]
  /\ snd (size plain_host ["docs"; "readme.txt"] st) = Ok (Some 2).
Proof. vm_compute. split; reflexivity. Qed.

Example createDirectory_chain :
  let st := fst (createDirectory plain_host ["a"; "b"; "c"] (st_of [])) in
  snd (isDirectory plain_host ["a"; "b"; "c"] st) = Ok true
  /\ snd (isDirectory plain_host ["a"; "b"] st) = Ok true
  /\ snd (isDirectory plain_host ["a"] st) = Ok true
  /\ fst (createDirectory plain_host ["a"; "b"; "c"] st) = st.
Proof. vm_compute. repeat split; reflexivity. Qed.

(* ================================================================= *)
(** ** Facts about paths *)

Lemma path_eqb_eq (p q : path) : path_eqb p q = true <-> p = q.
Proof.
  revert q; induction p as [|a p IH]; intros [|b q]; simpl; split;
    try congruence; try reflexivity.
  - rewrite andb_true_iff, String.eqb_eq, IH. intros [-> ->]; reflexivity.
  - intros E; inversion E; subst. rewrite String.eqb_refl; simpl.
    apply IH; reflexivity.
Qed.

Lemma path_eqb_refl (p : path) : path_eqb p p = true.
Proof. apply path_eqb_eq; reflexivity. Qed.

Lemma path_eqb_neq (p q : path) : path_eqb p q = false <-> p <> q.
Proof.
  split.
  - intros E ->. rewrite path_eqb_refl in E; discriminate.
  - intros N. destruct (path_eqb p q) eqn:E; [|reflexivity].
    apply path_eqb_eq in E; contradiction.
Qed.

Lemma prefix_spec (p q : path) : prefix p q = true <-> exists r, q = p ++ r.
Proof.
  revert q; induction p as [|a p IH]; intros q; simpl.
  - split; [intros _; exists q; reflexivity | reflexivity].
  - destruct q as [|b q].
    + split; [discriminate | intros [r E]; discriminate].
    + rewrite andb_true_iff, String.eqb_eq, IH. split.
      * intros [-> [r ->]]; exists r; reflexivity.
      * intros [r E]; inversion E; subst; split; [reflexivity | exists r; reflexivity].
Qed.

Lemma prefix_refl (p : path) : prefix p p = true.
Proof. apply prefix_spec; exists []; rewrite app_nil_r; reflexivity. Qed.

Lemma prefix_app (p r : path) : prefix p (p ++ r) = true.
Proof. apply prefix_spec; exists r; reflexivity. Qed.

Lemma prefix_trans (p q r : path) :
  prefix p q = true -> prefix q r = true -> prefix p r = true.
Proof.
  rewrite !prefix_spec. intros [a ->] [b ->]. exists (a ++ b).
  rewrite app_assoc; reflexivity.
Qed.

Lemma prefix_length (p q : path) :
  prefix p q = true -> (List.length p <= List.length q)%nat.
Proof.
  rewrite prefix_spec. intros [r ->]. rewrite length_app; lia.
Qed.

(** Two prefixes of one path lie on one branch. *)
Lemma prefix_comparable (p q w : path) :
  prefix p w = true -> prefix q w = true ->
  prefix p q = true \/ prefix q p = true.
Proof.
  revert q w; induction p as [|a p IH]; intros q w; simpl; [auto|].
  destruct w as [|c w]; [discriminate|].
  destruct q as [|b q]; simpl; [auto|].
  intros Hp Hq.
  apply andb_true_iff in Hp; destruct Hp as [Ea Hp].
  apply andb_true_iff in Hq; destruct Hq as [Eb Hq].
  apply String.eqb_eq in Ea, Eb; subst.
  rewrite String.eqb_refl; simpl. eapply IH; eauto.
Qed.

Lemma prefix_app_l (p q r : path) :
  prefix (p ++ q) (p ++ r) = prefix q r.
Proof.
  induction p as [|a p IH]; simpl; [reflexivity|].
  rewrite String.eqb_refl; simpl; exact IH.
Qed.

Lemma prefix_false_app (p q r : path) :
  prefix p q = false -> prefix q p = false -> prefix (p ++ r) q = false.
Proof.
  intros Hpq Hqp. destruct (prefix (p ++ r) q) eqn:E; [|reflexivity].
  assert (prefix p q = true)
    by (eapply prefix_trans; [apply prefix_app | exact E]).
  congruence.
Qed.

Lemma disjoint_spec (p q : path) :
  disjoint p q = true <-> prefix p q = false /\ prefix q p = false.
Proof.
  unfold disjoint. rewrite andb_true_iff, !negb_true_iff. reflexivity.
Qed.

Lemma disjoint_sym (p q : path) : disjoint p q = disjoint q p.
Proof. unfold disjoint. apply andb_comm. Qed.

(** Disjoint paths stay disjoint however they are extended. *)
Lemma disjoint_app (p q r s : path) :
  disjoint p q = true -> disjoint (p ++ r) (q ++ s) = true.
Proof.
  rewrite !disjoint_spec. intros [Hpq Hqp]. split.
  - destruct (prefix (p ++ r) (q ++ s)) eqn:E; [|reflexivity].
    destruct (prefix_comparable p q (q ++ s)) as [C|C];
      [eapply prefix_trans; [apply prefix_app | exact E]
      | apply prefix_app | congruence | congruence].
  - destruct (prefix (q ++ s) (p ++ r)) eqn:E; [|reflexivity].
    destruct (prefix_comparable p q (p ++ r)) as [C|C];
      [apply prefix_app
      | eapply prefix_trans; [apply prefix_app | exact E]
      | congruence | congruence].
Qed.

Lemma disjoint_app_l (p q r : path) :
  disjoint p q = true -> disjoint (p ++ r) q = true.
Proof.
  intros D. rewrite <- (app_nil_r q). apply disjoint_app; exact D.
Qed.

Lemma disjoint_app_r (p q r : path) :
  disjoint p q = true -> disjoint p (q ++ r) = true.
Proof.
  intros D. rewrite <- (app_nil_r p). apply disjoint_app; exact D.
Qed.

Lemma disjoint_siblings (p : path) (a b : string) (r s : path) :
  a <> b -> disjoint (p ++ a :: r) (p ++ b :: s) = true.
Proof.
  intros N. apply disjoint_spec. rewrite !prefix_app_l; simpl.
  destruct (String.eqb_spec a b), (String.eqb_spec b a);
    try congruence; auto.
Qed.

Lemma Path_name_app (p : path) (n : string) : Path_name (p ++ [n]) = Some n.
Proof.
  induction p as [|a p IH]; simpl; [reflexivity|].
  rewrite IH. destruct (p ++ [n]) eqn:E; [|reflexivity].
  destruct p; discriminate.
Qed.

Lemma removelast_snoc (p : path) (n : string) : removelast (p ++ [n]) = p.
Proof. apply removelast_last. Qed.

Lemma path_snoc_cases (p : path) : p = [] \/ exists q n, p = q ++ [n].
Proof.
  destruct p as [|a p]; [auto | right].
  destruct (@exists_last _ (a :: p)) as [q [n E]]; [discriminate|]. eauto.
Qed.

Lemma snoc_not_root (p : path) (x : string) :
  p <> [] -> p ++ [x] <> ["root"].
Proof.
  intros N E. apply (f_equal (@List.length string)) in E.
  rewrite length_app in E. simpl in E. destruct p; [congruence|].
  simpl in E. lia.
Qed.

(* ================================================================= *)
(** ** Facts about the hierarchy *)

Lemma find_entry_put_same (nm : string) (v : node) (es : entries) :
  find_entry nm (put_entry nm v es) = Some v.
Proof.
  induction es as [|[n w] es IH]; simpl.
  - rewrite String.eqb_refl; reflexivity.
  - destruct (String.eqb n nm) eqn:E; simpl; rewrite E; auto.
Qed.

Lemma find_entry_put_other (n nm : string) (v : node) (es : entries) :
  n <> nm -> find_entry n (put_entry nm v es) = find_entry n es.
Proof.
  intros N. induction es as [|[m w] es IH]; simpl.
  - destruct (String.eqb_spec nm n); congruence.
  - destruct (String.eqb_spec m nm); simpl.
    + subst. destruct (String.eqb_spec nm n); congruence.
    + rewrite IH; reflexivity.
Qed.

Lemma find_entry_remove_same (nm : string) (es : entries) :
  find_entry nm (remove_entry nm es) = None.
Proof.
  induction es as [|[m w] es IH]; simpl; [reflexivity|].
  destruct (String.eqb m nm) eqn:E; simpl; [|rewrite E]; exact IH.
Qed.

Lemma find_entry_remove_other (n nm : string) (es : entries) :
  n <> nm -> find_entry n (remove_entry nm es) = find_entry n es.
Proof.
  intros N. induction es as [|[m w] es IH]; simpl; [reflexivity|].
  destruct (String.eqb_spec m nm); simpl.
  - subst. destruct (String.eqb_spec nm n); congruence.
  - rewrite IH; reflexivity.
Qed.

Lemma find_entry_map_same (nm : string) (f : node -> node) (es : entries) :
  find_entry nm (map_entry nm f es) = option_map f (find_entry nm es).
Proof.
  induction es as [|[m w] es IH]; simpl; [reflexivity|].
  destruct (String.eqb m nm) eqn:E; simpl; rewrite E; auto.
Qed.

Lemma find_entry_map_other (n nm : string) (f : node -> node) (es : entries) :
  n <> nm -> find_entry n (map_entry nm f es) = find_entry n es.
Proof.
  intros N. induction es as [|[m w] es IH]; simpl; [reflexivity|].
  destruct (String.eqb_spec m nm); simpl.
  - subst. destruct (String.eqb_spec nm n); congruence.
  - rewrite IH; reflexivity.
Qed.

Lemma find_entry_In (nm : string) (es : entries) (v : node) :
  find_entry nm es = Some v -> In (nm, v) es.
Proof.
  induction es as [|[m w] es IH]; simpl; [discriminate|].
  destruct (String.eqb_spec m nm); intros E.
  - inversion E; subst; auto.
  - auto.
Qed.

Lemma find_entry_None_In (nm : string) (es : entries) :
  find_entry nm es = None -> ~ In nm (map fst es).
Proof.
  induction es as [|[m w] es IH]; simpl; [tauto|].
  destruct (String.eqb_spec m nm); [discriminate|].
  intros E [F|F]; [congruence | exact (IH E F)].
Qed.

Lemma lookup_app (v : node) (p q : path) :
  lookup v (p ++ q) =
  match lookup v p with Some w => lookup w q | None => None end.
Proof.
  revert v; induction p as [|a p IH]; intros v; simpl; [reflexivity|].
  destruct v as [d m|es]; [reflexivity|].
  destruct (find_entry a es); [apply IH | reflexivity].
Qed.

Lemma lookup_snoc_dir (v : node) (p : path) (n : string) (w : node) :
  lookup v (p ++ [n]) = Some w ->
  exists es, lookup v p = Some (Dir es) /\ find_entry n es = Some w.
Proof.
  rewrite lookup_app. destruct (lookup v p) as [[d m|es]|]; simpl;
    try discriminate.
  destruct (find_entry n es) eqn:E; [|discriminate].
  intros X; inversion X; subst. eauto.
Qed.

Lemma lookup_prefix_dir (v : node) (p r : path) (w : node) :
  lookup v (p ++ r) = Some w -> r <> [] ->
  exists es, lookup v p = Some (Dir es).
Proof.
  rewrite lookup_app. destruct (lookup v p) as [[d m|es]|]; try discriminate.
  - destruct r; simpl; [congruence | discriminate].
  - eauto.
Qed.

Lemma lookup_file_below (v : node) (p r : path) (d : list byte) (m : Z) :
  lookup v p = Some (File d m) -> r <> [] -> lookup v (p ++ r) = None.
Proof.
  intros E N. rewrite lookup_app, E. destruct r; [congruence | reflexivity].
Qed.

Lemma lookup_none_below (v : node) (p r : path) :
  lookup v p = None -> lookup v (p ++ r) = None.
Proof. intros E. rewrite lookup_app, E. reflexivity. Qed.

(** The node at a prefix of an altered location is altered below. *)
Lemma lookup_alter_above (f : node -> node) (q r : path) (v : node) :
  lookup (alter f (q ++ r) v) q = option_map (alter f r) (lookup v q).
Proof.
  revert v; induction q as [|a q IH]; intros v; simpl; [reflexivity|].
  destruct v as [d m|es]; [reflexivity|].
  rewrite find_entry_map_same.
  destruct (find_entry a es); simpl; [apply IH | reflexivity].
Qed.

Lemma lookup_alter_same (f : node -> node) (p : path) (v : node) :
  lookup (alter f p v) p = option_map f (lookup v p).
Proof.
  generalize (lookup_alter_above f p [] v). rewrite app_nil_r. auto.
Qed.

Lemma lookup_alter_below (f : node -> node) (p r : path) (v : node) :
  lookup (alter f p v) (p ++ r) =
  match lookup v p with Some w => lookup (f w) r | None => None end.
Proof.
  rewrite lookup_app, lookup_alter_same.
  destruct (lookup v p); reflexivity.
Qed.

(** Altering one branch leaves the others alone. *)
Lemma lookup_alter_off (f : node -> node) (p q : path) (v : node) :
  prefix p q = false -> prefix q p = false ->
  lookup (alter f p v) q = lookup v q.
Proof.
  revert q v; induction p as [|a p IH]; intros q v; simpl; [discriminate|].
  destruct q as [|b q]; simpl; [discriminate|].
  destruct v as [d m|es]; [reflexivity|].
  destruct (String.eqb_spec a b) as [->|N]; simpl.
  - rewrite String.eqb_refl; simpl. intros Hp Hq.
    rewrite find_entry_map_same.
    destruct (find_entry b es); simpl; [apply IH; assumption | reflexivity].
  - intros _ _. rewrite find_entry_map_other by congruence. reflexivity.
Qed.

(** The longest chain of nested entries. *)
Fixpoint height (v : node) : nat :=
  match v with
  | File _ _ => 1
  | Dir es =>
      S ((fix heights (l : list (string * node)) : nat :=
            match l with
            | [] => 0
            | (_, c) :: t => Nat.max (height c) (heights t)
            end) es)
  end.

Fixpoint heights (es : entries) : nat :=
  match es with
  | [] => 0
  | (_, c) :: t => Nat.max (height c) (heights t)
  end.

Lemma height_Dir (es : entries) : height (Dir es) = S (heights es).
Proof.
  reflexivity.
Qed.

Lemma height_pos (v : node) : (1 <= height v)%nat.
Proof. destruct v; [simpl; lia | rewrite height_Dir; lia]. Qed.

Lemma heights_In (n : string) (c : node) (es : entries) :
  In (n, c) es -> (height c <= heights es)%nat.
Proof.
  induction es as [|[m w] es IH]; simpl; [tauto|].
  intros [E|E]; [inversion E; subst; lia | specialize (IH E); lia].
Qed.

Lemma height_find (nm : string) (es : entries) (c : node) :
  find_entry nm es = Some c -> (height c < height (Dir es))%nat.
Proof.
  intros E. apply find_entry_In, heights_In in E.
  rewrite height_Dir. lia.
Qed.

Lemma height_lookup (v : node) (p : path) (w : node) :
  lookup v p = Some w -> (List.length p + height w <= height v)%nat.
Proof.
  revert v; induction p as [|a p IH]; intros v; simpl.
  - intros E; inversion E; lia.
  - destruct v as [d m|es]; [discriminate|].
    destruct (find_entry a es) eqn:F; [|discriminate].
    intros E. apply IH in E. apply height_find in F. lia.
Qed.

Lemma heights_map_entry (nm : string) (f : node -> node) (es : entries) (k : nat) :
  (forall x, height (f x) <= Nat.max (height x) k)%nat ->
  (heights (map_entry nm f es) <= Nat.max (heights es) k)%nat.
Proof.
  intros Hf. induction es as [|[m w] es IH]; simpl; [lia|].
  destruct (String.eqb m nm); simpl.
  - specialize (Hf w). lia.
  - lia.
Qed.

Lemma height_alter (f : node -> node) (k : nat) :
  (forall x, height (f x) <= Nat.max (height x) k)%nat ->
  forall (p : path) (v : node),
    (height (alter f p v) <= Nat.max (height v) (List.length p + k))%nat.
Proof.
  intros Hf. induction p as [|a p IH]; intros v; simpl.
  - apply Hf.
  - destruct v as [d m|es]; [simpl; lia|].
    rewrite !height_Dir.
    pose proof (heights_map_entry a (alter f p) es (List.length p + k) (IH)).
    lia.
Qed.

Lemma heights_put_entry (nm : string) (v : node) (es : entries) :
  (heights (put_entry nm v es) <= Nat.max (heights es) (height v))%nat.
Proof.
  induction es as [|[m w] es IH]; simpl; [lia|].
  destruct (String.eqb m nm); simpl; lia.
Qed.

Lemma heights_remove_entry (nm : string) (es : entries) :
  (heights (remove_entry nm es) <= heights es)%nat.
Proof.
  induction es as [|[m w] es IH]; simpl; [lia|].
  destruct (String.eqb m nm); simpl; lia.
Qed.

Lemma height_put (nm : string) (leaf : node) (loc : path) (v : node) :
  (height (alter (on_entries (put_entry nm leaf)) loc v)
   <= Nat.max (height v) (List.length loc + S (height leaf)))%nat.
Proof.
  apply height_alter. intros [d m|es]; simpl on_entries; [lia|].
  rewrite !height_Dir. pose proof (heights_put_entry nm leaf es). lia.
Qed.

Lemma height_set_file (b : list byte) (t : Z) (w : path) (v : node) :
  (height (alter (fun _ => File b t) w v)
   <= Nat.max (height v) (List.length w + 1))%nat.
Proof.
  apply height_alter. intros x. simpl. pose proof (height_pos x). lia.
Qed.

Lemma alter_on_entries_File (g : entries -> entries) (p : path)
    (d : list byte) (m : Z) :
  alter (on_entries g) p (File d m) = File d m.
Proof. destruct p; reflexivity. Qed.

(** Adding a fresh leaf below [loc] is seen only at the new location. *)
Lemma lookup_put_new (nm : string) (leaf : node) (loc q : path) (v : node)
    (es : entries) :
  lookup v loc = Some (Dir es) ->
  find_entry nm es = None ->
  (forall a r, lookup leaf (a :: r) = None) ->
  prefix q (loc ++ [nm]) = false ->
  lookup (alter (on_entries (put_entry nm leaf)) loc v) q = lookup v q.
Proof.
  intros Hloc Hnew Hleaf Hq.
  destruct (prefix loc q) eqn:Hlq.
  - apply prefix_spec in Hlq. destruct Hlq as [r ->].
    rewrite lookup_alter_below, lookup_app, Hloc. simpl on_entries.
    destruct r as [|x r].
    + rewrite app_nil_r in Hq.
      rewrite prefix_app in Hq. discriminate.
    + simpl. destruct (String.eqb_spec x nm) as [->|N].
      * rewrite find_entry_put_same, Hnew.
        destruct r as [|y r]; [|apply Hleaf].
        rewrite prefix_refl in Hq; discriminate.
      * rewrite find_entry_put_other by assumption. reflexivity.
  - apply lookup_alter_off; [assumption|].
    destruct (prefix q loc) eqn:E; [|reflexivity].
    assert (prefix q (loc ++ [nm]) = true)
      by (eapply prefix_trans; [exact E | apply prefix_app]).
    congruence.
Qed.

Lemma lookup_put_at (nm : string) (leaf : node) (loc : path) (v : node)
    (es : entries) :
  lookup v loc = Some (Dir es) ->
  lookup (alter (on_entries (put_entry nm leaf)) loc v) (loc ++ [nm]) = Some leaf.
Proof.
  intros Hloc. rewrite lookup_alter_below, Hloc. simpl.
  rewrite find_entry_put_same. reflexivity.
Qed.

(** Replacing the content of a file is seen only at that file. *)
Lemma lookup_set_file (b d : list byte) (t m : Z) (w q : path) (v : node) :
  lookup v w = Some (File d m) ->
  prefix q w = false ->
  lookup (alter (fun _ => File b t) w v) q = lookup v q.
Proof.
  intros Hw Hq.
  destruct (prefix w q) eqn:Hwq.
  - apply prefix_spec in Hwq. destruct Hwq as [r ->].
    rewrite lookup_alter_below, lookup_app, Hw.
    destruct r; [|reflexivity].
    rewrite app_nil_r, prefix_refl in Hq. discriminate.
  - apply lookup_alter_off; assumption.
Qed.

Lemma lookup_remove_below (nm : string) (loc r : path) (v : node) :
  lookup (alter (on_entries (remove_entry nm)) loc v) (loc ++ nm :: r) = None.
Proof.
  rewrite lookup_alter_below.
  destruct (lookup v loc) as [[d m|es]|]; simpl; try reflexivity.
  rewrite find_entry_remove_same. reflexivity.
Qed.

Lemma lookup_remove_off (nm : string) (loc q : path) (v : node) :
  disjoint q (loc ++ [nm]) = true ->
  lookup (alter (on_entries (remove_entry nm)) loc v) q = lookup v q.
Proof.
  intros D. apply disjoint_spec in D. destruct D as [Hq Hw].
  destruct (prefix loc q) eqn:Hlq.
  - apply prefix_spec in Hlq. destruct Hlq as [r ->].
    rewrite lookup_alter_below, lookup_app.
    destruct (lookup v loc) as [[d m|es]|]; simpl; try reflexivity.
    destruct r as [|x r].
    + rewrite app_nil_r, prefix_app in Hq. discriminate.
    + simpl. destruct (String.eqb_spec x nm) as [->|N].
      * replace (loc ++ nm :: r) with ((loc ++ [nm]) ++ r) in Hw
          by (rewrite <- app_assoc; reflexivity).
        rewrite prefix_app in Hw. discriminate.
      * rewrite find_entry_remove_other by assumption. reflexivity.
  - apply lookup_alter_off; [assumption|].
    destruct (prefix q loc) eqn:E; [|reflexivity].
    assert (prefix q (loc ++ [nm]) = true)
      by (eapply prefix_trans; [exact E | apply prefix_app]).
    congruence.
Qed.

(** A file cannot sit on the way to an existing node. *)
Lemma file_not_above (v : node) (q w : path) (d : list byte) (m : Z) (x : node) :
  lookup v q = Some (File d m) -> lookup v w = Some x ->
  prefix q w = true -> q = w.
Proof.
  intros Hq Hw P. apply prefix_spec in P. destruct P as [r ->].
  destruct r as [|a r]; [rewrite app_nil_r; reflexivity|].
  rewrite (lookup_file_below _ _ (a :: r) _ _ Hq) in Hw; [discriminate | discriminate].
Qed.

(* ================================================================= *)
(** ** How operations change the store *)

(** [grows w st st']: going from [st] to [st'] only added nodes on the way
    to [w]: every location that is not a prefix of [w] resolves as before,
    files are as they were, and nothing is deeper than before or than
    [w]. *)
Definition grows (w : path) (st st' : store) : Prop :=
  clock st' = clock st
  /\ (forall q, prefix q w = false -> lookup (root st') q = lookup (root st) q)
  /\ (forall q d m, lookup (root st) q = Some (File d m) ->
                    lookup (root st') q = Some (File d m))
  /\ (forall q es, lookup (root st) q = Some (Dir es) ->
                   exists es', lookup (root st') q = Some (Dir es'))
  /\ (height (root st') <= Nat.max (height (root st)) (List.length w + 1))%nat.

Lemma grows_refl (w : path) (st : store) : grows w st st.
Proof. unfold grows; repeat split; eauto; lia. Qed.

Lemma alter_on_entries_Dir (g : entries -> entries) (p : path) (es : entries) :
  exists es', alter (on_entries g) p (Dir es) = Dir es'.
Proof. destruct p; simpl; eauto. Qed.

Lemma grows_trans (w1 w2 : path) (st0 st1 st2 : store) :
  prefix w1 w2 = true ->
  grows w1 st0 st1 -> grows w2 st1 st2 -> grows w2 st0 st2.
Proof.
  intros P (C1 & F1 & K1 & D1 & H1) (C2 & F2 & K2 & D2 & H2).
  unfold grows.
  split; [congruence|]. split; [|split; [|split]].
  - intros q Hq. rewrite F2 by assumption. apply F1.
    destruct (prefix q w1) eqn:E; [|reflexivity].
    rewrite (prefix_trans _ _ _ E P) in Hq. discriminate.
  - intros q d m E. apply K2, K1, E.
  - intros q es E. destruct (D1 _ _ E) as [es1 E1]. eapply D2; eauto.
  - apply prefix_length in P. lia.
Qed.

Lemma grows_put_new (nm : string) (leaf : node) (loc : path) (st : store)
    (es : entries) :
  lookup (root st) loc = Some (Dir es) ->
  find_entry nm es = None ->
  (forall a r, lookup leaf (a :: r) = None) ->
  height leaf = 1%nat ->
  grows (loc ++ [nm]) st
    (set_root st (alter (on_entries (put_entry nm leaf)) loc (root st))).
Proof.
  intros Hloc Hnew Hleaf Hh.
  assert (Above : forall q, prefix q (loc ++ [nm]) = true ->
            lookup (root st) q <> None -> exists r, loc = q ++ r).
  { intros q P N. apply prefix_spec in P. destruct P as [r P].
    destruct (path_snoc_cases r) as [->|[r' [n X]]].
    - rewrite app_nil_r in P. subst q.
      rewrite lookup_app, Hloc in N. simpl in N. rewrite Hnew in N.
      congruence.
    - rewrite X, app_assoc in P. apply app_inj_tail in P.
      destruct P as [P _]. eauto. }
  unfold grows; simpl.
  split; [reflexivity|]. split; [|split; [|split]].
  - intros q Hq. eapply lookup_put_new; eauto.
  - intros q d m Hq.
    erewrite lookup_put_new; eauto.
    destruct (prefix q (loc ++ [nm])) eqn:P; [|reflexivity].
    destruct (Above q P) as [r ->]; [congruence|].
    destruct r as [|b r].
    + rewrite app_nil_r in Hloc. congruence.
    + rewrite (lookup_file_below _ _ (b :: r) _ _ Hq) in Hloc; discriminate.
  - intros q es0 Hq.
    destruct (prefix q (loc ++ [nm])) eqn:P.
    + destruct (Above q P) as [r ->]; [congruence|].
      rewrite lookup_alter_above, Hq. simpl.
      destruct (alter_on_entries_Dir (put_entry nm leaf) r es0) as [es' ->].
      eauto.
    + erewrite lookup_put_new; eauto.
  - pose proof (height_put nm leaf loc (root st)) as X.
    rewrite length_app; simpl. lia.
Qed.

Ltac inv_pair :=
  repeat match goal with
  | E : (_, _) = (_, _) |- _ => inversion E; subst; clear E
  end.

Section HostFacts.

Variable H : host.

Ltac same_store :=
  inv_pair;
  split; [congruence|];
  split; [apply grows_refl|];
  split; [reflexivity|];
  split; [reflexivity|].

Lemma getDirectoryHandle_inv (h : handle) (nm : string) (c : bool)
    (st st' : store) (o : outcome handle) :
  getDirectoryHandle H h nm c st = (st', o) ->
  o <> OutOfFuel
  /\ grows (h_loc h ++ [nm]) st st'
  /\ (c = false -> st' = st)
  /\ (forall e, o = Throw e -> st' = st)
  /\ (forall h', o = Ok h' ->
        h' = mkHandle DirectoryK (h_loc h ++ [nm])
        /\ nm <> ""
        /\ access_fault H (h_loc h ++ [nm]) = None
        /\ exists es, lookup (root st') (h_loc h ++ [nm]) = Some (Dir es)).
Proof.
  unfold getDirectoryHandle. intros E.
  destruct (String.eqb_spec nm "") as [->|Hnm].
  { same_store. discriminate. }
  destruct (access_fault H (h_loc h ++ [nm])) eqn:Ha.
  { same_store. discriminate. }
  destruct (lookup (root st) (h_loc h)) as [[d m|es]|] eqn:Hl;
    try (same_store; discriminate).
  destruct (find_entry nm es) as [[d m|es']|] eqn:Hf.
  - same_store. discriminate.
  - same_store. intros h' X; inversion X; subst.
    repeat (split; [solve [auto]|]).
    exists es'. rewrite lookup_app, Hl. simpl. rewrite Hf. reflexivity.
  - destruct c; [|same_store; discriminate].
    inv_pair.
    split; [congruence|].
    split; [eapply grows_put_new; eauto; intros a r; reflexivity|].
    split; [discriminate|].
    split; [discriminate|].
    intros h' X; inversion X; subst.
    repeat (split; [solve [auto]|]).
    exists []. simpl. eapply lookup_put_at; eauto.
Qed.

Lemma getFileHandle_inv (h : handle) (nm : string) (c : bool)
    (st st' : store) (o : outcome handle) :
  getFileHandle H h nm c st = (st', o) ->
  o <> OutOfFuel
  /\ grows (h_loc h ++ [nm]) st st'
  /\ (c = false -> st' = st)
  /\ (forall e, o = Throw e -> st' = st)
  /\ (forall h', o = Ok h' ->
        h' = mkHandle FileK (h_loc h ++ [nm])
        /\ nm <> ""
        /\ access_fault H (h_loc h ++ [nm]) = None
        /\ exists d m, lookup (root st') (h_loc h ++ [nm]) = Some (File d m)).
Proof.
  unfold getFileHandle. intros E.
  destruct (String.eqb_spec nm "") as [->|Hnm].
  { same_store. discriminate. }
  destruct (access_fault H (h_loc h ++ [nm])) eqn:Ha.
  { same_store. discriminate. }
  destruct (lookup (root st) (h_loc h)) as [[d m|es]|] eqn:Hl;
    try (same_store; discriminate).
  destruct (find_entry nm es) as [[d m|es']|] eqn:Hf.
  - same_store. intros h' X; inversion X; subst.
    repeat (split; [solve [auto]|]).
    exists d, m. rewrite lookup_app, Hl. simpl. rewrite Hf. reflexivity.
  - same_store. discriminate.
  - destruct c; [|same_store; discriminate].
    inv_pair.
    split; [congruence|].
    split; [eapply grows_put_new; eauto; intros a r; reflexivity|].
    split; [discriminate|].
    split; [discriminate|].
    intros h' X; inversion X; subst.
    repeat (split; [solve [auto]|]).
    exists [], (clock st). simpl. eapply lookup_put_at; eauto.
Qed.

(** On a host that grants the access, looking up an existing child
    succeeds and leaves the store alone. *)
Lemma getDirectoryHandle_some (h : handle) (nm : string) (c : bool)
    (st : store) (es : entries) :
  nm <> "" -> access_fault H (h_loc h ++ [nm]) = None ->
  lookup (root st) (h_loc h ++ [nm]) = Some (Dir es) ->
  getDirectoryHandle H h nm c st
    = (st, Ok (mkHandle DirectoryK (h_loc h ++ [nm]))).
Proof.
  intros Hnm Ha Hl. unfold getDirectoryHandle.
  destruct (String.eqb_spec nm ""); [contradiction|]. rewrite Ha.
  apply lookup_snoc_dir in Hl. destruct Hl as [es0 [-> ->]]. reflexivity.
Qed.

Lemma getFileHandle_some (h : handle) (nm : string) (c : bool)
    (st : store) (d : list byte) (m : Z) :
  nm <> "" -> access_fault H (h_loc h ++ [nm]) = None ->
  lookup (root st) (h_loc h ++ [nm]) = Some (File d m) ->
  getFileHandle H h nm c st = (st, Ok (mkHandle FileK (h_loc h ++ [nm]))).
Proof.
  intros Hnm Ha Hl. unfold getFileHandle.
  destruct (String.eqb_spec nm ""); [contradiction|]. rewrite Ha.
  apply lookup_snoc_dir in Hl. destruct Hl as [es0 [-> ->]]. reflexivity.
Qed.

(** A directory lookup fails, whatever the host, on a file or a missing
    name when nothing may be created. *)
Lemma getDirectoryHandle_not_dir (h : handle) (nm : string) (st : store) :
  (forall es, lookup (root st) (h_loc h ++ [nm]) <> Some (Dir es)) ->
  exists e, getDirectoryHandle H h nm false st = (st, Throw e).
Proof.
  intros N. destruct (getDirectoryHandle H h nm false st) as [st' o] eqn:E.
  destruct (getDirectoryHandle_inv _ _ _ _ _ _ E) as (T & _ & S & _ & K).
  rewrite (S eq_refl) in *. destruct o as [h'|e|]; [| eauto | congruence].
  destruct (K h' eq_refl) as (_ & _ & _ & es & X). destruct (N es X).
Qed.

Lemma getFileHandle_not_file (h : handle) (nm : string) (st : store) :
  (forall d m, lookup (root st) (h_loc h ++ [nm]) <> Some (File d m)) ->
  exists e, getFileHandle H h nm false st = (st, Throw e).
Proof.
  intros N. destruct (getFileHandle H h nm false st) as [st' o] eqn:E.
  destruct (getFileHandle_inv _ _ _ _ _ _ E) as (T & _ & S & _ & K).
  rewrite (S eq_refl) in *. destruct o as [h'|e|]; [| eauto | congruence].
  destruct (K h' eq_refl) as (_ & _ & _ & d & m & X). destruct (N d m X).
Qed.

End HostFacts.

(* ================================================================= *)
(** ** Path resolution *)

Section Resolution.

Variable H : host.

(** What a handle returned by the resolver says about the store. *)
Definition resolved (k : option kind) (loc : path) (st : store) (h : handle)
  : Prop :=
  h_loc h = loc
  /\ loc <> []
  /\ Forall (fun s => s <> "") loc
  /\ access_fault H loc = None
  /\ (exists v, lookup (root st) loc = Some v /\ node_kind v = h_kind h)
  /\ (forall kk, k = Some kk -> h_kind h = kk).

Lemma walk_inv (c : bool) (k : option kind) (steps : list string) :
  forall (h : handle) (st st' : store) (o : outcome (option handle)),
    walk H c k h steps st = (st', o) ->
    grows (h_loc h ++ steps) st st'
    /\ (c = false -> st' = st)
    /\ exists r, o = Ok r
       /\ forall h', r = Some h' ->
            h_loc h' = h_loc h ++ steps
            /\ steps <> []
            /\ Forall (fun s => s <> "") steps
            /\ access_fault H (h_loc h ++ steps) = None
            /\ (exists v, lookup (root st') (h_loc h ++ steps) = Some v
                          /\ node_kind v = h_kind h')
            /\ (forall kk, k = Some kk -> h_kind h' = kk).
Proof.
  induction steps as [|nm rest IH]; intros h st st' o E.
  { simpl in E. unfold ret in E. inv_pair.
    split; [apply grows_refl|]. split; [reflexivity|].
    exists None. split; [reflexivity | discriminate]. }
  simpl in E.
  destruct (String.eqb_spec nm "") as [->|Hnm].
  { unfold ret in E. inv_pair.
    split; [apply grows_refl|]. split; [reflexivity|].
    exists None. split; [reflexivity | discriminate]. }
  destruct rest as [|nm2 rest].
  - (* the final segment *)
    assert (Dcase : forall st0 st1 o1,
      getDirectoryHandle H h nm c st0 = (st1, Ok o1) ->
      grows (h_loc h ++ [nm]) st0 st1 /\ (c = false -> st1 = st0)
      /\ forall kk, (kk = DirectoryK) ->
         h_loc o1 = h_loc h ++ [nm] /\ [nm] <> []
         /\ Forall (fun s => s <> "") [nm]
         /\ access_fault H (h_loc h ++ [nm]) = None
         /\ (exists v, lookup (root st1) (h_loc h ++ [nm]) = Some v
                       /\ node_kind v = h_kind o1)
         /\ h_kind o1 = kk).
    { intros st0 st1 o1 G.
      destruct (getDirectoryHandle_inv H _ _ _ _ _ _ G) as (_ & Gr & S & _ & K).
      destruct (K o1 eq_refl) as (-> & _ & A & es & L).
      split; [exact Gr|]. split; [exact S|]. intros kk ->. simpl.
      repeat (split; [solve [auto; try discriminate] |]).
      split; [|reflexivity]. exists (Dir es). auto. }
    assert (Fcase : forall st0 st1 o1,
      getFileHandle H h nm c st0 = (st1, Ok o1) ->
      grows (h_loc h ++ [nm]) st0 st1 /\ (c = false -> st1 = st0)
      /\ forall kk, (kk = FileK) ->
         h_loc o1 = h_loc h ++ [nm] /\ [nm] <> []
         /\ Forall (fun s => s <> "") [nm]
         /\ access_fault H (h_loc h ++ [nm]) = None
         /\ (exists v, lookup (root st1) (h_loc h ++ [nm]) = Some v
                       /\ node_kind v = h_kind o1)
         /\ h_kind o1 = kk).
    { intros st0 st1 o1 G.
      destruct (getFileHandle_inv H _ _ _ _ _ _ G) as (_ & Gr & S & _ & K).
      destruct (K o1 eq_refl) as (-> & _ & A & d & m & L).
      split; [exact Gr|]. split; [exact S|]. intros kk ->. simpl.
      repeat (split; [solve [auto; try discriminate] |]).
      split; [|reflexivity]. exists (File d m). auto. }
    assert (Dfail : forall st0 st1 e,
      getDirectoryHandle H h nm c st0 = (st1, Throw e) -> st1 = st0).
    { intros st0 st1 e G.
      destruct (getDirectoryHandle_inv H _ _ _ _ _ _ G) as (_ & _ & _ & T & _).
      eauto. }
    assert (Ffail : forall st0 st1 e,
      getFileHandle H h nm c st0 = (st1, Throw e) -> st1 = st0).
    { intros st0 st1 e G.
      destruct (getFileHandle_inv H _ _ _ _ _ _ G) as (_ & _ & _ & T & _).
      eauto. }
    assert (Dfuel : forall st0 st1,
      getDirectoryHandle H h nm c st0 <> (st1, OutOfFuel)).
    { intros st0 st1 G.
      destruct (getDirectoryHandle_inv H _ _ _ _ _ _ G) as (T & _). congruence. }
    assert (Ffuel : forall st0 st1,
      getFileHandle H h nm c st0 <> (st1, OutOfFuel)).
    { intros st0 st1 G.
      destruct (getFileHandle_inv H _ _ _ _ _ _ G) as (T & _). congruence. }
    destruct k as [[|]|]; unfold bind, attempt, ret in E.
    + (* kind: "file" *)
      destruct (getFileHandle H h nm c st) as [st1 [o1|e|]] eqn:G; inv_pair.
      * destruct (Fcase _ _ _ G) as (Gr & S & K).
        split; [exact Gr|]. split; [exact S|]. eexists; split; [reflexivity|].
        intros h' X; inversion X; subst.
        destruct (K FileK eq_refl) as (? & ? & ? & ? & ? & ?).
        repeat (split; [assumption|]). intros kk Y; inversion Y; auto.
      * rewrite (Ffail _ _ _ G).
        split; [apply grows_refl|]. split; [reflexivity|].
        exists None. split; [reflexivity | discriminate].
      * destruct (Ffuel _ _ G).
    + (* kind: "directory" *)
      destruct (getDirectoryHandle H h nm c st) as [st1 [o1|e|]] eqn:G; inv_pair.
      * destruct (Dcase _ _ _ G) as (Gr & S & K).
        split; [exact Gr|]. split; [exact S|]. eexists; split; [reflexivity|].
        intros h' X; inversion X; subst.
        destruct (K DirectoryK eq_refl) as (? & ? & ? & ? & ? & ?).
        repeat (split; [assumption|]). intros kk Y; inversion Y; auto.
      * rewrite (Dfail _ _ _ G).
        split; [apply grows_refl|]. split; [reflexivity|].
        exists None. split; [reflexivity | discriminate].
      * destruct (Dfuel _ _ G).
    + (* no kind: a directory first, then a file *)
      destruct (getDirectoryHandle H h nm c st) as [st1 [o1|e|]] eqn:G.
      * inv_pair. destruct (Dcase _ _ _ G) as (Gr & S & K).
        split; [exact Gr|]. split; [exact S|]. eexists; split; [reflexivity|].
        intros h' X; inversion X; subst.
        destruct (K DirectoryK eq_refl) as (? & ? & ? & ? & ? & ?).
        repeat (split; [assumption|]). discriminate.
      * rewrite (Dfail _ _ _ G) in E.
        destruct (getFileHandle H h nm c st) as [st2 [o2|e2|]] eqn:G2; inv_pair.
        -- destruct (Fcase _ _ _ G2) as (Gr & S & K).
           split; [exact Gr|]. split; [exact S|]. eexists; split; [reflexivity|].
           intros h' X; inversion X; subst.
           destruct (K FileK eq_refl) as (? & ? & ? & ? & ? & ?).
           repeat (split; [assumption|]). discriminate.
        -- rewrite (Ffail _ _ _ G2).
           split; [apply grows_refl|]. split; [reflexivity|].
           exists None. split; [reflexivity | discriminate].
        -- destruct (Ffuel _ _ G2).
      * destruct (Dfuel _ _ G).
  - (* a segment on the way *)
    unfold bind, attempt in E.
    destruct (getDirectoryHandle H h nm c st) as [st1 [h1|e|]] eqn:G.
    + destruct (getDirectoryHandle_inv H _ _ _ _ _ _ G) as (_ & Gr & S & _ & K).
      destruct (K h1 eq_refl) as (-> & _ & A & es & L).
      apply IH in E. simpl h_loc in E.
      replace ((h_loc h ++ [nm]) ++ nm2 :: rest)
        with (h_loc h ++ nm :: nm2 :: rest) in E
        by (rewrite <- app_assoc; reflexivity).
      destruct E as (Gr2 & S2 & r & -> & K2).
      split.
      { eapply grows_trans; [|exact Gr|exact Gr2].
        rewrite prefix_app_l. simpl. rewrite String.eqb_refl. reflexivity. }
      split; [intros X; rewrite (S2 X); auto|].
      exists r. split; [reflexivity|].
      intros h' X. destruct (K2 h' X) as (? & ? & F & ? & ? & ?).
      split; [assumption|]. split; [discriminate|].
      split; [constructor; assumption|]. auto.
    + destruct (getDirectoryHandle_inv H _ _ _ _ _ _ G) as (_ & _ & _ & T & _).
      rewrite (T e eq_refl) in *. unfold ret in E. inv_pair.
      split; [apply grows_refl|]. split; [reflexivity|].
      exists None. split; [reflexivity | discriminate].
    + destruct (getDirectoryHandle_inv H _ _ _ _ _ _ G) as (T & _). congruence.
Qed.

End Resolution.

Section ResolutionFacts.

Variable H : host.

(** The location [getDetails] resolves: the path, or its parent. *)
Definition target (p : path) (o : options) : path :=
  if returnParent o then removelast p else p.

Lemma getDetails_root (o : options) (st : store) :
  getDetails H ["root"] o st = (st, Ok (Some root_handle)).
Proof. reflexivity. Qed.

Lemma getDetails_walk (p : path) (o : options) :
  p <> ["root"] ->
  getDetails H p o = walk H (create o) (okind o) root_handle (target p o).
Proof.
  intros N. unfold getDetails, target.
  destruct (path_eqb p ["root"]) eqn:E; [|reflexivity].
  apply path_eqb_eq in E. contradiction.
Qed.

Lemma getDetails_inv (p : path) (o : options) (st st' : store)
    (out : outcome (option handle)) :
  p <> ["root"] ->
  getDetails H p o st = (st', out) ->
  grows (target p o) st st'
  /\ (create o = false -> st' = st)
  /\ exists r, out = Ok r
     /\ forall h', r = Some h' -> resolved H (okind o) (target p o) st' h'.
Proof.
  intros N E. rewrite getDetails_walk in E by assumption.
  apply walk_inv in E. simpl in E. exact E.
Qed.

(** Resolution always answers: it never throws and never diverges. *)
Lemma getDetails_total (p : path) (o : options) (st : store) :
  exists st' r, getDetails H p o st = (st', Ok r)
                /\ (create o = false -> st' = st).
Proof.
  destruct (list_eq_dec string_dec p ["root"]) as [->|N].
  - exists st, (Some root_handle). split; reflexivity.
  - destruct (getDetails H p o st) as [st' out] eqn:E.
    destruct (getDetails_inv _ _ _ _ _ N E) as (_ & S & r & -> & _).
    exists st', r. split; [reflexivity | exact S].
Qed.

(** Without [create], resolution reads the store and leaves it alone. *)
Lemma getDetails_read (p : path) (o : options) (st : store) :
  create o = false ->
  exists r, getDetails H p o st = (st, Ok r).
Proof.
  intros C. destruct (getDetails_total p o st) as (st' & r & E & S).
  rewrite (S C) in E. eauto.
Qed.

Lemma walk_access (c : bool) (k : option kind) (steps : list string) :
  forall (h h' : handle) (st st' : store),
    walk H c k h steps st = (st', Ok (Some h')) ->
    forall q, prefix q (h_loc h ++ steps) = true ->
              (List.length (h_loc h) < List.length q)%nat ->
              access_fault H q = None.
Proof.
  induction steps as [|nm rest IH]; intros h h' st st' E q P L.
  { simpl in E. unfold ret in E. inv_pair. }
  assert (Q : q = h_loc h ++ [nm]
              \/ (prefix q ((h_loc h ++ [nm]) ++ rest) = true
                  /\ List.length (h_loc h ++ [nm]) < List.length q)%nat).
  { apply prefix_spec in P. destruct P as [r P].
    destruct (prefix_comparable q (h_loc h ++ [nm]) (h_loc h ++ nm :: rest))
      as [C|C].
    - apply prefix_spec; eauto.
    - rewrite prefix_app_l. simpl. rewrite String.eqb_refl. reflexivity.
    - left. apply prefix_spec in C. destruct C as [r' C].
      assert (List.length (h_loc h ++ [nm]) = List.length (q ++ r'))
        by (rewrite C; reflexivity).
      rewrite !length_app in *. simpl in *.
      destruct r'; [rewrite app_nil_r in C; auto | simpl in *; lia].
    - destruct (list_eq_dec string_dec q (h_loc h ++ [nm])) as [->|N];
        [left; reflexivity | right].
      split.
      + rewrite <- app_assoc. simpl. apply prefix_spec; eauto.
      + apply prefix_spec in C. destruct C as [r' ->].
        destruct r'; [rewrite app_nil_r in N; congruence|].
        rewrite !length_app. simpl. lia. }
  destruct rest as [|nm2 rest].
  - destruct Q as [->|[Q1 Q2]].
    + apply walk_inv in E. destruct E as (_ & _ & r & X & K).
      inversion X; subst. destruct (K h' eq_refl) as (_ & _ & _ & A & _).
      exact A.
    + rewrite app_nil_r in Q1. apply prefix_length in Q1. lia.
  - simpl in E.
    destruct (String.eqb nm ""); [unfold ret in E; inv_pair|].
    unfold bind, attempt in E.
    destruct (getDirectoryHandle H h nm c st) as [st1 [h1|e|]] eqn:G;
      try (unfold ret in E; inv_pair; fail).
    destruct (getDirectoryHandle_inv H _ _ _ _ _ _ G) as (_ & _ & _ & _ & K).
    destruct (K h1 eq_refl) as (-> & _ & A & _).
    destruct Q as [->|[Q1 Q2]]; [exact A|].
    eapply (IH _ _ _ _ E); simpl; assumption.
Qed.

End ResolutionFacts.

(* ================================================================= *)
(** ** The resolver answers every failure with [undefined] *)

(** A host that refuses every access to the top-level entry ["secret"]
    with a permission fault. *)
Definition guarded_host : host :=
  {| access_fault := fun q =>
       if path_eqb q ["secret"] then Some NotAllowedFault else None;
     file_move_fault := None;
     dir_move := None |}.



(* ================================================================= *)
(** ** Writes that land on the wrong entry *)

(** C3: [write] reports success on a path whose parent chain is blocked by
    a file, but the bytes land in a top-level file named after the last
    segment, and [bytes] of the written path answers [undefined]. *)
Theorem write_blocked_chain_lands_at_root :
  let st := st_of [("f", File (bs "x") 5)] in
  write plain_host ["f"; "y"] (bs "hi") st
    = (st_of [("f", File (bs "x") 5); ("y", File (bs "hi") 1000)], Ok tt)
  /\ snd (bytes plain_host ["f"; "y"]
            (fst (write plain_host ["f"; "y"] (bs "hi") st)))
     = Ok None.
Proof. split; reflexivity. Qed.

(** C4: two appends to an absent path whose parent chain is blocked by a
    file both report success, each one overwrites a top-level file named
    after the last segment, and [bytes] of the path answers [undefined]
    instead of the concatenation. *)
Theorem append_blocked_chain_loses_bytes :
  let st0 := st_of [("f", File (bs "x") 5)] in
  let r1 := append plain_host ["f"; "y"] (bs "ab") st0 in
  let r2 := append plain_host ["f"; "y"] (bs "cd") (fst r1) in
  snd (isFile plain_host ["f"; "y"] st0) = Ok false
  /\ snd (isDirectory plain_host ["f"; "y"] st0) = Ok false
  /\ snd r1 = Ok tt
  /\ snd r2 = Ok tt
  /\ snd (bytes plain_host ["f"; "y"] (fst r2)) = Ok None
  /\ snd (bytes plain_host ["y"] (fst r2)) = Ok (Some (bs "cd")).
Proof. repeat split; reflexivity. Qed.

(** C7: [write] to a path that exists as a directory does not raise a
    [DirectoryError]: the directory handle has no [createWritable] and the
    call dies with a [TypeError]; [append], single-file [move] and [copy]
    do raise [DirectoryError] on the wrong kind. *)
Theorem write_to_directory_is_a_TypeError :
  let st := st_of [("d", Dir []); ("f", File (bs "x") 5)] in
  write plain_host ["d"] (bs "hi") st = (st, Throw TypeError)
  /\ append plain_host ["d"] (bs "hi") st
     = (st, Throw (DirectoryError "append" [["d"]]))
  /\ move plain_host ["d"] ["e"] st
     = (st, Throw (DirectoryError "move" [["d"]; ["e"]]))
  /\ copy plain_host ["d"] ["e"] st
     = (st, Throw (DirectoryError "copy" [["d"]; ["e"]]))
  /\ copy plain_host ["f"] ["d"] st
     = (st, Throw (DirectoryError "copy" [["f"]; ["d"]])).
Proof. repeat split; reflexivity. Qed.

(* ================================================================= *)
(** ** Resolution of what the store holds *)

Section Completeness.

Variable H : host.

Lemma getDirectoryHandle_on_file (h : handle) (nm : string) (c : bool)
    (st : store) (d : list byte) (m : Z) :
  lookup (root st) (h_loc h ++ [nm]) = Some (File d m) ->
  exists e, getDirectoryHandle H h nm c st = (st, Throw e).
Proof.
  intros L. apply lookup_snoc_dir in L. destruct L as [es [L F]].
  unfold getDirectoryHandle.
  destruct (String.eqb nm ""); [eauto|].
  destruct (access_fault H (h_loc h ++ [nm])); [eauto|].
  rewrite L, F. eauto.
Qed.

Lemma getFileHandle_on_dir (h : handle) (nm : string) (c : bool)
    (st : store) (es : entries) :
  lookup (root st) (h_loc h ++ [nm]) = Some (Dir es) ->
  exists e, getFileHandle H h nm c st = (st, Throw e).
Proof.
  intros L. apply lookup_snoc_dir in L. destruct L as [es0 [L F]].
  unfold getFileHandle.
  destruct (String.eqb nm ""); [eauto|].
  destruct (access_fault H (h_loc h ++ [nm])); [eauto|].
  rewrite L, F. eauto.
Qed.

(** The host grants access to every location from below [loc] down to
    [w]. *)
Definition granted (loc w : path) : Prop :=
  forall q, prefix q w = true -> (List.length loc < List.length q)%nat ->
            access_fault H q = None.

Lemma granted_step (loc : path) (nm : string) (rest : list string) :
  granted loc (loc ++ nm :: rest) ->
  access_fault H (loc ++ [nm]) = None
  /\ granted (loc ++ [nm]) ((loc ++ [nm]) ++ rest).
Proof.
  intros G. split.
  - apply G.
    + rewrite prefix_app_l. simpl. rewrite String.eqb_refl. reflexivity.
    + rewrite length_app. simpl. lia.
  - intros q P L. apply G.
    + rewrite <- app_assoc in P. exact P.
    + rewrite length_app in L. simpl in L. lia.
Qed.

(** An existing node of the right kind is found, with or without
    [create], and the store is left alone. *)
Lemma walk_some (c : bool) (k : option kind) (steps : list string) :
  forall (h : handle) (st : store) (v : node),
    steps <> [] ->
    Forall (fun s => s <> "") steps ->
    granted (h_loc h) (h_loc h ++ steps) ->
    lookup (root st) (h_loc h ++ steps) = Some v ->
    (forall kk, k = Some kk -> node_kind v = kk) ->
    walk H c k h steps st
      = (st, Ok (Some (mkHandle (node_kind v) (h_loc h ++ steps)))).
Proof.
  induction steps as [|nm rest IH]; intros h st v N F G L K; [congruence|].
  inversion F as [|? ? Hnm Frest]; subst.
  destruct (granted_step _ _ _ G) as [A G'].
  simpl. destruct (String.eqb_spec nm ""); [contradiction|].
  destruct rest as [|nm2 rest].
  - destruct v as [d m|es].
    + destruct (getDirectoryHandle_on_file h nm c st d m L) as [e E].
      pose proof (getFileHandle_some H h nm c st d m Hnm A L) as E2.
      destruct k as [[|]|]; unfold bind, attempt, ret.
      * rewrite E2. reflexivity.
      * specialize (K _ eq_refl). discriminate.
      * rewrite E, E2. reflexivity.
    + destruct (getFileHandle_on_dir h nm c st es L) as [e E].
      pose proof (getDirectoryHandle_some H h nm c st es Hnm A L) as E2.
      destruct k as [[|]|]; unfold bind, attempt, ret.
      * specialize (K _ eq_refl). discriminate.
      * rewrite E2. reflexivity.
      * rewrite E2. reflexivity.
  - replace (h_loc h ++ nm :: nm2 :: rest)
      with ((h_loc h ++ [nm]) ++ nm2 :: rest) in *
      by (rewrite <- app_assoc; reflexivity).
    destruct (lookup_prefix_dir _ _ _ _ L) as [es Ld]; [discriminate|].
    unfold bind, attempt.
    rewrite (getDirectoryHandle_some H h nm c st es Hnm A Ld).
    apply (IH (mkHandle DirectoryK (h_loc h ++ [nm])) st v);
      simpl; auto; discriminate.
Qed.


(** What the default resolution of a path can answer. *)
Lemma getDetails_default_cases (p : path) (st : store) :
  getDetails H p default_options st = (st, Ok None)
  \/ (p = ["root"]
      /\ getDetails H p default_options st = (st, Ok (Some root_handle)))
  \/ (p <> ["root"]
      /\ exists h, getDetails H p default_options st = (st, Ok (Some h))
                   /\ resolved H None p st h
                   /\ granted [] p).
Proof.
  destruct (list_eq_dec string_dec p ["root"]) as [->|N].
  - right; left. split; reflexivity.
  - destruct (getDetails_read H p default_options st eq_refl) as [r E].
    destruct r as [h|]; [right; right | left; exact E].
    split; [exact N|]. exists h. split; [exact E|].
    destruct (getDetails_inv H _ _ _ _ _ N E) as (_ & _ & r & X & K).
    inversion X; subst r. split; [apply K; reflexivity|].
    rewrite getDetails_walk in E by assumption.
    intros q P L. eapply (walk_access H _ _ _ _ _ _ _ E); eauto.
Qed.

Lemma getDetails_some (p : path) (o : options) (st : store) (v : node) :
  p <> ["root"] -> returnParent o = false ->
  p <> [] -> Forall (fun s => s <> "") p -> granted [] p ->
  lookup (root st) p = Some v ->
  (forall kk, okind o = Some kk -> node_kind v = kk) ->
  getDetails H p o st = (st, Ok (Some (mkHandle (node_kind v) p))).
Proof.
  intros N R Ne F G L K. rewrite getDetails_walk by assumption.
  unfold target. rewrite R.
  apply (walk_some (create o) (okind o) p root_handle st v); auto.
Qed.

Lemma getDetails_none (p : path) (o : options) (st : store) :
  p <> ["root"] -> create o = false ->
  lookup (root st) (target p o) = None ->
  getDetails H p o st = (st, Ok None).
Proof.
  intros N C L. destruct (getDetails_read H p o st C) as [r E].
  destruct r as [h|]; [|exact E].
  destruct (getDetails_inv H _ _ _ _ _ N E) as (_ & _ & r & X & K).
  inversion X; subst r.
  destruct (K h eq_refl) as (_ & _ & _ & _ & (v & Lv & _) & _). congruence.
Qed.

(** The parent of a resolved path is the directory the resolver reaches
    through [returnParent], or the root by default. *)
Lemma getDetails_parent (p : path) (c : bool) (k : option kind) (st : store)
    (v : node) :
  p <> ["root"] ->
  Forall (fun s => s <> "") p -> granted [] p ->
  lookup (root st) p = Some v ->
  (forall kk, k = Some kk -> kk = DirectoryK) ->
  exists r,
    getDetails H p (mkOptions true c k) st = (st, Ok r)
    /\ h_loc (match r with Some x => x | None => root_handle end)
       = removelast p.
Proof.
  intros N F G L K. rewrite getDetails_walk by assumption.
  unfold target. simpl returnParent. cbv iota.
  destruct (path_snoc_cases p) as [->|[q [n ->]]].
  { exists None. split; reflexivity. }
  rewrite removelast_snoc. simpl create; simpl okind.
  destruct q as [|a q].
  { exists None. split; reflexivity. }
  destruct (lookup_prefix_dir _ _ _ _ L) as [es Ld]; [discriminate|].
  exists (Some (mkHandle DirectoryK (a :: q))). split; [|reflexivity].
  apply (walk_some c k (a :: q) root_handle st (Dir es)).
  - discriminate.
  - apply Forall_app in F. tauto.
  - intros x P Lx. apply G; [|assumption].
    eapply prefix_trans; [exact P | apply prefix_app].
  - exact Ld.
  - intros kk E. rewrite (K kk E). reflexivity.
Qed.

End Completeness.

(* ================================================================= *)
(** ** Which host faults reach the caller *)

Section Faults.

Variable H : host.



End Faults.



(* ================================================================= *)
(** ** [delete] *)

Section Delete.

Variable H : host.

Lemma isFile_run (p : path) (st : store) (r : option handle) :
  getDetails H p default_options st = (st, Ok r) ->
  isFile H p st
    = (st, Ok (match r with
               | Some h => kind_eqb (h_kind h) FileK
               | None => false
               end)).
Proof. intros E. unfold isFile, bind. rewrite E. reflexivity. Qed.

Lemma isDirectory_run (p : path) (st : store) (r : option handle) :
  getDetails H p default_options st = (st, Ok r) ->
  isDirectory H p st
    = (st, Ok (match r with
               | Some h => kind_eqb (h_kind h) DirectoryK
               | None => false
               end)).
Proof. intros E. unfold isDirectory, bind. rewrite E. reflexivity. Qed.

Lemma list_run (p : path) (st : store) (r : option handle) :
  getDetails H p default_options st = (st, Ok r) ->
  list_ H p st
    = match r with
      | None => (st, Ok [])
      | Some h =>
          (es <- values h ;;
           ret (map (fun e =>
                       mkListEntry (e_name e)
                         (kind_eqb (e_kind e) DirectoryK)
                         (kind_eqb (e_kind e) FileK)
                         false) es)) st
      end.
Proof. intros E. unfold list_, bind at 1. rewrite E. destruct r; reflexivity. Qed.

(** [handle.name] of a path: its last segment. *)
Definition last_name (p : path) : string :=
  match Path_name p with Some n => n | None => "" end.

Lemma set_root_same (st : store) : set_root st (root st) = st.
Proof. destruct st; reflexivity. Qed.

Lemma delete_absent (p : path) (st : store) :
  getDetails H p default_options st = (st, Ok None) ->
  delete H p st = (st, Throw (NotFoundError "delete" [p])).
Proof.
  intros E. unfold delete, bind. rewrite E.
  destruct (getDetails_read H p (mkOptions true false None) st eq_refl)
    as [r ->].
  reflexivity.
Qed.

(** [delete] of a resolved path, by what the store holds there. *)
Lemma delete_resolved (p : path) (st : store) (h : handle) :
  p <> ["root"] ->
  getDetails H p default_options st = (st, Ok (Some h)) ->
  resolved H None p st h -> granted H [] p ->
  exists v, lookup (root st) p = Some v /\ node_kind v = h_kind h
    /\ delete H p st =
       match v with
       | Dir (_ :: _) => (st, Throw (NotEmptyError "delete" [p]))
       | _ =>
           (set_root st
              (alter (on_entries (remove_entry (last_name p)))
                 (removelast p) (root st)),
            Ok tt)
       end.
Proof.
  intros N E (Hl & Ne & F & A & (v & L & K) & _) G.
  exists v. split; [exact L|]. split; [exact K|].
  destruct (getDetails_parent H p false None st v N F G L) as (r & Ep & Lp);
    [discriminate|].
  unfold delete, bind. rewrite E, Ep.
  set (parentHandle := match r with Some x => x | None => root_handle end) in *.
  destruct (path_snoc_cases p) as [->|[q [n Pq]]]; [congruence|].
  assert (Hname : h_name h = n).
  { unfold h_name. rewrite Hl, Pq, Path_name_app. reflexivity. }
  assert (Hlast : last_name p = n).
  { unfold last_name. rewrite Pq, Path_name_app. reflexivity. }
  assert (Hq : removelast p = q) by (rewrite Pq; apply removelast_snoc).
  rewrite Hlast, Hq. rewrite Hq in Lp.
  assert (Hn : n <> "").
  { rewrite Pq in F. apply Forall_app in F. destruct F as [_ F].
    inversion F; assumption. }
  pose proof L as L0. rewrite Pq in L0.
  apply lookup_snoc_dir in L0. destruct L0 as (es & Lq & Fn).
  assert (R : forall st0, root st0 = root st ->
            removeEntry H parentHandle (h_name h) st0 =
            match v with
            | Dir (_ :: _) => (st0, Throw (HostFault InvalidModificationFault))
            | _ => (set_root st0
                      (alter (on_entries (remove_entry n)) q (root st0)),
                    Ok tt)
            end).
  { intros st0 R0. unfold removeEntry. rewrite Hname, Lp, R0.
    destruct (String.eqb_spec n ""); [contradiction|].
    rewrite <- Pq, A, Lq, Fn. destruct v as [d m|[|x xs]]; reflexivity. }
  destruct v as [d m|es'].
  - simpl in K. rewrite <- K. unfold ret, attempt.
    rewrite (R st eq_refl). reflexivity.
  - simpl in K. rewrite <- K. unfold values. rewrite <- K, Hl, L.
    destruct es' as [|x xs]; simpl; [|reflexivity].
    unfold ret, attempt. rewrite (R st eq_refl). reflexivity.
Qed.

End Delete.

Lemma path_split_last (p : path) :
  p <> [] -> removelast p ++ [last_name p] = p.
Proof.
  intros N. destruct (path_snoc_cases p) as [->|[q [n ->]]]; [congruence|].
  unfold last_name. rewrite removelast_snoc, Path_name_app. reflexivity.
Qed.

Lemma delete_root_literal (H : host) (st : store) :
  delete H ["root"] st =
  match root st with
  | Dir [] => (st, Ok tt)
  | Dir (_ :: _) => (st, Throw (NotEmptyError "delete" [["root"]]))
  | File _ _ => (st, Throw (HostFault NotFoundFault))
  end.
Proof.
  unfold delete, bind. rewrite !getDetails_root. simpl h_kind. cbv iota.
  unfold values. simpl.
  destruct (root st) as [d m|[|x xs]]; reflexivity.
Qed.

(** C5, as stated, fails for the path ["root"]: on an empty root
    [delete("root")] finds a directory without entries and returns
    successfully, but the removal it starts is [root.removeEntry("")],
    which removes nothing, and ["root"] is a directory as before.  It
    also fails on a host that refuses access: the entry [secret] is in the
    store, yet [delete] raises [NotFoundError]. *)
Lemma delete_of_root_removes_nothing :
  let st := st_of [] in
  let gt := st_of [("secret", File (bs "x") 1)] in
  snd (isDirectory plain_host ["root"] st) = Ok true
  /\ snd (list_ plain_host ["root"] st) = Ok []
  /\ delete plain_host ["root"] st = (st, Ok tt)
  /\ snd (isDirectory plain_host ["root"]
            (fst (delete plain_host ["root"] st))) = Ok true
  /\ lookup (root gt) ["secret"] = Some (File (bs "x") 1)
  /\ snd (delete guarded_host ["secret"] gt)
     = Throw (NotFoundError "delete" [["secret"]]).
Proof. repeat split; reflexivity. Qed.

(** C5 (amended): [delete(p)] raises [NotFoundError] exactly when [p] does
    not resolve (neither [isFile] nor [isDirectory] is true, which is also
    so for an entry the host refuses access to); on a directory with at
    least one entry it raises [NotEmptyError] and leaves the store
    unchanged; otherwise (a file, or a directory without entries), for [p]
    other than ["root"], it succeeds and removes the entry named by the
    last segment from the directory at the parent path (the root for a
    top-level target): afterwards [p] no longer resolves and every
    location off [p]'s branch is as before, so a directory that has been
    emptied deletes successfully. *)
Theorem delete_contract :
  forall (H : host) (p : path) (st : store),
    (snd (delete H p st) = Throw (NotFoundError "delete" [p]) <->
       snd (isFile H p st) = Ok false /\ snd (isDirectory H p st) = Ok false)
    /\ (snd (isDirectory H p st) = Ok true ->
        (exists e es, snd (list_ H p st) = Ok (e :: es)) ->
        delete H p st = (st, Throw (NotEmptyError "delete" [p])))
    /\ (p <> ["root"] ->
        snd (isFile H p st) = Ok true \/
        (snd (isDirectory H p st) = Ok true /\ snd (list_ H p st) = Ok []) ->
        let st' :=
          set_root st
            (alter (on_entries (remove_entry (last_name p)))
               (removelast p) (root st)) in
        delete H p st = (st', Ok tt)
        /\ lookup (root st') p = None
        /\ (forall q, disjoint q p = true ->
              lookup (root st') q = lookup (root st) q)
        /\ snd (isFile H p st') = Ok false
        /\ snd (isDirectory H p st') = Ok false).
Proof.
  intros H p st.
  destruct (getDetails_default_cases H p st)
    as [E|[[-> E]|(N & h & E & R & G)]].
  - (* absent *)
    rewrite (isFile_run H p st None E), (isDirectory_run H p st None E).
    rewrite (delete_absent H p st E). simpl.
    split; [tauto|]. split; [discriminate|].
    intros _ [X|[X _]]; discriminate.
  - (* the root literal *)
    rewrite (isFile_run H _ st _ E), (isDirectory_run H _ st _ E).
    rewrite (list_run H _ st _ E), delete_root_literal.
    unfold bind, values, ret. simpl.
    destruct (root st) as [d m|[|x xs]] eqn:Rt; simpl.
    + split; [split; [discriminate | intros [_ X]; discriminate]|].
      split; [intros _ (e & es & X); discriminate|].
      intros X; congruence.
    + split; [split; [discriminate | intros [_ X]; discriminate]|].
      split; [intros _ (e & es & X); discriminate|].
      intros X; congruence.
    + split; [split; [discriminate | intros [_ X]; discriminate]|].
      split; [reflexivity|].
      intros X; congruence.
  - (* a resolved entry *)
    destruct (delete_resolved H p st h N E R G) as (v & L & K & D).
    rewrite (isFile_run H p st _ E), (isDirectory_run H p st _ E).
    rewrite (list_run H p st _ E).
    destruct R as (Hl & Ne & F & A & _ & _).
    pose proof (path_split_last p Ne) as Sp.
    assert (Post : forall st',
      st' = set_root st
              (alter (on_entries (remove_entry (last_name p)))
                 (removelast p) (root st)) ->
      lookup (root st') p = None
      /\ (forall q, disjoint q p = true ->
            lookup (root st') q = lookup (root st) q)
      /\ snd (isFile H p st') = Ok false
      /\ snd (isDirectory H p st') = Ok false).
    { intros st' ->. simpl root.
      assert (Gone : lookup
                (alter (on_entries (remove_entry (last_name p)))
                   (removelast p) (root st)) p = None).
      { rewrite <- Sp at 3. apply lookup_remove_below. }
      split; [exact Gone|]. split.
      - intros q Dq. apply lookup_remove_off. rewrite Sp. exact Dq.
      - pose proof (getDetails_none H p default_options
                      (set_root st
                         (alter (on_entries (remove_entry (last_name p)))
                            (removelast p) (root st))) N eq_refl Gone) as E'.
        rewrite (isFile_run H p _ _ E'), (isDirectory_run H p _ _ E').
        split; reflexivity. }
    unfold bind, values, ret. rewrite Hl, L, <- K.
    destruct v as [d m|[|x xs]]; simpl; rewrite D.
    + split; [split; [discriminate | intros [X _]; discriminate]|].
      split; [discriminate|].
      intros _ _. split; [reflexivity|].
      exact (Post (set_root st
                     (alter (on_entries (remove_entry (last_name p)))
                        (removelast p) (root st))) eq_refl).
    + split; [split; [discriminate | intros [_ X]; discriminate]|].
      split; [intros _ (e & es & X); discriminate|].
      intros _ _. split; [reflexivity|].
      exact (Post (set_root st
                     (alter (on_entries (remove_entry (last_name p)))
                        (removelast p) (root st))) eq_refl).
    + split; [split; [discriminate | intros [_ X]; discriminate]|].
      split; [reflexivity|].
      intros _ [X|[_ X]]; discriminate.
Qed.

(** The contract at work: a directory holding one file refuses to go,
    and goes once the file has been deleted. *)
Lemma delete_contract_witness :
  let st := st_of [("d", Dir [("f", File (bs "x") 5)]); ("g", File [] 1)] in
  delete plain_host ["d"] st = (st, Throw (NotEmptyError "delete" [["d"]]))
  /\ delete plain_host ["d"; "f"] st
     = (st_of [("d", Dir []); ("g", File [] 1)], Ok tt)
  /\ delete plain_host ["d"] (st_of [("d", Dir []); ("g", File [] 1)])
     = (st_of [("g", File [] 1)], Ok tt).
Proof.
  cbv zeta. split; [|split].
  - apply (delete_contract plain_host ["d"]); [reflexivity|].
    eexists _, _. reflexivity.
  - apply (delete_contract plain_host ["d"; "f"]); [discriminate|].
    left. reflexivity.
  - apply (delete_contract plain_host ["d"]); [discriminate|].
    right. split; reflexivity.
Defined.

(* ================================================================= *)
(** ** [copy] *)

(** [changes_at d st st']: going from [st] to [st'] only touched the way
    to [d] and the file at [d]. *)
Definition changes_at (d : path) (st st' : store) : Prop :=
  clock st' = clock st
  /\ (forall q, prefix q d = false -> lookup (root st') q = lookup (root st) q)
  /\ (forall q x y, q <> d -> lookup (root st) q = Some (File x y) ->
                    lookup (root st') q = Some (File x y))
  /\ (forall q es, lookup (root st) q = Some (Dir es) ->
                   exists es', lookup (root st') q = Some (Dir es'))
  /\ (height (root st') <= Nat.max (height (root st)) (List.length d + 1))%nat.

Lemma grows_changes_at (d : path) (st st' : store) :
  grows d st st' -> changes_at d st st'.
Proof.
  intros (C & F & K & D & Hh). unfold changes_at.
  repeat (split; [solve [auto]|]). exact Hh.
Qed.

Lemma changes_at_trans (d : path) (st0 st1 st2 : store) :
  changes_at d st0 st1 -> changes_at d st1 st2 -> changes_at d st0 st2.
Proof.
  intros (C1 & F1 & K1 & D1 & H1) (C2 & F2 & K2 & D2 & H2).
  unfold changes_at.
  split; [congruence|]. split; [|split; [|split]].
  - intros q Hq. rewrite F2, F1 by assumption. reflexivity.
  - intros q x y N E. eapply K2; eauto.
  - intros q es E. destruct (D1 _ _ E) as [es1 E1]. eapply D2; eauto.
  - lia.
Qed.

(** Closing a sink on an existing file. *)
Lemma writable_close_inv (w : writable) (st st' : store) :
  writable_close w st = (st', Ok tt) ->
  changes_at (w_target w) st st'
  /\ lookup (root st') (w_target w) = Some (File (w_buffer w) (clock st)).
Proof.
  unfold writable_close.
  destruct (lookup (root st) (w_target w)) as [[d m|es]|] eqn:L;
    intros E; inv_pair.
  split.
  - unfold changes_at; simpl.
    split; [reflexivity|]. split; [|split; [|split]].
    + intros q Hq. eapply lookup_set_file; eauto.
    + intros q x y N Lq. erewrite lookup_set_file; eauto.
      destruct (prefix q (w_target w)) eqn:P; [|reflexivity].
      destruct N. eapply file_not_above; eauto.
    + intros q es Lq.
      destruct (prefix q (w_target w)) eqn:P.
      * apply prefix_spec in P. destruct P as [r P]. rewrite P.
        rewrite lookup_alter_above, Lq. simpl.
        destruct r as [|a r]; [|simpl; eauto].
        rewrite app_nil_r in P. congruence.
      * erewrite lookup_set_file; eauto.
    + pose proof (height_set_file (w_buffer w) (clock st) (w_target w) (root st)).
      lia.
  - simpl. rewrite lookup_alter_same, L. reflexivity.
Qed.

Section Copy.

Variable H : host.

(** What a successful [copy] has done. *)
Lemma copy_inv (s d : path) (st st' : store) :
  copy H s d st = (st', Ok tt) ->
  exists c m,
    lookup (root st) s = Some (File c m)
    /\ lookup (root st') d = Some (File c (clock st))
    /\ changes_at d st st'
    /\ s <> ["root"] /\ d <> ["root"]
    /\ s <> [] /\ d <> []
    /\ Forall (fun x => x <> "") s /\ Forall (fun x => x <> "") d
    /\ granted H [] s /\ granted H [] d.
Proof.
  unfold copy. unfold bind at 1.
  destruct (getDetails_default_cases H s st)
    as [E|[[-> E]|(N & h & E & R & G)]]; rewrite E; try discriminate.
  destruct R as (Hl & Ne & F & A & (v & L & K) & _).
  destruct (h_kind h) eqn:Kh; [|discriminate].
  destruct v as [c m|es]; [|discriminate].
  unfold bind at 1.
  destruct (getDetails_default_cases H d st)
    as [E2|[[-> E2]|(N2 & h2 & E2 & R2 & G2)]];
    rewrite (isDirectory_run H _ st _ E2); simpl; try discriminate.
  - (* the destination is absent *)
    unfold bind at 1.
    destruct (getDetails H d (mkOptions false true (Some FileK)) st)
      as [st1 out] eqn:E3.
    assert (Nd : d <> ["root"]).
    { intros ->. rewrite getDetails_root in E2. discriminate. }
    pose proof E3 as E3w. rewrite getDetails_walk in E3w by assumption.
    destruct (getDetails_inv H _ _ _ _ _ Nd E3) as (Gr & _ & r & -> & Kr).
    simpl target in *.
    destruct Gr as (Ck & Fr & Fk & Dk & Hh).
    pose proof (Fk _ _ _ L) as L1.
    unfold bind at 1. unfold getFile. rewrite Kh, Hl, L1. simpl f_bytes.
    destruct r as [th|]; [|discriminate].
    unfold resolved, target in Kr; simpl in Kr.
    destruct (Kr th eq_refl) as (Tl & Ned & Fd & Ad & (v' & Lv & Kv) & Kk).
    specialize (Kk _ eq_refl).
    unfold bind at 1. unfold createWritable. rewrite Kk, Tl, Lv.
    destruct v' as [c' m'|es']; [|rewrite Kk in Kv; discriminate].
    unfold bind at 1. unfold writable_write, ret.
    intros W. apply writable_close_inv in W. simpl in W.
    destruct W as (Ch & Lw). exists c, m.
    split; [exact L|]. split; [rewrite Lw, Ck; reflexivity|].
    split.
    { eapply changes_at_trans; [|exact Ch].
      apply grows_changes_at. unfold grows. auto. }
    repeat (split; [assumption|]).
    intros q P Lq. eapply (walk_access H _ _ _ _ _ _ _ E3w); eauto.
  - (* the destination is there already *)
    destruct R2 as (Hl2 & Ne2 & F2 & A2 & (v2 & L2 & K2) & _).
    destruct (h_kind h2) eqn:Kh2; simpl; [|discriminate].
    destruct v2 as [c2 m2|es2]; [|discriminate].
    unfold bind at 1.
    rewrite (getDetails_some H d (mkOptions false true (Some FileK)) st
               (File c2 m2) N2 eq_refl Ne2 F2 G2 L2)
      by (intros kk X; inversion X; reflexivity).
    unfold bind at 1. unfold getFile. rewrite Kh, Hl, L. simpl f_bytes.
    unfold bind at 1. unfold createWritable. simpl. rewrite L2.
    unfold bind at 1. unfold writable_write, ret.
    intros W. apply writable_close_inv in W. simpl in W.
    destruct W as (Ch & Lw). exists c, m.
    split; [reflexivity|]. split; [exact Lw|].
    split; [exact Ch|].
    repeat (split; [assumption|]). exact G2.
Qed.

End Copy.

(* ================================================================= *)
(** ** Reading what the store holds *)

Section Reads.

Variable H : host.

Lemma bytes_file (p : path) (st : store) (c : list byte) (m : Z) :
  p <> ["root"] -> p <> [] -> Forall (fun x => x <> "") p ->
  granted H [] p ->
  lookup (root st) p = Some (File c m) ->
  bytes H p st = (st, Ok (Some c)).
Proof.
  intros N Ne F G L. unfold bytes, readFile, bind.
  rewrite (getDetails_some H p default_options st (File c m) N eq_refl Ne F G L)
    by discriminate.
  simpl. unfold getFile. simpl. rewrite L. reflexivity.
Qed.

(** [bytes] answers with content only for a file the store holds. *)
Lemma bytes_inv (p : path) (st : store) (c : list byte) :
  snd (bytes H p st) = Ok (Some c) ->
  p <> ["root"] /\ p <> [] /\ Forall (fun x => x <> "") p
  /\ granted H [] p
  /\ exists m, lookup (root st) p = Some (File c m).
Proof.
  unfold bytes, readFile. unfold bind at 1.
  destruct (getDetails_default_cases H p st)
    as [E|[[-> E]|(N & h & E & R & G)]]; rewrite E; simpl; try discriminate.
  destruct R as (Hl & Ne & F & A & (v & L & K) & _).
  destruct (h_kind h) eqn:Kh; simpl; [|discriminate].
  unfold bind, getFile. rewrite Kh, Hl, L.
  destruct v as [c' m'|es]; simpl; [|discriminate].
  intros X; inversion X; subst. eauto 10.
Qed.

Lemma isDirectory_dir (p : path) (st : store) (es : entries) :
  p <> ["root"] -> p <> [] -> Forall (fun x => x <> "") p ->
  granted H [] p ->
  lookup (root st) p = Some (Dir es) ->
  isDirectory H p st = (st, Ok true).
Proof.
  intros N Ne F G L.
  rewrite (isDirectory_run H p st _
             (getDetails_some H p default_options st (Dir es) N eq_refl Ne F G L
                ltac:(discriminate))).
  reflexivity.
Qed.

Lemma isDirectory_inv (p : path) (st : store) :
  snd (isDirectory H p st) = Ok true ->
  p = ["root"]
  \/ (p <> ["root"] /\ p <> [] /\ Forall (fun x => x <> "") p
      /\ granted H [] p
      /\ exists es, lookup (root st) p = Some (Dir es)).
Proof.
  destruct (getDetails_default_cases H p st)
    as [E|[[-> E]|(N & h & E & R & G)]];
    rewrite (isDirectory_run H _ st _ E); simpl; try discriminate; auto.
  destruct R as (Hl & Ne & F & A & (v & L & K) & _).
  destruct (h_kind h) eqn:Kh; simpl; [discriminate|]. intros _. right.
  destruct v as [c' m'|es]; simpl in K; [discriminate|]. eauto 10.
Qed.

Lemma absent_reads (p : path) (st : store) :
  p <> ["root"] -> lookup (root st) p = None ->
  isFile H p st = (st, Ok false) /\ isDirectory H p st = (st, Ok false).
Proof.
  intros N L.
  pose proof (getDetails_none H p default_options st N eq_refl L) as E.
  rewrite (isFile_run H p st _ E), (isDirectory_run H p st _ E).
  split; reflexivity.
Qed.

End Reads.

(* ================================================================= *)
(** ** [write] and [append] on a path that is not blocked *)

Section Writes.

Variable H : host.

(** No file stands on the way to [w]. *)
Definition unblocked (w : path) (st : store) : Prop :=
  forall q c m, prefix q w = true -> lookup (root st) q <> Some (File c m).

Lemma getDirectoryHandle_create (h : handle) (nm : string) (st : store)
    (es : entries) :
  nm <> "" -> access_fault H (h_loc h ++ [nm]) = None ->
  lookup (root st) (h_loc h) = Some (Dir es) ->
  (forall c m, lookup (root st) (h_loc h ++ [nm]) <> Some (File c m)) ->
  exists st', getDirectoryHandle H h nm true st
              = (st', Ok (mkHandle DirectoryK (h_loc h ++ [nm]))).
Proof.
  intros Nn A L Nf. unfold getDirectoryHandle.
  apply String.eqb_neq in Nn. rewrite Nn, A, L.
  destruct (find_entry nm es) as [[c m|es']|] eqn:F; eauto.
  exfalso. apply (Nf c m). rewrite lookup_app, L. simpl. rewrite F.
  reflexivity.
Qed.

Lemma walk_create (steps : list string) :
  forall (h : handle) (st : store) (es0 : entries),
    steps <> [] ->
    Forall (fun s => s <> "") steps ->
    granted H (h_loc h) (h_loc h ++ steps) ->
    lookup (root st) (h_loc h) = Some (Dir es0) ->
    unblocked (h_loc h ++ steps) st ->
    exists st',
      walk H true (Some DirectoryK) h steps st
      = (st', Ok (Some (mkHandle DirectoryK (h_loc h ++ steps)))).
Proof.
  induction steps as [|nm rest IH]; intros h st es0 Ne F G L U;
    [congruence|].
  inversion F as [|? ? Nn Fr]; subst.
  destruct (granted_step H _ _ _ G) as [A G'].
  assert (Nf : forall c m, lookup (root st) (h_loc h ++ [nm]) <> Some (File c m)).
  { intros c m. apply U.
    change (nm :: rest) with ([nm] ++ rest). rewrite app_assoc.
    apply prefix_app. }
  destruct (getDirectoryHandle_create h nm st es0 Nn A L Nf) as [st1 E1].
  destruct (getDirectoryHandle_inv H _ _ _ _ _ _ E1)
    as (_ & Gr & _ & _ & K).
  destruct (K _ eq_refl) as (_ & _ & _ & es1 & L1).
  simpl. rewrite (proj2 (String.eqb_neq _ _) Nn).
  destruct rest as [|n2 rest].
  - unfold bind, attempt. rewrite E1. simpl. exists st1. reflexivity.
  - unfold bind at 1. unfold attempt. rewrite E1.
    destruct (IH (mkHandle DirectoryK (h_loc h ++ [nm])) st1 es1)
      as [st2 E2]; simpl.
    + discriminate.
    + exact Fr.
    + exact G'.
    + exact L1.
    + intros q c m Pq Lq.
      destruct (prefix q (h_loc h ++ [nm])) eqn:Pn.
      * apply prefix_spec in Pn. destruct Pn as [r Er].
        destruct r as [|r1 r].
        -- rewrite app_nil_r in Er. rewrite <- Er in Lq. congruence.
        -- rewrite Er in L1.
           destruct (lookup_prefix_dir _ _ _ _ L1 ltac:(discriminate))
             as [es' L']. congruence.
      * destruct Gr as (_ & Fk & _). rewrite (Fk q Pn) in Lq.
        apply (U q c m); [|exact Lq].
        change (nm :: n2 :: rest) with ([nm] ++ n2 :: rest).
        rewrite app_assoc. exact Pq.
    + exists st2. simpl in E2.
      change (nm :: n2 :: rest) with ([nm] ++ n2 :: rest).
      rewrite app_assoc. exact E2.
Qed.


Lemma getFileHandle_create (h : handle) (nm : string) (st : store)
    (es : entries) :
  nm <> "" -> access_fault H (h_loc h ++ [nm]) = None ->
  lookup (root st) (h_loc h) = Some (Dir es) ->
  (forall es', lookup (root st) (h_loc h ++ [nm]) <> Some (Dir es')) ->
  exists st', getFileHandle H h nm true st
              = (st', Ok (mkHandle FileK (h_loc h ++ [nm]))).
Proof.
  intros Nn A L Nf. unfold getFileHandle.
  apply String.eqb_neq in Nn. rewrite Nn, A, L.
  destruct (find_entry nm es) as [[c m|es']|] eqn:F; eauto.
  exfalso. apply (Nf es'). rewrite lookup_app, L. simpl. rewrite F.
  reflexivity.
Qed.

(** The parent chain of [write]: resolved, created where missing. *)
Lemma write_parent (pp : path) (nm : string) (st : store) (es0 : entries) :
  pp ++ [nm] <> ["root"] ->
  Forall (fun x => x <> "") pp ->
  granted H [] pp ->
  root st = Dir es0 ->
  unblocked pp st ->
  exists st1 ph es1,
    getDetails H (pp ++ [nm]) (mkOptions true true (Some DirectoryK)) st
    = (st1, Ok ph)
    /\ h_loc (match ph with Some x => x | None => root_handle end) = pp
    /\ grows pp st st1
    /\ lookup (root st1) pp = Some (Dir es1).
Proof.
  intros Np F G R U. rewrite getDetails_walk by exact Np.
  unfold target. simpl. rewrite removelast_snoc.
  destruct pp as [|a pp].
  - exists st, None, es0.
    split; [reflexivity|]. split; [reflexivity|].
    split; [apply grows_refl|]. simpl. rewrite R. reflexivity.
  - destruct (walk_create (a :: pp) root_handle st es0) as [st1 E1];
      try assumption; try discriminate.
    { simpl. rewrite R. reflexivity. }
    destruct (walk_inv H _ _ _ _ _ _ _ E1) as (Gr & _ & r & Er & K).
    inversion Er; subst r.
    destruct (K _ eq_refl) as (_ & _ & _ & _ & (v & Lv & Kv) & _).
    change (h_loc root_handle ++ a :: pp) with (a :: pp) in *.
    destruct v as [c m|es1]; [discriminate|].
    exists st1, (Some (mkHandle DirectoryK (a :: pp))), es1.
    split; [exact E1|]. split; [reflexivity|].
    split; [exact Gr | exact Lv].
Qed.


Lemma write_to_handle (p : path) (b : list byte) (st : store)
    (c : list byte) (m : Z) :
  lookup (root st) p = Some (File c m) ->
  exists st',
    (w <- createWritable (mkHandle FileK p) ;;
     w' <- writable_write w b ;;
     writable_close w') st = (st', Ok tt)
    /\ changes_at p st st'
    /\ lookup (root st') p = Some (File b (clock st)).
Proof.
  intros L.
  destruct (writable_close (mkWritable p ([] ++ b)) st) as [st' o] eqn:Ec.
  pose proof Ec as Ec'. unfold writable_close in Ec'. simpl in Ec'.
  rewrite L in Ec'. injection Ec' as _ Eo. subst o.
  exists st'. unfold bind, createWritable, writable_write, ret. simpl.
  rewrite L. split; [exact Ec|].
  exact (writable_close_inv _ _ _ Ec).
Qed.

(** On a path whose parent chain is not blocked by a file and which is
    not a directory, [write] succeeds and [bytes] then returns what was
    written; nothing off the way to the path has changed. *)
Lemma write_then_bytes (p : path) (b : list byte) (st : store)
    (es0 : entries) :
  p <> ["root"] -> p <> [] -> Forall (fun x => x <> "") p ->
  granted H [] p ->
  root st = Dir es0 ->
  unblocked (removelast p) st ->
  (forall es, lookup (root st) p <> Some (Dir es)) ->
  exists st',
    write H p b st = (st', Ok tt)
    /\ bytes H p st' = (st', Ok (Some b))
    /\ (forall q, prefix q p = false ->
                  lookup (root st') q = lookup (root st) q).
Proof.
  intros Np Ne F G R U Nd.
  destruct (lookup (root st) p) as [[c m|es]|] eqn:L.
  - pose proof (getDetails_some H p default_options st (File c m)
                  Np eq_refl Ne F G L ltac:(discriminate)) as E0.
    destruct (write_to_handle p b st c m L) as (st' & Ew & Ch & L').
    exists st'. unfold write. unfold bind at 1. rewrite E0.
    unfold bind at 1. unfold ret at 1.
    split; [exact Ew|]. split.
    + apply (bytes_file H p st' b (clock st)); assumption.
    + destruct Ch as (_ & Fr & _). exact Fr.
  - exfalso. exact (Nd es eq_refl).
  - pose proof (getDetails_none H p default_options st Np eq_refl L) as E0.
    destruct (path_snoc_cases p) as [->|[pp [nm ->]]]; [congruence|].
    rewrite removelast_snoc in U.
    apply Forall_app in F. destruct F as [Fp Fn].
    inversion Fn as [|? ? Nn _]; subst.
    assert (Gp : granted H [] pp).
    { intros q Pq Lq. apply G; [|exact Lq].
      exact (prefix_trans _ _ _ Pq (prefix_app pp [nm])). }
    assert (A : access_fault H (pp ++ [nm]) = None).
    { apply G; [apply prefix_refl|]. rewrite length_app. simpl. lia. }
    destruct (write_parent pp nm st es0 Np Fp Gp R U)
      as (st1 & ph & es1 & Ep & Hp & Gr & L1).
    assert (Pn : prefix (pp ++ [nm]) pp = false).
    { destruct (prefix (pp ++ [nm]) pp) eqn:X; [|reflexivity].
      apply prefix_length in X. rewrite length_app in X. simpl in X. lia. }
    assert (Ln : lookup (root st1) (pp ++ [nm]) = None).
    { destruct Gr as (_ & Fk & _). rewrite (Fk _ Pn). exact L. }
    set (parent := match ph with Some x => x | None => root_handle end)
      in *.
    destruct (getFileHandle_create parent nm st1 es1 Nn) as [st2 E2].
    { rewrite Hp. exact A. }
    { rewrite Hp. exact L1. }
    { rewrite Hp, Ln. discriminate. }
    destruct (getFileHandle_inv H _ _ _ _ _ _ E2) as (_ & Gr2 & _ & _ & K).
    destruct (K _ eq_refl) as (_ & _ & _ & c & m & L2).
    rewrite Hp in E2, Gr2, L2.
    destruct (write_to_handle (pp ++ [nm]) b st2 c m L2)
      as (st' & Ew & Ch & L').
    exists st'. split; [|split].
    + unfold write. unfold bind at 1. rewrite E0.
      unfold bind at 1. unfold bind at 1. rewrite Ep.
      rewrite Path_name_app. simpl js_string. fold parent. rewrite E2.
      exact Ew.
    + apply (bytes_file H (pp ++ [nm]) st' b (clock st2)); try assumption.
      apply Forall_app. auto.
    + intros q Pq. destruct Ch as (_ & Fr & _).
      destruct Gr2 as (_ & Fr2 & _). destruct Gr as (_ & Fr1 & _).
      rewrite (Fr q Pq), (Fr2 q Pq). apply Fr1.
      destruct (prefix q pp) eqn:X; [|reflexivity].
      rewrite (prefix_trans _ _ _ X (prefix_app pp [nm])) in Pq.
      discriminate.
Qed.



End Writes.

(** A write three levels down on an empty store creates the chain. *)
Example write_then_bytes_deep :
  exists st',
    write plain_host ["a"; "b"; "f"] (bs "hi") (st_of []) = (st', Ok tt)
    /\ bytes plain_host ["a"; "b"; "f"] st' = (st', Ok (Some (bs "hi")))
    /\ (forall q, prefix q ["a"; "b"; "f"] = false ->
                  lookup (root st') q = lookup (root (st_of [])) q).
Proof.
  apply (write_then_bytes plain_host ["a"; "b"; "f"] (bs "hi") (st_of []) []).
  - discriminate.
  - discriminate.
  - repeat constructor; discriminate.
  - intros q _ _. reflexivity.
  - reflexivity.
  - intros q c m _. destruct q; simpl; discriminate.
  - intros es. simpl. discriminate.
Qed.

(* ================================================================= *)
(** ** [move] *)

(** A host whose native file move is refused with the permission fault
    that triggers the fallback. *)
Definition refusing_host : host :=
  {| access_fault := fun _ => None;
     file_move_fault := Some NotAllowedFault;
     dir_move := None |}.

(** C8, as stated, fails when source and destination are the same path:
    the native move is refused with [NotAllowedError], the fallback copies
    the file onto itself and deletes it, and afterwards the destination
    does not hold the content: the file is gone. *)
Lemma move_fallback_onto_itself_loses_file :
  let st := st_of [("d", Dir [("f", File (bs "x") 5)])] in
  snd (native_move refusing_host (file_move_fault refusing_host)
         (mkHandle FileK ["d"; "f"]) (Some (mkHandle DirectoryK ["d"]))
         (Some "f") st)
    = Throw (HostFault NotAllowedFault)
  /\ move refusing_host ["d"; "f"] ["d"; "f"] st
     = (st_of [("d", Dir [])], Ok tt)
  /\ snd (bytes refusing_host ["d"; "f"]
            (fst (move refusing_host ["d"; "f"] ["d"; "f"] st)))
     = Ok None.
Proof. repeat split; reflexivity. Qed.

Section Move.

Variable H : host.

Lemma fallback_end_state (s d : path) (st st' : store) :
  s <> d ->
  (copy H s d ;;; delete H s) st = (st', Ok tt) ->
  exists c,
    snd (bytes H s st) = Ok (Some c)
    /\ snd (bytes H d st') = Ok (Some c)
    /\ snd (isFile H s st') = Ok false
    /\ snd (isDirectory H s st') = Ok false.
Proof.
  intros Nsd D. unfold bind in D.
  destruct (copy H s d st) as [st1 [[]|e|]] eqn:C; try discriminate.
  destruct (copy_inv H s d st st1 C)
    as (c & m & Ls & Ld & Ch & Ns & Nd & Nes & Ned & Fs & Fd & Gs & Gd).
  destruct Ch as (Ck & Fr & Fk & Dk & _).
  pose proof (Fk s c m Nsd Ls) as Ls1.
  pose proof (getDetails_some H s default_options st1 (File c m)
                Ns eq_refl Nes Fs Gs Ls1 ltac:(discriminate)) as E.
  assert (R : resolved H None s st1 (mkHandle (node_kind (File c m)) s)).
  { unfold resolved. simpl.
    repeat (split; [solve [auto]|]).
    split; [apply Gs; [apply prefix_refl|];
            destruct s; [congruence | simpl; lia]|].
    split; [eauto | discriminate]. }
  destruct (delete_resolved H s st1 _ Ns E R Gs) as (v & Lv & _ & Dl).
  rewrite Ls1 in Lv. inversion Lv; subst v. rewrite Dl in D.
  inversion D; subst st'; clear D. simpl root.
  exists c. split; [rewrite (bytes_file H s st c m); auto|].
  pose proof (path_split_last s Nes) as Sp.
  assert (Pds : prefix d s = false).
  { destruct (prefix d s) eqn:P; [|reflexivity].
    destruct Nsd. symmetry. eapply file_not_above; eauto. }
  assert (Psd : prefix s d = false).
  { destruct (prefix s d) eqn:P; [|reflexivity].
    destruct Nsd. eapply file_not_above; eauto. }
  split.
  - rewrite (bytes_file H d _ c (clock st)); auto. simpl root.
    rewrite lookup_remove_off; [exact Ld|].
    rewrite Sp. apply disjoint_spec. auto.
  - assert (Gone : lookup
              (alter (on_entries (remove_entry (last_name s)))
                 (removelast s) (root st1)) s = None).
    { rewrite <- Sp at 3. apply lookup_remove_below. }
    destruct (absent_reads H s
                (set_root st1
                   (alter (on_entries (remove_entry (last_name s)))
                      (removelast s) (root st1))) Ns Gone) as [-> ->].
    split; reflexivity.
Qed.

End Move.

(** C8 (amended): for every single-file [move(source, destination)]: when
    the store's native move faults, the copy-then-delete-source fallback is
    taken exactly when the fault is named [NotAllowedError], and every
    other fault reaches the caller unchanged; and whenever the fallback
    completes for a destination other than the source, the destination
    holds the source's content and the source no longer exists. *)
Theorem move_fallback_contract :
  forall (H : host) (s d : path) (st : store),
    (forall h st1 dp st2 ex,
        getDetails H s default_options st = (st, Ok (Some h)) ->
        h_kind h = FileK ->
        getDetails H (removelast d) (mkOptions false true (Some DirectoryK)) st
          = (st1, Ok dp) ->
        native_move H (file_move_fault H) h dp (Path_name d) st1
          = (st2, Throw ex) ->
        move H s d st =
          if String.eqb (error_name ex) "NotAllowedError"
          then (copy H s d ;;; delete H s) st2
          else (st2, Throw ex))
    /\ (forall st2 st',
          s <> d ->
          (copy H s d ;;; delete H s) st2 = (st', Ok tt) ->
          exists c,
            snd (bytes H s st2) = Ok (Some c)
            /\ snd (bytes H d st') = Ok (Some c)
            /\ snd (isFile H s st') = Ok false
            /\ snd (isDirectory H s st') = Ok false).
Proof.
  intros H s d st. split.
  - intros h st1 dp st2 ex E K Ep Em.
    unfold move. unfold bind at 1. rewrite E, K.
    unfold Path_pop. unfold bind at 1. rewrite Ep.
    unfold bind at 1. unfold attempt. rewrite Em.
    destruct (String.eqb (error_name ex) "NotAllowedError"); reflexivity.
  - intros st2 st' N F. eapply fallback_end_state; eauto.
Qed.

(** The fallback at work on a host that refuses the native move, and a
    fault of another name reaching the caller. *)
Lemma move_fallback_contract_witness :
  let st := st_of [("d", Dir [("f", File (bs "x") 5)])] in
  move refusing_host ["d"; "f"] ["e"; "g"] st
    = (copy refusing_host ["d"; "f"] ["e"; "g"] ;;;
       delete refusing_host ["d"; "f"]) (st_of [("d", Dir [("f", File (bs "x") 5)]); ("e", Dir [])])
  /\ (exists c,
        snd (bytes refusing_host ["d"; "f"] st) = Ok (Some c)
        /\ snd (bytes refusing_host ["e"; "g"]
                  (st_of [("d", Dir []); ("e", Dir [("g", File (bs "x") 1000)])]))
           = Ok (Some c)
        /\ snd (isFile refusing_host ["d"; "f"]
                  (st_of [("d", Dir []); ("e", Dir [("g", File (bs "x") 1000)])]))
           = Ok false
        /\ snd (isDirectory refusing_host ["d"; "f"]
                  (st_of [("d", Dir []); ("e", Dir [("g", File (bs "x") 1000)])]))
           = Ok false).
Proof.
  cbv zeta. split.
  - apply (proj1 (move_fallback_contract refusing_host ["d"; "f"] ["e"; "g"]
                    (st_of [("d", Dir [("f", File (bs "x") 5)])]))
             (mkHandle FileK ["d"; "f"])
             (st_of [("d", Dir [("f", File (bs "x") 5)]); ("e", Dir [])])
             (Some (mkHandle DirectoryK ["e"]))
             (st_of [("d", Dir [("f", File (bs "x") 5)]); ("e", Dir [])])
             (HostFault NotAllowedFault));
      reflexivity.
  - apply (proj2 (move_fallback_contract refusing_host ["d"; "f"] ["e"; "g"]
                    (st_of [("d", Dir [("f", File (bs "x") 5)])]))
             (st_of [("d", Dir [("f", File (bs "x") 5)])])).
    + discriminate.
    + reflexivity.
Defined.

(* ================================================================= *)
(** ** [lastModified] *)

Section LastModified.

Variable H : host.

Lemma list_store (p : path) (st st' : store) (o : outcome (list list_entry)) :
  list_ H p st = (st', o) -> st' = st.
Proof.
  destruct (getDetails_read H p default_options st eq_refl) as [r E].
  rewrite (list_run H p st r E). destruct r as [h|].
  - unfold bind, values, ret.
    destruct (h_kind h); [intros X; inv_pair; reflexivity|].
    destruct (lookup (root st) (h_loc h)) as [[d m|es]|];
      intros X; inv_pair; reflexivity.
  - intros X; inv_pair; reflexivity.
Qed.

Lemma newest_store (rec : path -> M (option Z)) (p : path) :
  (forall q st st' o, rec q st = (st', o) -> st' = st) ->
  forall es acc st st' o,
    newest rec p es acc st = (st', o) -> st' = st.
Proof.
  intros R. induction es as [|e es IH]; intros acc st st' o E; simpl in E.
  - unfold ret in E. inv_pair. reflexivity.
  - unfold bind in E.
    destruct (rec (Path_push p (name e)) st) as [st1 [d|x|]] eqn:E1;
      pose proof (R _ _ _ _ E1); subst st1.
    + eapply IH; eauto.
    + inv_pair; reflexivity.
    + inv_pair; reflexivity.
Qed.

Lemma lastModified_store (n : nat) :
  forall p st st' o, lastModified H n p st = (st', o) -> st' = st.
Proof.
  induction n as [|n IH]; intros p st st' o E; simpl in E.
  - unfold out_of_fuel in E. inv_pair. reflexivity.
  - unfold bind at 1 in E.
    destruct (getDetails_read H p default_options st eq_refl) as [r Er].
    rewrite Er in E. destruct r as [h|];
      [|unfold ret in E; inv_pair; reflexivity].
    destruct (h_kind h).
    + unfold bind, getFile, ret in E.
      destruct (h_kind h);
        [destruct (lookup (root st) (h_loc h)) as [[d m|es]|]|];
        inv_pair; reflexivity.
    + unfold bind at 1 in E.
      destruct (list_ H p st) as [st1 [es|x|]] eqn:El;
        pose proof (list_store _ _ _ _ El); subst st1;
        try (inv_pair; reflexivity).
      unfold bind at 1 in E.
      destruct (newest (lastModified H n) p es 0 st) as [st1 [lm|x|]] eqn:En;
        pose proof (newest_store _ p IH _ _ _ _ _ En); subst st1;
        try (inv_pair; reflexivity).
      destruct (Z.eqb lm 0); unfold bind, now, ret in E; inv_pair; reflexivity.
Qed.









End LastModified.


Section LastModifiedContract.

Variable H : host.

Definition to_list_entry (e : dir_entry) : list_entry :=
  mkListEntry (e_name e)
    (kind_eqb (e_kind e) DirectoryK) (kind_eqb (e_kind e) FileK) false.

Definition entry_of (e : string * node) : dir_entry :=
  mkDirEntry (fst e) (node_kind (snd e)).

(** [list] of a handle that resolves to a directory. *)
Lemma list_dir (p : path) (st : store) (h : handle) (es : entries) :
  getDetails H p default_options st = (st, Ok (Some h)) ->
  h_kind h = DirectoryK ->
  lookup (root st) (h_loc h) = Some (Dir es) ->
  list_ H p st = (st, Ok (map to_list_entry (map entry_of es))).
Proof.
  intros E K L. rewrite (list_run H p st _ E).
  unfold bind, values, ret. rewrite K, L. reflexivity.
Qed.


Lemma lastModified_file_step (n : nat) (p : path) (st : store) (h : handle)
    (c : list byte) (m : Z) :
  getDetails H p default_options st = (st, Ok (Some h)) ->
  h_kind h = FileK ->
  lookup (root st) (h_loc h) = Some (File c m) ->
  lastModified H (S n) p st = (st, Ok (Some m)).
Proof.
  intros E K L. simpl. unfold bind at 1. rewrite E, K.
  unfold bind, getFile, ret. rewrite K, L. reflexivity.
Qed.



End LastModifiedContract.




(* ================================================================= *)
(** ** Operations that cannot run out of fuel *)

Definition fuelfree {A} (c : M A) : Prop :=
  forall st, snd (c st) <> OutOfFuel.

Lemma fuelfree_ret {A} (a : A) : fuelfree (ret a).
Proof. intros st; discriminate. Qed.

Lemma fuelfree_throw {A} (e : error) : fuelfree (@throw A e).
Proof. intros st; discriminate. Qed.

Lemma fuelfree_bind {A B} (c : M A) (k : A -> M B) :
  fuelfree c -> (forall a, fuelfree (k a)) -> fuelfree (bind c k).
Proof.
  intros Fc Fk st. unfold bind. specialize (Fc st).
  destruct (c st) as [st' [a|e|]]; simpl in *;
    [apply Fk | discriminate | congruence].
Qed.

Lemma fuelfree_attempt {A} (c : M A) : fuelfree c -> fuelfree (attempt c).
Proof.
  intros Fc st. unfold attempt. specialize (Fc st).
  destruct (c st) as [st' [a|e|]]; simpl in *; congruence.
Qed.

Lemma fuelfree_for_each {A} (xs : list A) (body : A -> M unit) :
  (forall x, fuelfree (body x)) -> fuelfree (for_each xs body).
Proof.
  intros Fb. induction xs as [|x xs IH]; simpl.
  - apply fuelfree_ret.
  - apply fuelfree_bind; auto.
Qed.

Section FuelFree.

Variable H : host.

Lemma fuelfree_getDirectoryHandle (h : handle) (nm : string) (c : bool) :
  fuelfree (getDirectoryHandle H h nm c).
Proof.
  intros st. destruct (getDirectoryHandle H h nm c st) as [st' o] eqn:E.
  apply getDirectoryHandle_inv in E. simpl. tauto.
Qed.

Lemma fuelfree_getFileHandle (h : handle) (nm : string) (c : bool) :
  fuelfree (getFileHandle H h nm c).
Proof.
  intros st. destruct (getFileHandle H h nm c st) as [st' o] eqn:E.
  apply getFileHandle_inv in E. simpl. tauto.
Qed.

Lemma fuelfree_getDetails (p : path) (o : options) :
  fuelfree (getDetails H p o).
Proof.
  intros st. destruct (getDetails_total H p o st) as (st' & r & -> & _).
  discriminate.
Qed.

Lemma fuelfree_getFile (h : handle) : fuelfree (getFile h).
Proof.
  intros st. unfold getFile.
  destruct (h_kind h); [|discriminate].
  destruct (lookup (root st) (h_loc h)) as [[d m|es]|]; discriminate.
Qed.

Lemma fuelfree_createWritable (h : handle) : fuelfree (createWritable h).
Proof.
  intros st. unfold createWritable.
  destruct (h_kind h); [|discriminate].
  destruct (lookup (root st) (h_loc h)) as [[d m|es]|]; discriminate.
Qed.

Lemma fuelfree_writable_close (w : writable) : fuelfree (writable_close w).
Proof.
  intros st. unfold writable_close.
  destruct (lookup (root st) (w_target w)) as [[d m|es]|]; discriminate.
Qed.

Lemma fuelfree_values (h : handle) : fuelfree (values h).
Proof.
  intros st. unfold values.
  destruct (h_kind h); [discriminate|].
  destruct (lookup (root st) (h_loc h)) as [[d m|es]|]; discriminate.
Qed.

Lemma fuelfree_removeEntry (h : handle) (nm : string) :
  fuelfree (removeEntry H h nm).
Proof.
  intros st. unfold removeEntry.
  destruct (String.eqb nm ""); [discriminate|].
  destruct (access_fault H (h_loc h ++ [nm])); [discriminate|].
  destruct (lookup (root st) (h_loc h)) as [[d m|es]|]; try discriminate.
  destruct (find_entry nm es) as [[d m|[|x xs]]|]; discriminate.
Qed.

Lemma fuelfree_native_move (flt : option fault) (h : handle)
    (ph : option handle) (nm : option string) :
  fuelfree (native_move H flt h ph nm).
Proof.
  intros st. unfold native_move.
  destruct ph as [ph|]; [|discriminate].
  destruct nm as [nm|]; [|discriminate].
  destruct (String.eqb nm ""); [discriminate|].
  destruct flt; [discriminate|].
  destruct (access_fault H (h_loc ph ++ [nm])); [discriminate|].
  destruct (lookup (root st) (h_loc h)); [|discriminate].
  destruct (lookup (root st) (h_loc ph)) as [[d m|es]|]; try discriminate.
  destruct (prefix (h_loc h) (h_loc ph)); [discriminate|].
  destruct (find_entry nm es) as [[d m|es']|]; discriminate.
Qed.

Lemma fuelfree_isFile (p : path) : fuelfree (isFile H p).
Proof.
  apply fuelfree_bind; [apply fuelfree_getDetails|].
  intros a; apply fuelfree_ret.
Qed.

Lemma fuelfree_isDirectory (p : path) : fuelfree (isDirectory H p).
Proof.
  apply fuelfree_bind; [apply fuelfree_getDetails|].
  intros a; apply fuelfree_ret.
Qed.

Lemma fuelfree_list (p : path) : fuelfree (list_ H p).
Proof.
  apply fuelfree_bind; [apply fuelfree_getDetails|].
  intros [h|]; [|apply fuelfree_ret].
  apply fuelfree_bind; [apply fuelfree_values|].
  intros a; apply fuelfree_ret.
Qed.

Lemma fuelfree_createDirectory_from (steps : list string) :
  forall h, fuelfree (createDirectory_from H h steps).
Proof.
  induction steps as [|nm rest IH]; intros h; simpl.
  - apply fuelfree_ret.
  - apply fuelfree_bind; [apply fuelfree_getDirectoryHandle | auto].
Qed.

Lemma fuelfree_createDirectory (p : path) : fuelfree (createDirectory H p).
Proof. apply fuelfree_createDirectory_from. Qed.

Lemma fuelfree_copy (s d : path) : fuelfree (copy H s d).
Proof.
  unfold copy.
  apply fuelfree_bind; [apply fuelfree_getDetails|].
  intros [h|]; [|apply fuelfree_throw].
  destruct (h_kind h); [|apply fuelfree_throw].
  apply fuelfree_bind; [apply fuelfree_isDirectory|].
  intros [|]; [apply fuelfree_throw|].
  apply fuelfree_bind; [apply fuelfree_getDetails|].
  intros th.
  apply fuelfree_bind; [apply fuelfree_getFile|].
  intros f. destruct th as [th|]; [|apply fuelfree_throw].
  apply fuelfree_bind; [apply fuelfree_createWritable|].
  intros w. apply fuelfree_bind; [intros st; discriminate|].
  intros w'. apply fuelfree_writable_close.
Qed.

Lemma fuelfree_delete (p : path) : fuelfree (delete H p).
Proof.
  unfold delete.
  apply fuelfree_bind; [apply fuelfree_getDetails|].
  intros h.
  apply fuelfree_bind; [apply fuelfree_getDetails|].
  intros ph. destruct h as [h|]; [|apply fuelfree_throw].
  apply fuelfree_bind.
  - destruct (h_kind h); [apply fuelfree_ret|].
    apply fuelfree_bind; [apply fuelfree_values|].
    intros [|x xs]; [apply fuelfree_ret | apply fuelfree_throw].
  - intros _. apply fuelfree_bind;
      [apply fuelfree_attempt, fuelfree_removeEntry|].
    intros _. apply fuelfree_ret.
Qed.

Lemma fuelfree_move (s d : path) : fuelfree (move H s d).
Proof.
  unfold move.
  apply fuelfree_bind; [apply fuelfree_getDetails|].
  intros [h|]; [|apply fuelfree_throw].
  destruct (h_kind h); [|apply fuelfree_throw].
  destruct (Path_pop d) as [dn dp].
  apply fuelfree_bind; [apply fuelfree_getDetails|].
  intros ph.
  apply fuelfree_bind; [apply fuelfree_attempt, fuelfree_native_move|].
  intros [ex|_]; [|apply fuelfree_ret].
  destruct (String.eqb (error_name ex) "NotAllowedError");
    [|apply fuelfree_throw].
  apply fuelfree_bind; [apply fuelfree_copy|].
  intros _. apply fuelfree_delete.
Qed.

End FuelFree.

(* ================================================================= *)
(** ** Loops over directory entries *)

Lemma for_each_inv {A} (Inv : list A -> store -> Prop) (body : A -> M unit) :
  forall xs done st st',
    Inv done st ->
    (forall done' x st1 st2,
        Inv done' st1 -> In x xs -> body x st1 = (st2, Ok tt) ->
        Inv (done' ++ [x]) st2) ->
    for_each xs body st = (st', Ok tt) ->
    Inv (done ++ xs) st'.
Proof.
  induction xs as [|x xs IH]; intros done st st' I Step E; simpl in E.
  - unfold ret in E. inv_pair. rewrite app_nil_r. exact I.
  - unfold bind in E.
    destruct (body x st) as [st1 [[]|e|]] eqn:B; try discriminate.
    replace (done ++ x :: xs) with ((done ++ [x]) ++ xs)
      by (rewrite <- app_assoc; reflexivity).
    eapply IH; [| |exact E].
    + eapply Step; eauto. left; reflexivity.
    + intros done' y st2 st3 I' In' B'. eapply Step; eauto. right; exact In'.
Qed.

Lemma for_each_fuel {A} (Inv : store -> Prop) (body : A -> M unit) :
  forall xs st,
    Inv st ->
    (forall x st1, In x xs -> Inv st1 ->
        snd (body x st1) <> OutOfFuel
        /\ forall st2, body x st1 = (st2, Ok tt) -> Inv st2) ->
    snd (for_each xs body st) <> OutOfFuel
    /\ forall st', for_each xs body st = (st', Ok tt) -> Inv st'.
Proof.
  induction xs as [|x xs IH]; intros st I Step; simpl.
  - split; [discriminate|]. unfold ret. intros st' E. inv_pair. exact I.
  - unfold bind.
    destruct (Step x st (or_introl eq_refl) I) as [Fx Ix].
    destruct (body x st) as [st1 [[]|e|]] eqn:B; simpl in *.
    + apply IH; [apply Ix; reflexivity|].
      intros y st2 In' I'. apply Step; [right; exact In' | exact I'].
    + split; [discriminate | intros st' E; discriminate].
    + congruence.
Qed.

Lemma prefix_step (loc q : path) (nm : string) (rest : list string) :
  prefix q (loc ++ nm :: rest) = true ->
  (List.length loc < List.length q)%nat ->
  q = loc ++ [nm]
  \/ (prefix q ((loc ++ [nm]) ++ rest) = true
      /\ (List.length (loc ++ [nm]) < List.length q)%nat).
Proof.
  intros P L. apply prefix_spec in P. destruct P as [r P].
  destruct (prefix_comparable q (loc ++ [nm]) (loc ++ nm :: rest)) as [C|C].
  - apply prefix_spec; eauto.
  - rewrite prefix_app_l. simpl. rewrite String.eqb_refl. reflexivity.
  - left. apply prefix_spec in C. destruct C as [r' C].
    assert (List.length (loc ++ [nm]) = List.length (q ++ r'))
      by (rewrite C; reflexivity).
    rewrite !length_app in *. simpl in *.
    destruct r'; [rewrite app_nil_r in C; auto | simpl in *; lia].
  - destruct (list_eq_dec string_dec q (loc ++ [nm])) as [->|N];
      [left; reflexivity | right].
    split.
    + rewrite <- app_assoc. simpl. apply prefix_spec; eauto.
    + apply prefix_spec in C. destruct C as [r' ->].
      destruct r'; [rewrite app_nil_r in N; congruence|].
      rewrite !length_app. simpl. lia.
Qed.

Section CreateDirectory.

Variable H : host.

Lemma createDirectory_from_inv (steps : list string) :
  forall h st st',
    createDirectory_from H h steps st = (st', Ok tt) ->
    grows (h_loc h ++ steps) st st'
    /\ Forall (fun x => x <> "") steps
    /\ granted H (h_loc h) (h_loc h ++ steps)
    /\ (steps <> [] ->
        exists es, lookup (root st') (h_loc h ++ steps) = Some (Dir es)).
Proof.
  induction steps as [|nm rest IH]; intros h st st' E; simpl in E.
  - unfold ret in E. inv_pair.
    split; [apply grows_refl|]. split; [constructor|].
    split; [|congruence].
    intros q P L. rewrite app_nil_r in P. apply prefix_length in P. lia.
  - unfold bind in E.
    destruct (getDirectoryHandle H h nm true st) as [st1 [h1|e|]] eqn:G;
      try discriminate.
    destruct (getDirectoryHandle_inv H _ _ _ _ _ _ G) as (_ & Gr & _ & _ & K).
    destruct (K h1 eq_refl) as (-> & Hnm & A & es & L).
    apply IH in E. simpl h_loc in E.
    destruct E as (Gr2 & F & Ga & Ld).
    replace (h_loc h ++ nm :: rest) with ((h_loc h ++ [nm]) ++ rest)
      by (rewrite <- app_assoc; reflexivity).
    split; [eapply grows_trans; [apply prefix_app | exact Gr | exact Gr2]|].
    split; [constructor; assumption|].
    split.
    + intros q P Lq. rewrite <- app_assoc in P. simpl in P.
      destruct (prefix_step _ _ _ _ P Lq) as [->|[P2 L2]]; [exact A|].
      apply Ga; assumption.
    + intros _. destruct rest as [|nm2 rest].
      * simpl in Gr2. rewrite app_nil_r in *.
        destruct Gr2 as (_ & _ & _ & Dk & _). eapply Dk; eauto.
      * apply Ld. discriminate.
Qed.

Lemma createDirectory_inv (p : path) (st st' : store) :
  createDirectory H p st = (st', Ok tt) ->
  grows p st st'
  /\ Forall (fun x => x <> "") p
  /\ granted H [] p
  /\ (p <> [] -> exists es, lookup (root st') p = Some (Dir es)).
Proof.
  intros E. apply createDirectory_from_inv in E. exact E.
Qed.

End CreateDirectory.

(* ================================================================= *)
(** ** [copyAll] on disjoint source and destination *)

Section CopyAll.

Variable H : host.

(** The resolver can reach [p] on this host. *)
Definition reachable (p : path) : Prop :=
  p <> [] /\ Forall (fun x => x <> "") p /\ granted H [] p.

(** Every file and directory that [st] holds at or below [s] is found at
    the same relative path below [d] in [st'], files with the same bytes. *)
Definition copied (s d : path) (st st' : store) : Prop :=
  (forall rel c m,
      lookup (root st) (s ++ rel) = Some (File c m) ->
      d ++ rel <> ["root"] /\ reachable (d ++ rel)
      /\ exists m', lookup (root st') (d ++ rel) = Some (File c m'))
  /\ (forall rel es,
        lookup (root st) (s ++ rel) = Some (Dir es) ->
        reachable (d ++ rel)
        /\ exists es', lookup (root st') (d ++ rel) = Some (Dir es')).

(** Nothing off the branch of [d] has changed. *)
Definition off_limits (d : path) (st st' : store) : Prop :=
  forall q, disjoint q d = true -> lookup (root st') q = lookup (root st) q.

Definition dirs_kept (st st' : store) : Prop :=
  forall q es, lookup (root st) q = Some (Dir es) ->
               exists es', lookup (root st') q = Some (Dir es').

Lemma off_limits_of_prefix_frame (d : path) (st st' : store) :
  (forall q, prefix q d = false -> lookup (root st') q = lookup (root st) q) ->
  off_limits d st st'.
Proof.
  intros F q Dq. apply F. apply disjoint_spec in Dq. tauto.
Qed.

Lemma copy_spec (s d : path) (st st' : store) :
  copy H s d st = (st', Ok tt) ->
  copied s d st st' /\ off_limits d st st' /\ dirs_kept st st'.
Proof.
  intros E. destruct (copy_inv H s d st st' E)
    as (c & m & Ls & Ld & Ch & Ns & Nd & Nes & Ned & Fs & Fd & Gs & Gd).
  destruct Ch as (_ & Fr & _ & Dk & _).
  split; [|split; [apply off_limits_of_prefix_frame; exact Fr | exact Dk]].
  split.
  - intros rel c0 m0 L. destruct rel as [|a rel].
    + rewrite app_nil_r in *. rewrite Ls in L. inversion L; subst.
      split; [assumption|]. split; [unfold reachable; auto | eauto].
    + rewrite (lookup_file_below _ _ (a :: rel) _ _ Ls) in L; discriminate.
  - intros rel es L. destruct rel as [|a rel].
    + rewrite app_nil_r in *. congruence.
    + rewrite (lookup_file_below _ _ (a :: rel) _ _ Ls) in L; discriminate.
Qed.

Lemma find_entry_listed (nm : string) (es : entries) (v : node) :
  find_entry nm es = Some v ->
  exists e, In e (map to_list_entry (map entry_of es)) /\ name e = nm.
Proof.
  intros F. apply find_entry_In in F.
  exists (to_list_entry (entry_of (nm, v))). split; [|reflexivity].
  apply in_map, in_map. exact F.
Qed.

(** What a successful [copyAll] has done, when neither path lies on the
    other's branch. *)
Lemma copyAll_spec (n : nat) :
  forall s d st st',
    disjoint s d = true -> s <> ["root"] ->
    copyAll H n s d st = (st', Ok tt) ->
    copied s d st st' /\ off_limits d st st' /\ dirs_kept st st'.
Proof.
  induction n as [|n IH]; intros s d st st' Dsd Ns E; [discriminate|].
  simpl in E. unfold bind at 1 in E.
  destruct (getDetails_default_cases H s st)
    as [E0|[[-> E0]|(_ & h & E0 & R & G)]]; [| congruence |].
  { rewrite (isFile_run H s st _ E0) in E. simpl in E.
    unfold bind at 1 in E. rewrite (isDirectory_run H s st _ E0) in E.
    discriminate. }
  destruct R as (Hl & Ne & F & A & (v & L & K) & _).
  rewrite (isFile_run H s st _ E0) in E.
  destruct v as [c m|es]; simpl in K; rewrite <- K in E; simpl in E.
  { apply copy_spec; exact E. }
  unfold bind at 1 in E. rewrite (isDirectory_run H s st _ E0) in E.
  rewrite <- K in E. simpl in E.
  unfold bind at 1 in E.
  destruct (createDirectory H d st) as [st1 [[]|e|]] eqn:Ec; try discriminate.
  destruct (createDirectory_inv H d st st1 Ec) as (Gr & Fd & Gd & Ld).
  apply disjoint_spec in Dsd. destruct Dsd as [Psd Pds].
  assert (Ned : d <> []) by (intros ->; destruct s; discriminate).
  destruct (Ld Ned) as [esd Ldd].
  destruct Gr as (_ & Fr & _ & Dk1 & _).
  assert (L1 : lookup (root st1) s = Some (Dir es)) by (rewrite Fr; auto).
  pose proof (getDetails_some H s default_options st1 (Dir es)
                Ns eq_refl Ne F G L1 ltac:(discriminate)) as E1.
  unfold bind at 1 in E.
  rewrite (list_dir H s st1 _ es E1 eq_refl L1) in E.
  set (body := fun entry : list_entry =>
         if isDirectory_ entry
         then copyAll H n (Path_push s (name entry)) (Path_push d (name entry))
         else copy H (Path_push s (name entry)) (Path_push d (name entry)))
    in E.
  set (Inv := fun (done : list list_entry) (sti : store) =>
         off_limits d st sti /\ dirs_kept st sti
         /\ (exists esd', lookup (root sti) d = Some (Dir esd'))
         /\ forall e, In e done ->
              copied (s ++ [name e]) (d ++ [name e]) st sti).
  assert (I0 : Inv [] st1).
  { unfold Inv. split; [apply off_limits_of_prefix_frame; exact Fr|].
    split; [exact Dk1|]. split; [eauto|]. intros e [].
  }
  assert (Step : forall done' x st2 st3,
            Inv done' st2 ->
            In x (map to_list_entry (map entry_of es)) ->
            body x st2 = (st3, Ok tt) ->
            Inv (done' ++ [x]) st3).
  { intros done' x st2 st3 (Io & Ik & (esd2 & Id) & Ic) _ B.
    assert (Dx : disjoint (s ++ [name x]) (d ++ [name x]) = true).
    { apply disjoint_app. apply disjoint_spec. auto. }
    assert (T : copied (s ++ [name x]) (d ++ [name x]) st2 st3
                /\ off_limits (d ++ [name x]) st2 st3 /\ dirs_kept st2 st3).
    { unfold body, Path_push in B. destruct (isDirectory_ x).
      - apply IH; [exact Dx | | exact B].
        apply snoc_not_root; exact Ne.
      - apply copy_spec; exact B. }
    destruct T as ((Tf & Td) & To & Tk).
    assert (Src : forall rel,
              lookup (root st2) ((s ++ [name x]) ++ rel)
              = lookup (root st) ((s ++ [name x]) ++ rel)).
    { intros rel. apply Io. rewrite <- app_assoc.
      apply disjoint_app_l. apply disjoint_spec. auto. }
    unfold Inv. split; [|split; [|split]].
    - intros q Dq. rewrite To, Io; auto. apply disjoint_app_r. exact Dq.
    - intros q es0 Lq. destruct (Ik _ _ Lq) as [es1 L2]. eapply Tk; eauto.
    - eapply Tk; eauto.
    - intros e In'.
      destruct (String.eqb_spec (name e) (name x)) as [Eq|Neq].
      + rewrite Eq. split.
        * intros rel c0 m0 L0. rewrite <- Src in L0. eapply Tf; exact L0.
        * intros rel es0 L0. rewrite <- Src in L0. eapply Td; exact L0.
      + apply in_app_or in In'. destruct In' as [In'|[<-|[]]]; [|congruence].
        destruct (Ic e In') as (Cf & Cd).
        assert (Sib : forall rel,
                  lookup (root st3) ((d ++ [name e]) ++ rel)
                  = lookup (root st2) ((d ++ [name e]) ++ rel)).
        { intros rel. apply To. rewrite <- !app_assoc. simpl.
          rewrite <- (app_nil_r (d ++ [name x])), <- app_assoc. simpl.
          apply disjoint_siblings. exact Neq. }
        split.
        * intros rel c0 m0 L0. destruct (Cf _ _ _ L0) as (X1 & X2 & m' & X3).
          split; [exact X1|]. split; [exact X2|]. exists m'.
          rewrite Sib. exact X3.
        * intros rel es0 L0. destruct (Cd _ _ L0) as (X2 & es' & X3).
          split; [exact X2|]. exists es'. rewrite Sib. exact X3. }
  pose proof (for_each_inv Inv body _ [] st1 st' I0 Step E)
    as (Fo & Fk & Fdd & Fc).
  simpl in Fc.
  split; [|split; assumption].
  assert (Rd : reachable d) by (unfold reachable; auto).
  split.
  - intros rel c0 m0 L0. destruct rel as [|a rel].
    + rewrite app_nil_r in L0. congruence.
    + pose proof L0 as L0'. rewrite lookup_app, L in L0'. simpl in L0'.
      destruct (find_entry a es) as [child|] eqn:Fa; [|discriminate].
      destruct (find_entry_listed a es child Fa) as (e & Ie & <-).
      destruct (Fc e Ie) as (Cf & _).
      specialize (Cf rel c0 m0). rewrite <- !app_assoc in Cf. simpl in Cf.
      apply Cf. exact L0.
  - intros rel es0 L0. destruct rel as [|a rel].
    + rewrite app_nil_r. split; [exact Rd | exact Fdd].
    + pose proof L0 as L0'. rewrite lookup_app, L in L0'. simpl in L0'.
      destruct (find_entry a es) as [child|] eqn:Fa; [|discriminate].
      destruct (find_entry_listed a es child Fa) as (e & Ie & <-).
      destruct (Fc e Ie) as (_ & Cd).
      specialize (Cd rel es0). rewrite <- !app_assoc in Cd. simpl in Cd.
      apply Cd. exact L0.
Qed.

End CopyAll.

Lemma for_each_all_ok {A} (body : A -> M unit) :
  forall xs st st',
    for_each xs body st = (st', Ok tt) ->
    forall x, In x xs -> exists sti stj, body x sti = (stj, Ok tt).
Proof.
  induction xs as [|y xs IH]; intros st st' E x I; [destruct I|].
  simpl in E. unfold bind in E.
  destruct (body y st) as [st1 [[]|e|]] eqn:B; try discriminate.
  destruct I as [<-|I]; [eauto | eapply IH; eauto].
Qed.

Section CopyInside.

Variable H : host.

(** [copy] cannot write below its own source file. *)
Lemma copy_inside (s d : path) (st st' : store) :
  copy H s d st = (st', Ok tt) -> prefix s d = true -> s = d.
Proof.
  intros E P.
  destruct (copy_inv H s d st st' E) as (c & m & Ls & Ld & Ch & _).
  destruct Ch as (_ & _ & Fk & _ & _).
  destruct (list_eq_dec string_dec s d) as [X|N]; [exact X|].
  pose proof (Fk s c m N Ls) as Ls'.
  eapply file_not_above; eauto.
Qed.

(** [copyAll] into a directory strictly inside the source never
    completes: the directory it creates is among the entries it then
    copies, one level further down each time. *)
Lemma copyAll_inside_fails (n : nat) :
  forall s d st st',
    prefix s d = true -> s <> d -> s <> ["root"] ->
    copyAll H n s d st <> (st', Ok tt).
Proof.
  induction n as [|n IH]; intros s d st st' P Nsd Ns E; [discriminate|].
  simpl in E. unfold bind at 1 in E.
  destruct (getDetails_default_cases H s st)
    as [E0|[[-> E0]|(_ & h & E0 & R & G)]]; [| congruence |].
  { rewrite (isFile_run H s st _ E0) in E. simpl in E.
    unfold bind at 1 in E. rewrite (isDirectory_run H s st _ E0) in E.
    discriminate. }
  destruct R as (Hl & Ne & F & A & (v & L & K) & _).
  rewrite (isFile_run H s st _ E0) in E.
  destruct v as [c m|es]; simpl in K; rewrite <- K in E; simpl in E.
  { apply Nsd. eapply copy_inside; eauto. }
  unfold bind at 1 in E. rewrite (isDirectory_run H s st _ E0) in E.
  rewrite <- K in E. simpl in E.
  unfold bind at 1 in E.
  destruct (createDirectory H d st) as [st1 [[]|e|]] eqn:Ec; try discriminate.
  destruct (createDirectory_inv H d st st1 Ec) as (Gr & Fd & Gd & Ld).
  apply prefix_spec in P. destruct P as [r ->].
  destruct r as [|r1 r]; [rewrite app_nil_r in Nsd; congruence|].
  destruct Ld as [esd Ldd]; [destruct s; discriminate|].
  assert (Lc : exists esc, lookup (root st1) (s ++ [r1]) = Some (Dir esc)).
  { replace (s ++ r1 :: r) with ((s ++ [r1]) ++ r) in Ldd
      by (rewrite <- app_assoc; reflexivity).
    destruct r as [|r2 r].
    - rewrite app_nil_r in Ldd. eauto.
    - eapply lookup_prefix_dir; [exact Ldd | discriminate]. }
  destruct Lc as [esc Lc].
  destruct (lookup_snoc_dir _ _ _ _ Lc) as (es1 & L1 & F1).
  pose proof (getDetails_some H s default_options st1 (Dir es1)
                Ns eq_refl Ne F G L1 ltac:(discriminate)) as E1.
  unfold bind at 1 in E.
  rewrite (list_dir H s st1 _ es1 E1 eq_refl L1) in E.
  apply find_entry_In in F1.
  assert (I : In (to_list_entry (entry_of (r1, Dir esc)))
                (map to_list_entry (map entry_of es1)))
    by (apply in_map, in_map; exact F1).
  destruct (for_each_all_ok _ _ _ _ E _ I) as (sti & stj & B).
  unfold Path_push in B. simpl in B.
  eapply (IH (s ++ [r1]) ((s ++ r1 :: r) ++ [r1])); [| | | exact B].
  - rewrite <- app_assoc. simpl. rewrite prefix_app_l. simpl.
    rewrite String.eqb_refl. reflexivity.
  - intros X. apply (f_equal (@List.length string)) in X.
    rewrite !length_app in X. simpl in X. lia.
  - apply snoc_not_root; exact Ne.
Qed.

End CopyInside.

(** C1, as stated, fails when the source lies inside the destination:
    copying [a/b] into [a] first copies [a/b/b/z] onto [a/b/z], so the
    source subtree is changed by the call and the copy [a/z] holds other
    bytes than the source file had.  It fails for the root literal:
    [copyAll("root", "x")] enumerates the entries of the root but reads them
    below the directory named [root], and [root/f] is never copied.  And
    copying a directory onto itself rewrites its files, which changes their
    modification time. *)
Lemma copyAll_into_parent_changes_source :
  let st := st_of [("a", Dir [("b", Dir [("b", Dir [("z", File (bs "deep") 1)]);
                                         ("z", File (bs "shallow") 2)])])] in
  let st' := fst (copyAll plain_host 5 ["a"; "b"] ["a"] st) in
  let rt := st_of [("root", Dir [("root", Dir []); ("x", Dir []);
                                 ("f", File (bs "c") 3)])] in
  let rt' := fst (copyAll plain_host 5 ["root"] ["x"] rt) in
  let ot := st_of [("a", Dir [("f", File (bs "c") 3)])] in
  let ot' := fst (copyAll plain_host 5 ["a"] ["a"] ot) in
  snd (isDirectory plain_host ["a"; "b"] st) = Ok true
  /\ snd (copyAll plain_host 5 ["a"; "b"] ["a"] st) = Ok tt
  /\ snd (bytes plain_host ["a"; "b"; "z"] st) = Ok (Some (bs "shallow"))
  /\ snd (bytes plain_host ["a"; "b"; "z"] st') = Ok (Some (bs "deep"))
  /\ snd (bytes plain_host ["a"; "z"] st') = Ok (Some (bs "deep"))
  /\ lookup (root st') ["a"; "b"] <> lookup (root st) ["a"; "b"]
  /\ snd (isDirectory plain_host ["root"] rt) = Ok true
  /\ snd (copyAll plain_host 5 ["root"] ["x"] rt) = Ok tt
  /\ snd (bytes plain_host ["root"; "f"] rt) = Ok (Some (bs "c"))
  /\ snd (bytes plain_host ["x"; "f"] rt') = Ok None
  /\ snd (copyAll plain_host 5 ["a"] ["a"] ot) = Ok tt
  /\ snd (lastModified plain_host 5 ["a"; "f"] ot) = Ok (Some 3%Z)
  /\ snd (lastModified plain_host 5 ["a"; "f"] ot') = Ok (Some 1000%Z).
Proof.
  cbv zeta. repeat split; try reflexivity. vm_compute. discriminate.
Qed.

(** C1 (amended): for every host, every source path other than the root
    literal and every destination path that is neither the source nor an
    ancestor of it, after [copyAll(source, destination)] completes
    successfully every file at or under the source has a byte-identical
    file at the same relative path under the destination, every directory
    at or under the source is a directory under the destination, and the
    source subtree (like every location off the destination's branch) is
    unchanged by the call.  (For a destination strictly inside the source
    the call never completes.) *)
Theorem copyAll_clones_disjoint_tree :
  forall (H : host) (n : nat) (s d : path) (st st' : store),
    prefix d s = false ->
    s <> ["root"] ->
    copyAll H n s d st = (st', Ok tt) ->
    (forall rel c,
        snd (bytes H (s ++ rel) st) = Ok (Some c) ->
        snd (bytes H (d ++ rel) st') = Ok (Some c))
    /\ (forall rel,
          snd (isDirectory H (s ++ rel) st) = Ok true ->
          snd (isDirectory H (d ++ rel) st') = Ok true)
    /\ lookup (root st') s = lookup (root st) s
    /\ (forall q, disjoint q d = true ->
          lookup (root st') q = lookup (root st) q).
Proof.
  intros H n s d st st' Pds Ns E.
  assert (Dsd : disjoint s d = true).
  { apply disjoint_spec. split; [|exact Pds].
    destruct (prefix s d) eqn:P; [|reflexivity].
    exfalso. apply (copyAll_inside_fails H n s d st st' P); auto.
    intros ->. rewrite prefix_refl in Pds. discriminate. }
  destruct (copyAll_spec H n s d st st' Dsd Ns E) as ((Cf & Cd) & Fo & _).
  split; [|split; [|split]].
  - intros rel c B. apply bytes_inv in B.
    destruct B as (_ & _ & _ & _ & m & L).
    destruct (Cf rel c m L) as (Nr & (Ne & F & G) & m' & L').
    rewrite (bytes_file H (d ++ rel) st' c m'); auto.
  - intros rel B. apply isDirectory_inv in B.
    destruct B as [B|(_ & _ & _ & _ & es & L)].
    + exfalso. apply disjoint_spec in Dsd. destruct Dsd as [Psd _].
      destruct s as [|a s]; [discriminate|].
      destruct s as [|b s]; [|discriminate].
      destruct rel; [|discriminate]. simpl in B. congruence.
    + destruct (Cd rel es L) as ((Ne & F & G) & es' & L').
      destruct (list_eq_dec string_dec (d ++ rel) ["root"]) as [->|Nr].
      * reflexivity.
      * rewrite (isDirectory_dir H (d ++ rel) st' es'); auto.
  - apply Fo. exact Dsd.
  - exact Fo.
Qed.

(** The clone at work: a directory with a file and a nested directory is
    copied next to itself. *)
Lemma copyAll_clones_disjoint_tree_witness :
  let st := st_of [("src", Dir [("f", File (bs "x") 5);
                                ("sub", Dir [("g", File (bs "y") 6)])])] in
  let st' := fst (copyAll plain_host 3 ["src"] ["dst"] st) in
  (forall rel c,
      snd (bytes plain_host (["src"] ++ rel) st) = Ok (Some c) ->
      snd (bytes plain_host (["dst"] ++ rel) st') = Ok (Some c))
  /\ (forall rel,
        snd (isDirectory plain_host (["src"] ++ rel) st) = Ok true ->
        snd (isDirectory plain_host (["dst"] ++ rel) st') = Ok true)
  /\ lookup (root st') ["src"] = lookup (root st) ["src"]
  /\ (forall q, disjoint q ["dst"] = true ->
        lookup (root st') q = lookup (root st) q).
Proof.
  cbv zeta.
  apply (copyAll_clones_disjoint_tree plain_host 3 ["src"] ["dst"]).
  - reflexivity.
  - discriminate.
  - reflexivity.
Defined.

(* ================================================================= *)
(** ** Termination of [copyAll] *)

Section CopyAllTermination.

Variable H : host.

(** When neither path lies on the other's branch, the source subtree is
    never written, and fuel above its height is enough. *)
Lemma copyAll_fuel_disjoint (k : nat) :
  forall s d st,
    disjoint s d = true -> s <> ["root"] ->
    (forall v, lookup (root st) s = Some v -> (height v <= k)%nat) ->
    snd (copyAll H (S k) s d st) <> OutOfFuel.
Proof.
  induction k as [|k IH]; intros s d st Dsd Ns B;
    simpl; unfold bind at 1;
    (destruct (getDetails_default_cases H s st)
       as [E0|[[-> E0]|(_ & h & E0 & R & G)]]; [| congruence |];
     [ rewrite (isFile_run H s st _ E0); simpl;
       unfold bind at 1; rewrite (isDirectory_run H s st _ E0);
       discriminate |]);
    destruct R as (Hl & Ne & F & A & (v & L & K) & _);
    rewrite (isFile_run H s st _ E0).
  { specialize (B v L). pose proof (height_pos v). lia. }
  destruct v as [c m|es]; simpl in K; rewrite <- K; simpl.
  { apply fuelfree_copy. }
  unfold bind at 1. rewrite (isDirectory_run H s st _ E0).
  rewrite <- K. simpl. unfold bind at 1.
  pose proof (fuelfree_createDirectory H d st) as Fc.
  destruct (createDirectory H d st) as [st1 [[]|e|]] eqn:Ec;
    simpl in Fc; [| discriminate | congruence].
  destruct (createDirectory_inv H d st st1 Ec) as (Gr & _ & _ & _).
  destruct Gr as (_ & Fr & _ & _ & _).
  pose proof Dsd as Dsd'. apply disjoint_spec in Dsd'.
  destruct Dsd' as [Psd Pds].
  assert (L1 : lookup (root st1) s = Some (Dir es)) by (rewrite Fr; auto).
  pose proof (getDetails_some H s default_options st1 (Dir es)
                Ns eq_refl Ne F G L1 ltac:(discriminate)) as E1.
  unfold bind at 1.
  rewrite (list_dir H s st1 _ es E1 eq_refl L1).
  apply (for_each_fuel (fun sti => off_limits d st sti)).
  - apply off_limits_of_prefix_frame; exact Fr.
  - intros x sti _ Io. unfold Path_push.
    assert (Dx : disjoint (s ++ [name x]) (d ++ [name x]) = true)
      by (apply disjoint_app; exact Dsd).
    assert (Nx : s ++ [name x] <> ["root"])
      by (apply snoc_not_root; exact Ne).
    assert (Keep : forall st2,
              off_limits (d ++ [name x]) sti st2 -> off_limits d st st2).
    { intros st2 To q Dq. rewrite To, Io; auto.
      apply disjoint_app_r; exact Dq. }
    destruct (isDirectory_ x).
    + split.
      * apply IH; [exact Dx | exact Nx |].
        intros w Lw. rewrite Io in Lw by (apply disjoint_app_l; exact Dsd).
        rewrite lookup_app, L in Lw. apply height_lookup in Lw.
        change (List.length [name x]) with 1%nat in Lw.
        specialize (B _ L). lia.
      * intros st2 E2. apply Keep.
        eapply (copyAll_spec H (S k)); eauto.
    + split; [apply fuelfree_copy|].
      intros st2 E2. apply Keep. eapply copy_spec; eauto.
Qed.

(** When the destination is not deeper than the source, no write goes
    deeper than the node it copies, the hierarchy never gets higher, and
    the recursion cannot go below its height. *)
Lemma copyAll_fuel_height (n : nat) :
  forall s d st stf o,
    (List.length d <= List.length s)%nat -> s <> ["root"] ->
    (1 <= n)%nat ->
    (height (root st) < List.length s + n)%nat ->
    copyAll H n s d st = (stf, o) ->
    o <> OutOfFuel
    /\ (o = Ok tt -> (height (root stf) <= height (root st))%nat).
Proof.
  induction n as [|n IH]; intros s d st stf o Len Ns Pos B E; [lia|].
  simpl in E. unfold bind at 1 in E.
  destruct (getDetails_default_cases H s st)
    as [E0|[[-> E0]|(_ & h & E0 & R & G)]]; [| congruence |].
  { rewrite (isFile_run H s st _ E0) in E. simpl in E.
    unfold bind at 1 in E. rewrite (isDirectory_run H s st _ E0) in E.
    simpl in E. unfold throw in E. inv_pair.
    split; [discriminate | intros X; discriminate]. }
  destruct R as (Hl & Ne & F & A & (v & L & K) & _).
  rewrite (isFile_run H s st _ E0) in E.
  pose proof (height_lookup _ _ _ L) as Hs.
  pose proof (height_pos v) as Hv.
  destruct v as [c m|es]; simpl in K; rewrite <- K in E; simpl in E.
  { pose proof (fuelfree_copy H s d st) as Fc. rewrite E in Fc.
    split; [exact Fc|]. intros ->.
    destruct (copy_inv H s d st stf E) as (c' & m' & _ & _ & Ch & _).
    destruct Ch as (_ & _ & _ & _ & Hh). lia. }
  unfold bind at 1 in E. rewrite (isDirectory_run H s st _ E0) in E.
  rewrite <- K in E. simpl in E. unfold bind at 1 in E.
  pose proof (fuelfree_createDirectory H d st) as Fc.
  destruct (createDirectory H d st) as [st1 [[]|e|]] eqn:Ec;
    simpl in Fc;
    [| inv_pair; split; [discriminate | intros X; discriminate]
     | congruence].
  destruct (createDirectory_inv H d st st1 Ec) as (Gr & _ & _ & _).
  destruct Gr as (_ & _ & _ & _ & H1).
  unfold bind at 1 in E.
  pose proof (fuelfree_list H s st1) as Fl.
  destruct (list_ H s st1) as [st1' [es'|e|]] eqn:El;
    simpl in Fl;
    [| inv_pair; split; [discriminate | intros X; discriminate]
     | congruence].
  pose proof (list_store H _ _ _ _ El); subst st1'.
  match type of E with
  | for_each _ ?body _ = _ =>
      destruct (for_each_fuel
                  (fun sti => (height (root sti) <= height (root st))%nat)
                  body es' st1) as [T1 T2]
  end.
  - lia.
  - intros x sti _ Io. unfold Path_push.
    assert (Nx : s ++ [name x] <> ["root"])
      by (apply snoc_not_root; exact Ne).
    destruct (isDirectory_ x).
    + destruct (copyAll H n (s ++ [name x]) (d ++ [name x]) sti)
        as [st2 o2] eqn:E2.
      destruct (IH (s ++ [name x]) (d ++ [name x]) sti st2 o2) as [U1 U2];
        try assumption.
      * rewrite !length_app. simpl. lia.
      * lia.
      * rewrite length_app. simpl. lia.
      * split; [exact U1|]. intros st3 X. inversion X; subst.
        specialize (U2 eq_refl). lia.
    + split; [apply fuelfree_copy|].
      intros st2 E2.
      destruct (copy_inv H _ _ _ _ E2) as (c' & m' & Ls & _ & Ch & _).
      destruct Ch as (_ & _ & _ & _ & Hh).
      apply height_lookup in Ls. rewrite !length_app in *. simpl in *.
      pose proof (height_pos (File c' m')). lia.
  - rewrite E in T1. split; [exact T1|]. intros ->. apply T2. exact E.
Qed.

End CopyAllTermination.

(* ================================================================= *)
(** ** A destination inside the source *)

(** A chain [b/b/.../b] of [k] nested directories, the last one empty. *)
Fixpoint nest (k : nat) : node :=
  match k with
  | O => Dir []
  | S j => Dir [("b", nest j)]
  end.

Definition chain (k : nat) : path := "a" :: repeat "b" k.

Definition chain_store (k : nat) : store := st_of [("a", nest k)].

Lemma nest_is_dir (k : nat) : exists es, nest k = Dir es.
Proof. destruct k; simpl; eauto. Qed.

Lemma lookup_nest (k j : nat) :
  lookup (nest (k + j)) (repeat "b" k) = Some (nest j).
Proof. induction k as [|k IH]; simpl; [reflexivity | exact IH]. Qed.

Lemma alter_nest (k : nat) :
  alter (on_entries (put_entry "b" (Dir []))) (repeat "b" k) (nest k)
  = nest (S k).
Proof.
  induction k as [|k IH]; [reflexivity|].
  change (repeat "b" (S k)) with ("b" :: repeat "b" k).
  change (nest (S k)) with (Dir [("b", nest k)]).
  simpl alter. simpl map_entry. rewrite IH. reflexivity.
Qed.

Lemma chain_snoc (k : nat) : chain k ++ ["b"] = chain (S k).
Proof.
  unfold chain. simpl. f_equal. symmetry. apply (repeat_cons k "b").
Qed.

Lemma chain_valid (k : nat) :
  chain k <> ["root"] /\ chain k <> []
  /\ Forall (fun x => x <> "") (chain k)
  /\ granted plain_host [] (chain k).
Proof.
  unfold chain. split; [discriminate|]. split; [discriminate|]. split.
  - constructor; [discriminate|]. apply Forall_forall.
    intros x I. apply repeat_spec in I. subst. discriminate.
  - intros q _ _. reflexivity.
Qed.

Lemma createDirectory_from_nest (j : nat) :
  forall loc st,
    lookup (root st) loc = Some (nest j) ->
    createDirectory_from plain_host (mkHandle DirectoryK loc)
      (repeat "b" (S j)) st
    = (set_root st
         (alter (on_entries (put_entry "b" (Dir []))) (loc ++ repeat "b" j)
            (root st)),
       Ok tt).
Proof.
  induction j as [|j IH]; intros loc st L.
  - simpl repeat. rewrite app_nil_r. simpl.
    unfold bind, getDirectoryHandle. simpl. rewrite L. reflexivity.
  - change (repeat "b" (S (S j))) with ("b" :: repeat "b" (S j)).
    change (createDirectory_from plain_host (mkHandle DirectoryK loc)
              ("b" :: repeat "b" (S j)))
      with (h' <- getDirectoryHandle plain_host (mkHandle DirectoryK loc) "b" true ;;
            createDirectory_from plain_host h' (repeat "b" (S j))).
    unfold bind.
    assert (Lb : lookup (root st) (loc ++ ["b"]) = Some (nest j)).
    { rewrite lookup_app, L. reflexivity. }
    destruct (nest_is_dir j) as [es Ej].
    rewrite (getDirectoryHandle_some plain_host (mkHandle DirectoryK loc)
               "b" true st es); simpl h_loc;
      [| discriminate | reflexivity | rewrite Lb, Ej; reflexivity].
    rewrite (IH (loc ++ ["b"]) st Lb).
    rewrite <- app_assoc. reflexivity.
Qed.

Lemma createDirectory_extends_chain (k : nat) :
  createDirectory plain_host (chain (S k)) (chain_store k)
  = (chain_store (S k), Ok tt).
Proof.
  unfold createDirectory, chain.
  change (createDirectory_from plain_host root_handle ("a" :: repeat "b" (S k)))
    with (h' <- getDirectoryHandle plain_host root_handle "a" true ;;
          createDirectory_from plain_host h' (repeat "b" (S k))).
  unfold bind.
  destruct (nest_is_dir k) as [es Ek].
  rewrite (getDirectoryHandle_some plain_host root_handle "a" true
             (chain_store k) es);
    [| discriminate | reflexivity | simpl; rewrite Ek; reflexivity].
  refine (eq_trans
            (createDirectory_from_nest k ["a"] (chain_store k) eq_refl) _).
  unfold chain_store, st_of, set_root. simpl root. simpl clock.
  f_equal. f_equal.
  change (["a"] ++ repeat "b" k) with ("a" :: repeat "b" k).
  simpl alter. simpl map_entry. rewrite alter_nest. reflexivity.
Qed.

(** [copyAll] of a directory into a fresh directory inside itself finds
    the destination among the entries it enumerates and recurses into it
    for ever: no amount of fuel is enough. *)
Lemma copyAll_into_own_subtree (n : nat) :
  forall k,
    snd (copyAll plain_host n (chain k) (chain (S k)) (chain_store k))
    = OutOfFuel.
Proof.
  induction n as [|n IH]; intros k; [reflexivity|].
  destruct (chain_valid k) as (Nr & Ne & F & G).
  assert (L0 : lookup (root (chain_store k)) (chain k) = Some (Dir [])).
  { unfold chain_store, chain. simpl.
    pose proof (lookup_nest k 0) as X. rewrite Nat.add_0_r in X. exact X. }
  pose proof (getDetails_some plain_host (chain k) default_options
                (chain_store k) (Dir []) Nr eq_refl Ne F G L0
                ltac:(discriminate)) as E0.
  assert (L1 : lookup (root (chain_store (S k))) (chain k)
               = Some (Dir [("b", Dir [])])).
  { unfold chain_store, chain. simpl.
    pose proof (lookup_nest k 1) as X. rewrite Nat.add_1_r in X. exact X. }
  pose proof (getDetails_some plain_host (chain k) default_options
                (chain_store (S k)) _ Nr eq_refl Ne F G L1
                ltac:(discriminate)) as E1.
  simpl copyAll. unfold bind at 1.
  rewrite (isFile_run plain_host _ _ _ E0). simpl.
  unfold bind at 1. rewrite (isDirectory_run plain_host _ _ _ E0). simpl.
  unfold bind at 1. rewrite createDirectory_extends_chain.
  unfold bind at 1.
  rewrite (list_dir plain_host (chain k) (chain_store (S k)) _ _ E1 eq_refl L1).
  simpl for_each. unfold bind at 1. unfold Path_push. simpl name.
  rewrite !chain_snoc. rewrite (surjective_pairing (copyAll _ _ _ _ _)).
  rewrite IH. reflexivity.
Qed.

(** For the root literal the source is the whole store, so every
    destination lies inside it. *)
Definition inside_source (s d : path) : Prop :=
  s = ["root"] \/ prefix s d = true.

(** C10: on every host and store, [copyAll(source, destination)]
    terminates whenever the destination is neither the source nor a path
    inside the source's subtree: any fuel above the height of the
    hierarchy is enough, because every recursive call descends to an entry
    of the source and no write goes deeper than the hierarchy already is
    (or, for a deeper destination, ever touches the source subtree).  No
    guard excludes a destination inside the source: there the enumeration
    includes the directory that was just created, and the recursion does
    not end. *)
Theorem copyAll_terminates_outside_source :
  (forall (H : host) (s d : path) (st : store) (n : nat),
      ~ inside_source s d ->
      (height (root st) < n)%nat ->
      snd (copyAll H n s d st) <> OutOfFuel)
  /\ (inside_source ["a"] ["a"; "b"]
      /\ snd (list_ plain_host ["a"]
                (fst (createDirectory plain_host ["a"; "b"]
                        (st_of [("a", Dir [])]))))
         = Ok [mkListEntry "b" true false false]
      /\ forall n,
           snd (copyAll plain_host n ["a"] ["a"; "b"] (st_of [("a", Dir [])]))
           = OutOfFuel).
Proof.
  split.
  - intros H s d st n Out Fuel.
    assert (Ns : s <> ["root"]) by (intros X; apply Out; left; exact X).
    assert (Psd : prefix s d = false).
    { destruct (prefix s d) eqn:P; [|reflexivity].
      destruct Out. right. exact P. }
    destruct (Nat.le_gt_cases (List.length d) (List.length s)) as [Len|Len].
    + destruct (copyAll H n s d st) as [stf o] eqn:E.
      destruct (copyAll_fuel_height H n s d st stf o) as [T _];
        try assumption; try lia.
    + destruct n as [|k]; [lia|].
      apply copyAll_fuel_disjoint; [| exact Ns |].
      * apply disjoint_spec. split; [exact Psd|].
        destruct (prefix d s) eqn:P; [|reflexivity].
        apply prefix_length in P. lia.
      * intros v L. apply height_lookup in L. lia.
  - split; [right; reflexivity|]. split; [reflexivity|].
    intros n. exact (copyAll_into_own_subtree n 0).
Qed.

(** Termination at work: copying a directory next to itself and into its
    parent. *)
Lemma copyAll_terminates_outside_source_witness :
  let st := st_of [("a", Dir [("b", Dir [("f", File (bs "x") 5)])])] in
  snd (copyAll plain_host 5 ["a"; "b"] ["c"; "d"; "e"] st) <> OutOfFuel
  /\ snd (copyAll plain_host 5 ["a"; "b"] ["a"] st) <> OutOfFuel.
Proof.
  cbv zeta. split.
  - apply (proj1 copyAll_terminates_outside_source).
    + intros [X|X]; discriminate.
    + vm_compute. lia.
  - apply (proj1 copyAll_terminates_outside_source).
    + intros [X|X]; discriminate.
    + vm_compute. lia.
Defined.

(* ================================================================= *)
(** ** Relocating a node *)

Lemma lookup_put_off (nm : string) (v : node) (loc q : path) (r : node) :
  disjoint q (loc ++ [nm]) = true ->
  lookup (alter (on_entries (put_entry nm v)) loc r) q = lookup r q.
Proof.
  intros D. apply disjoint_spec in D. destruct D as [Hq Hw].
  destruct (prefix loc q) eqn:Hlq.
  - apply prefix_spec in Hlq. destruct Hlq as [x ->].
    rewrite lookup_alter_below, lookup_app.
    destruct (lookup r loc) as [[d m|es]|]; simpl; try reflexivity.
    destruct x as [|a x].
    + rewrite app_nil_r, prefix_app in Hq. discriminate.
    + simpl. destruct (String.eqb_spec a nm) as [->|N].
      * replace (loc ++ nm :: x) with ((loc ++ [nm]) ++ x) in Hw
          by (rewrite <- app_assoc; reflexivity).
        rewrite prefix_app in Hw. discriminate.
      * rewrite find_entry_put_other by assumption. reflexivity.
  - apply lookup_alter_off; [assumption|].
    destruct (prefix q loc) eqn:E; [|reflexivity].
    assert (prefix q (loc ++ [nm]) = true)
      by (eapply prefix_trans; [exact E | apply prefix_app]).
    congruence.
Qed.

Lemma prefix_removelast (q s : path) :
  prefix q s = true -> q <> s -> prefix q (removelast s) = true.
Proof.
  intros P N. apply prefix_spec in P. destruct P as [r ->].
  destruct (path_snoc_cases r) as [->|[r' [n ->]]].
  - rewrite app_nil_r in N. congruence.
  - rewrite app_assoc, removelast_snoc. apply prefix_app.
Qed.

(** Removing the entry at [s] keeps every directory that is not at or
    below [s] a directory. *)
Lemma remove_keeps_dir (s q : path) (r : node) (es : entries) :
  s <> [] -> prefix s q = false ->
  lookup r q = Some (Dir es) ->
  exists es',
    lookup (alter (on_entries (remove_entry (last_name s))) (removelast s) r) q
    = Some (Dir es').
Proof.
  intros Ne P L. pose proof (path_split_last s Ne) as Sp.
  destruct (prefix q s) eqn:Pq.
  - assert (Nq : q <> s) by (intros ->; rewrite prefix_refl in P; discriminate).
    pose proof (prefix_removelast q s Pq Nq) as Pr.
    apply prefix_spec in Pr. destruct Pr as [x Pr]. rewrite Pr.
    rewrite lookup_alter_above, L. simpl.
    destruct (alter_on_entries_Dir (remove_entry (last_name s)) x es)
      as [es' ->].
    eauto.
  - exists es. rewrite lookup_remove_off; [exact L|].
    rewrite Sp. apply disjoint_spec. auto.
Qed.

(** The hierarchy after the node at [s] has been put below [ploc] under
    the name [nm]. *)
Definition relocate (s ploc : path) (nm : string) (v r : node) : node :=
  alter (on_entries (put_entry nm v)) ploc
    (alter (on_entries (remove_entry (last_name s))) (removelast s) r).

Lemma relocate_spec (s ploc : path) (nm : string) (v r : node) (es : entries) :
  s <> [] ->
  disjoint s (ploc ++ [nm]) = true ->
  lookup r s = Some v ->
  lookup r ploc = Some (Dir es) ->
  (forall es', lookup r (ploc ++ [nm]) <> Some (Dir es')) ->
  (forall rel, lookup (relocate s ploc nm v r) ((ploc ++ [nm]) ++ rel)
               = lookup r (s ++ rel))
  /\ lookup (relocate s ploc nm v r) s = None
  /\ (forall q, disjoint q s = true -> disjoint q (ploc ++ [nm]) = true ->
        lookup (relocate s ploc nm v r) q = lookup r q)
  /\ (forall q es0, prefix s q = false -> lookup r q = Some (Dir es0) ->
        exists es', lookup (relocate s ploc nm v r) q = Some (Dir es')).
Proof.
  intros Ne Dsd Ls Lp Nd. unfold relocate.
  pose proof (path_split_last s Ne) as Sp.
  pose proof Dsd as Dsd'. apply disjoint_spec in Dsd'.
  destruct Dsd' as [Psd Pds].
  set (r1 := alter (on_entries (remove_entry (last_name s))) (removelast s) r).
  assert (Psp : prefix s ploc = false).
  { destruct (prefix s ploc) eqn:P; [|reflexivity].
    rewrite (prefix_trans _ _ _ P (prefix_app ploc [nm])) in Psd.
    discriminate. }
  destruct (remove_keeps_dir s ploc r es Ne Psp Lp) as [es1 Lp1].
  fold r1 in Lp1.
  split; [|split; [|split]].
  - intros rel. rewrite <- app_assoc. simpl.
    rewrite lookup_alter_below, Lp1. simpl.
    rewrite find_entry_put_same, lookup_app, Ls. reflexivity.
  - rewrite lookup_put_off by exact Dsd.
    unfold r1. rewrite <- Sp at 3. apply lookup_remove_below.
  - intros q Dqs Dqd. rewrite lookup_put_off by exact Dqd.
    unfold r1. apply lookup_remove_off. rewrite Sp. exact Dqs.
  - intros q es0 Pq Lq.
    destruct (remove_keeps_dir s q r es0 Ne Pq Lq) as [es2 Lq1].
    fold r1 in Lq1.
    destruct (prefix q (ploc ++ [nm])) eqn:Pqd.
    + destruct (list_eq_dec string_dec q (ploc ++ [nm])) as [->|Nq].
      * exfalso. apply (Nd es0). exact Lq.
      * pose proof (prefix_removelast _ _ Pqd Nq) as Pr.
        rewrite removelast_snoc in Pr.
        apply prefix_spec in Pr. destruct Pr as [x Pr]. rewrite Pr.
        rewrite lookup_alter_above. rewrite Lq1. simpl.
        destruct (alter_on_entries_Dir (put_entry nm v) x es2) as [es' ->].
        eauto.
    + destruct (prefix (ploc ++ [nm]) q) eqn:Pdq.
      * exfalso. apply prefix_spec in Pdq. destruct Pdq as [x ->].
        destruct x as [|a x].
        -- rewrite app_nil_r, prefix_refl in Pqd. discriminate.
        -- destruct (lookup_prefix_dir r (ploc ++ [nm]) (a :: x) _ Lq)
             as [es3 L3]; [discriminate|].
           apply (Nd es3). exact L3.
      * exists es2. rewrite lookup_put_off; [exact Lq1|].
        apply disjoint_spec. auto.
Qed.

Section NativeMove.

Variable H : host.

Lemma native_move_inv (flt : option fault) (h : handle)
    (ph : option handle) (nm : option string) (st st' : store) :
  native_move H flt h ph nm st = (st', Ok tt) ->
  exists p n v es,
    ph = Some p /\ nm = Some n /\ n <> ""
    /\ access_fault H (h_loc p ++ [n]) = None
    /\ lookup (root st) (h_loc h) = Some v
    /\ lookup (root st) (h_loc p) = Some (Dir es)
    /\ prefix (h_loc h) (h_loc p) = false
    /\ (forall es', lookup (root st) (h_loc p ++ [n]) <> Some (Dir es'))
    /\ st' = set_root st
               (alter (on_entries (put_entry n v)) (h_loc p)
                  (alter (on_entries (remove_entry (h_name h)))
                     (removelast (h_loc h)) (root st))).
Proof.
  unfold native_move. intros E.
  destruct ph as [p|]; [|discriminate].
  destruct nm as [n|]; [|discriminate].
  destruct (String.eqb_spec n ""); [discriminate|].
  destruct flt; [discriminate|].
  destruct (access_fault H (h_loc p ++ [n])) eqn:A; [discriminate|].
  destruct (lookup (root st) (h_loc h)) as [v|] eqn:Lh; [|discriminate].
  destruct (lookup (root st) (h_loc p)) as [[d m|es]|] eqn:Lp;
    try discriminate.
  destruct (prefix (h_loc h) (h_loc p)) eqn:Pp; [discriminate|].
  exists p, n, v, es.
  assert (Ld : forall x, find_entry n es = x ->
            lookup (root st) (h_loc p ++ [n]) = x).
  { intros x Fx. rewrite lookup_app, Lp. simpl. rewrite Fx.
    destruct x; reflexivity. }
  destruct (find_entry n es) as [[d m|es']|] eqn:Fn; try discriminate;
    inv_pair; repeat (split; [solve [auto]|]);
    (split; [|reflexivity]);
    intros es'; rewrite (Ld _ eq_refl); discriminate.
Qed.

End NativeMove.

(* ================================================================= *)
(** ** [move] and [moveAll] on disjoint source and destination *)

(** Every file and directory that [st] holds at or below [s] is found at
    the same relative path below [d] in [st'], files with the same bytes,
    and [s] itself is gone. *)
Definition moved (s d : path) (st st' : store) : Prop :=
  (forall rel c m,
      lookup (root st) (s ++ rel) = Some (File c m) ->
      exists m', lookup (root st') (d ++ rel) = Some (File c m'))
  /\ (forall rel es,
        lookup (root st) (s ++ rel) = Some (Dir es) ->
        exists es', lookup (root st') (d ++ rel) = Some (Dir es'))
  /\ lookup (root st') s = None.

(** Nothing off the branches of [s] and [d] has changed. *)
Definition off_limits2 (s d : path) (st st' : store) : Prop :=
  forall q, disjoint q s = true -> disjoint q d = true ->
            lookup (root st') q = lookup (root st) q.

(** Directories that are not at or below [s] are still directories. *)
Definition dirs_kept_off (s : path) (st st' : store) : Prop :=
  forall q es, prefix s q = false -> lookup (root st) q = Some (Dir es) ->
               exists es', lookup (root st') q = Some (Dir es').

Lemma disjoint_not_prefix_removelast (q d : path) :
  prefix q d = false -> prefix q (removelast d) = false.
Proof.
  intros P. destruct (prefix q (removelast d)) eqn:E; [|reflexivity].
  destruct (path_snoc_cases d) as [->|[x [n ->]]].
  - simpl in E. rewrite E in P. discriminate.
  - rewrite removelast_snoc in E.
    rewrite (prefix_trans _ _ _ E (prefix_app x [n])) in P. discriminate.
Qed.

Lemma Path_name_last (d : path) (n : string) :
  Path_name d = Some n -> d = removelast d ++ [n] /\ d <> [].
Proof.
  intros E. destruct (path_snoc_cases d) as [->|[x [m ->]]];
    [discriminate|].
  rewrite Path_name_app in E. inversion E; subst.
  rewrite removelast_snoc. split; [reflexivity|].
  destruct x; discriminate.
Qed.

Section MoveSpec.

Variable H : host.

Lemma native_move_throw_store (flt : option fault) (h : handle)
    (ph : option handle) (nm : option string) (st st' : store) (e : error) :
  native_move H flt h ph nm st = (st', Throw e) -> st' = st.
Proof.
  unfold native_move. intros E.
  destruct ph as [p|]; [|inv_pair; reflexivity].
  destruct nm as [n|]; [|inv_pair; reflexivity].
  destruct (String.eqb n ""); [inv_pair; reflexivity|].
  destruct flt; [inv_pair; reflexivity|].
  destruct (access_fault H (h_loc p ++ [n])); [inv_pair; reflexivity|].
  destruct (lookup (root st) (h_loc h)); [|inv_pair; reflexivity].
  destruct (lookup (root st) (h_loc p)) as [[d m|es]|];
    try (inv_pair; reflexivity).
  destruct (prefix (h_loc h) (h_loc p)); [inv_pair; reflexivity|].
  destruct (find_entry n es) as [[d m|es']|]; inv_pair; reflexivity.
Qed.

(** Resolving the destination's parent and moving the node there. *)
Lemma relocation_spec (flt : option fault) (s d : path) (h : handle)
    (v : node) (st st1 st' : store) (dp : option handle) :
  s <> [] -> h_loc h = s -> lookup (root st) s = Some v ->
  disjoint s d = true -> removelast d <> ["root"] ->
  getDetails H (removelast d) (mkOptions false true (Some DirectoryK)) st
    = (st1, Ok dp) ->
  native_move H flt h dp (Path_name d) st1 = (st', Ok tt) ->
  moved s d st st' /\ off_limits2 s d st st' /\ dirs_kept_off s st st'
  /\ d <> [] /\ Forall (fun x => x <> "") d.
Proof.
  intros Ne Hl Ls Dsd Nr Ep Em.
  destruct (getDetails_inv H _ _ _ _ _ Nr Ep) as (Gr & _ & r & X & K).
  inversion X; subst r; clear X.
  unfold resolved, target in K; simpl in K, Gr.
  destruct (native_move_inv H _ _ _ _ _ _ Em)
    as (p & n & v1 & es & -> & En & Hn & A & Lh & Lp & _ & Nd & ->).
  destruct (K p eq_refl) as (Pl & _ & Fp & _ & _ & _).
  destruct (Path_name_last d n En) as [Ed Ned].
  rewrite Pl in *. rewrite Hl in *.
  pose proof Dsd as Dsd'. apply disjoint_spec in Dsd'.
  destruct Dsd' as [Psd Pds].
  destruct Gr as (_ & Fr & _ & Dk & _).
  assert (Src : forall rel,
            lookup (root st1) (s ++ rel) = lookup (root st) (s ++ rel)).
  { intros rel. apply Fr. apply disjoint_not_prefix_removelast.
    apply prefix_false_app; assumption. }
  assert (Lv : lookup (root st1) s = Some v).
  { rewrite <- (app_nil_r s), Src, app_nil_r. exact Ls. }
  rewrite Lv in Lh. inversion Lh; subst v1; clear Lh.
  assert (Hname : h_name h = last_name s).
  { unfold h_name, last_name. rewrite Hl. reflexivity. }
  rewrite Hname.
  assert (Dsd1 : disjoint s (removelast d ++ [n]) = true)
    by (rewrite <- Ed; exact Dsd).
  destruct (relocate_spec s (removelast d) n v (root st1) es
              Ne Dsd1 Lv Lp Nd) as (R1 & R2 & R3 & R4).
  unfold relocate in *. rewrite <- Ed in R1, R3. simpl root.
  split; [|split; [|split; [|split]]].
  - split; [|split].
    + intros rel c m L. exists m. rewrite R1, Src. exact L.
    + intros rel es0 L. exists es0. rewrite R1, Src. exact L.
    + exact R2.
  - intros q Dqs Dqd. rewrite R3 by assumption. apply Fr.
    apply disjoint_not_prefix_removelast.
    apply disjoint_spec in Dqd. tauto.
  - intros q es0 Pq Lq. destruct (Dk _ _ Lq) as [es1 L1].
    eapply R4; eauto.
  - exact Ned.
  - rewrite Ed. apply Forall_app. split; [exact Fp|].
    constructor; [exact Hn | constructor].
Qed.

End MoveSpec.

Section MoveAllSpec.

Variable H : host.

(** What a successful single-file [move] has done. *)
Lemma move_spec (s d : path) (st st' : store) :
  disjoint s d = true -> removelast d <> ["root"] ->
  move H s d st = (st', Ok tt) ->
  moved s d st st' /\ off_limits2 s d st st' /\ dirs_kept_off s st st'
  /\ d <> [] /\ Forall (fun x => x <> "") d.
Proof.
  intros Dsd Nr E. unfold move in E. unfold bind at 1 in E.
  destruct (getDetails_default_cases H s st)
    as [E0|[[-> E0]|(Ns & h & E0 & R & G)]]; rewrite E0 in E;
    try discriminate.
  destruct R as (Hl & Ne & F & A & (v & L & K) & _).
  destruct (h_kind h) eqn:Kh; [|discriminate].
  destruct v as [c m|es]; [|discriminate].
  unfold Path_pop in E. unfold bind at 1 in E.
  destruct (getDetails_total H (removelast d)
              (mkOptions false true (Some DirectoryK)) st)
    as (st1 & dp & Ep & _).
  rewrite Ep in E. unfold bind at 1 in E. unfold attempt in E.
  destruct (native_move H (file_move_fault H) h dp (Path_name d) st1)
    as [st2 [[]|ex|]] eqn:Em.
  - (* the native move went through *)
    unfold ret in E. inv_pair.
    eapply relocation_spec; eauto.
  - (* the native move was refused *)
    pose proof (native_move_throw_store H _ _ _ _ _ _ _ Em); subst st2.
    destruct (String.eqb (error_name ex) "NotAllowedError");
      [|discriminate].
    unfold bind in E.
    destruct (copy H s d st1) as [st2 [[]|e|]] eqn:Ec; try discriminate.
    destruct (getDetails_inv H _ _ _ _ _ Nr Ep) as (Gr & _ & _).
    simpl target in Gr. destruct Gr as (_ & Fr & _ & Dk1 & _).
    pose proof Dsd as Dsd'. apply disjoint_spec in Dsd'.
    destruct Dsd' as [Psd Pds].
    destruct (copy_inv H s d st1 st2 Ec)
      as (c1 & m1 & Ls1 & Ld & Ch & _ & Nd & _ & Ned & _ & Fd & _ & _).
    assert (L1 : lookup (root st1) s = Some (File c m)).
    { rewrite Fr; [exact L|].
      apply disjoint_not_prefix_removelast. exact Psd. }
    rewrite L1 in Ls1. inversion Ls1; subst c1 m1; clear Ls1.
    destruct Ch as (_ & Fr2 & Fk2 & Dk2 & _).
    assert (Nsd : s <> d).
    { intros X. rewrite X, prefix_refl in Psd. discriminate. }
    pose proof (Fk2 s c m Nsd L1) as L2.
    pose proof (getDetails_some H s default_options st2 (File c m)
                  Ns eq_refl Ne F G L2 ltac:(discriminate)) as E2.
    assert (R : resolved H None s st2 (mkHandle (node_kind (File c m)) s)).
    { unfold resolved. simpl.
      repeat (split; [solve [auto]|]).
      split; [eauto | discriminate]. }
    destruct (delete_resolved H s st2 _ Ns E2 R G) as (v & Lv & _ & Dl).
    rewrite L2 in Lv. inversion Lv; subst v. rewrite Dl in E.
    inversion E; subst st'; clear E. simpl root.
    pose proof (path_split_last s Ne) as Sp.
    assert (Off : forall q, disjoint q s = true ->
              lookup (alter (on_entries (remove_entry (last_name s)))
                        (removelast s) (root st2)) q
              = lookup (root st2) q).
    { intros q Dq. apply lookup_remove_off. rewrite Sp. exact Dq. }
    split; [|split; [|split; [|split]]].
    + split; [|split].
      * intros rel c0 m0 L0. destruct rel as [|a rel].
        -- rewrite app_nil_r in *. rewrite L in L0. inversion L0; subst.
           exists (clock st1). rewrite Off; [exact Ld|].
           rewrite disjoint_sym. exact Dsd.
        -- rewrite (lookup_file_below _ _ (a :: rel) _ _ L) in L0;
             discriminate.
      * intros rel es0 L0. destruct rel as [|a rel].
        -- rewrite app_nil_r in *. congruence.
        -- rewrite (lookup_file_below _ _ (a :: rel) _ _ L) in L0;
             discriminate.
      * rewrite <- Sp at 3. apply lookup_remove_below.
    + intros q Dqs Dqd. rewrite Off by exact Dqs.
      apply disjoint_spec in Dqd. destruct Dqd as [Pqd _].
      rewrite Fr2 by exact Pqd. apply Fr.
      apply disjoint_not_prefix_removelast. exact Pqd.
    + intros q es0 Pq Lq.
      destruct (Dk1 _ _ Lq) as [es1 Lq1].
      destruct (Dk2 _ _ Lq1) as [es2 Lq2].
      eapply remove_keeps_dir; eauto.
    + exact Ned.
    + exact Fd.
  - pose proof (fuelfree_native_move H (file_move_fault H) h dp
                  (Path_name d) st1) as X.
    rewrite Em in X. simpl in X. congruence.
Qed.

Lemma move_absent (s d : path) (st st' : store) :
  s <> ["root"] -> lookup (root st) s = None ->
  move H s d st <> (st', Ok tt).
Proof.
  intros Ns L E. unfold move, bind in E.
  rewrite (getDetails_none H s default_options st Ns eq_refl L) in E.
  discriminate.
Qed.

Lemma moveAll_absent (n : nat) (s d : path) (st st' : store) :
  s <> ["root"] -> lookup (root st) s = None ->
  moveAll H n s d st <> (st', Ok tt).
Proof.
  intros Ns L E. destruct n as [|n]; [discriminate|].
  simpl in E. unfold bind in E.
  rewrite (getDetails_none H s default_options st Ns eq_refl L) in E.
  discriminate.
Qed.

(** What a successful [moveAll] has done, when neither path lies on the
    other's branch. *)
Lemma moveAll_spec (n : nat) :
  forall s d st st',
    disjoint s d = true -> s <> ["root"] ->
    d <> ["root"] -> removelast d <> ["root"] ->
    moveAll H n s d st = (st', Ok tt) ->
    moved s d st st' /\ off_limits2 s d st st' /\ dirs_kept_off s st st'
    /\ d <> [] /\ Forall (fun x => x <> "") d.
Proof.
  induction n as [|n IH]; intros s d st st' Dsd Ns Nd Nr E; [discriminate|].
  simpl in E. unfold bind at 1 in E.
  destruct (getDetails_default_cases H s st)
    as [E0|[[-> E0]|(_ & h & E0 & R & G)]]; rewrite E0 in E;
    [discriminate | congruence |].
  destruct R as (Hl & Ne & F & A & (v & L & K) & _).
  destruct v as [c m|es]; simpl in K; rewrite <- K in E.
  { apply move_spec; assumption. }
  destruct (dir_move H) as [flt|].
  { (* the host moves directories natively *)
    unfold Path_pop in E. unfold bind at 1 in E.
    destruct (getDetails_total H (removelast d)
                (mkOptions false true (Some DirectoryK)) st)
      as (st1 & dp & Ep & _).
    rewrite Ep in E. eapply relocation_spec; eauto. }
  (* entry by entry, then the source directory itself *)
  unfold bind at 1 in E.
  destruct (createDirectory H d st) as [st1 [[]|e|]] eqn:Ec; try discriminate.
  destruct (createDirectory_inv H d st st1 Ec) as (Gr & Fd & _ & Ld).
  pose proof Dsd as Dsd'. apply disjoint_spec in Dsd'.
  destruct Dsd' as [Psd Pds].
  assert (Ned : d <> []) by (intros ->; destruct s; discriminate).
  destruct (Ld Ned) as [esd Ldd].
  destruct Gr as (_ & Fr & _ & Dk1 & _).
  assert (L1 : lookup (root st1) s = Some (Dir es)) by (rewrite Fr; auto).
  pose proof (getDetails_some H s default_options st1 (Dir es)
                Ns eq_refl Ne F G L1 ltac:(discriminate)) as E1.
  unfold bind at 1 in E.
  rewrite (list_dir H s st1 _ es E1 eq_refl L1) in E.
  unfold bind at 1 in E.
  set (body := fun entry : list_entry =>
         if isDirectory_ entry
         then moveAll H n (Path_push s (name entry)) (Path_push d (name entry))
         else move H (Path_push s (name entry)) (Path_push d (name entry)))
    in E.
  destruct (for_each (map to_list_entry (map entry_of es)) body st1)
    as [st2 [[]|e|]] eqn:El; try discriminate.
  set (Inv := fun (done : list list_entry) (sti : store) =>
         off_limits2 s d st sti
         /\ dirs_kept_off s st sti
         /\ (exists esd', lookup (root sti) d = Some (Dir esd'))
         /\ (forall nm rel, ~ In nm (map name done) ->
               lookup (root sti) (s ++ nm :: rel)
               = lookup (root st) (s ++ nm :: rel))
         /\ forall e, In e done ->
              moved (s ++ [name e]) (d ++ [name e]) st sti).
  assert (I0 : Inv [] st1).
  { unfold Inv. split; [|split; [|split; [|split]]].
    - intros q _ Dq. apply Fr. apply disjoint_spec in Dq. tauto.
    - intros q es0 _ Lq. eapply Dk1; eauto.
    - eauto.
    - intros nm rel _. apply Fr. apply prefix_false_app; assumption.
    - intros e []. }
  assert (Step : forall done' x st3 st4,
            Inv done' st3 ->
            In x (map to_list_entry (map entry_of es)) ->
            body x st3 = (st4, Ok tt) ->
            Inv (done' ++ [x]) st4).
  { intros done' x st3 st4 (Io & Ik & (esd3 & Id) & Iu & Im) _ B.
    assert (Nx : s ++ [name x] <> ["root"])
      by (apply snoc_not_root; exact Ne).
    assert (Fresh : ~ In (name x) (map name done')).
    { intros I. apply in_map_iff in I. destruct I as (e & En & Ie).
      destruct (Im e Ie) as (_ & _ & Gone). rewrite En in Gone.
      unfold body, Path_push in B. destruct (isDirectory_ x).
      - exact (moveAll_absent n _ _ _ _ Nx Gone B).
      - exact (move_absent _ _ _ _ Nx Gone B). }
    assert (Dx : disjoint (s ++ [name x]) (d ++ [name x]) = true)
      by (apply disjoint_app; exact Dsd).
    assert (T : moved (s ++ [name x]) (d ++ [name x]) st3 st4
                /\ off_limits2 (s ++ [name x]) (d ++ [name x]) st3 st4
                /\ dirs_kept_off (s ++ [name x]) st3 st4).
    { unfold body, Path_push in B.
      assert (Nd' : d ++ [name x] <> ["root"])
        by (apply snoc_not_root; exact Ned).
      assert (Nr' : removelast (d ++ [name x]) <> ["root"])
        by (rewrite removelast_snoc; exact Nd).
      destruct (isDirectory_ x).
      - destruct (IH _ _ _ _ Dx Nx Nd' Nr' B) as (X1 & X2 & X3 & _). auto.
      - destruct (move_spec _ _ _ _ Dx Nr' B) as (X1 & X2 & X3 & _). auto. }
    destruct T as ((Tf & Td & Tg) & To & Tk).
    assert (Side : forall q,
              disjoint q (s ++ [name x]) = true ->
              disjoint q (d ++ [name x]) = true ->
              lookup (root st4) q = lookup (root st3) q)
      by exact To.
    assert (UnderD : forall nm rel, nm <> name x ->
              lookup (root st4) ((d ++ [nm]) ++ rel)
              = lookup (root st3) ((d ++ [nm]) ++ rel)).
    { intros nm rel Nn. apply Side.
      - rewrite disjoint_sym. rewrite <- app_assoc.
        apply disjoint_app. exact Dsd.
      - rewrite <- app_assoc. simpl.
        rewrite <- (app_nil_r (d ++ [name x])), <- app_assoc. simpl.
        apply disjoint_siblings. exact Nn. }
    assert (UnderS : forall nm rel, nm <> name x ->
              lookup (root st4) (s ++ nm :: rel)
              = lookup (root st3) (s ++ nm :: rel)).
    { intros nm rel Nn. apply Side.
      - rewrite <- (app_nil_r (s ++ [name x])), <- app_assoc. simpl.
        apply disjoint_siblings. exact Nn.
      - replace (s ++ nm :: rel) with ((s ++ [nm]) ++ rel)
          by (rewrite <- app_assoc; reflexivity).
        rewrite <- app_assoc. apply disjoint_app. exact Dsd. }
    unfold Inv. split; [|split; [|split; [|split]]].
    - intros q Dqs Dqd. rewrite Side, Io; auto.
      + apply disjoint_app_r; exact Dqs.
      + apply disjoint_app_r; exact Dqd.
    - intros q es0 Pq Lq. destruct (Ik _ _ Pq Lq) as [es1 L3].
      eapply Tk; eauto.
      destruct (prefix (s ++ [name x]) q) eqn:P; [|reflexivity].
      rewrite (prefix_trans _ _ _ (prefix_app s [name x]) P) in Pq.
      discriminate.
    - eapply Tk; eauto.
      destruct (prefix (s ++ [name x]) d) eqn:P; [|reflexivity].
      rewrite (prefix_trans _ _ _ (prefix_app s [name x]) P) in Psd.
      discriminate.
    - intros nm rel Nin. rewrite map_app, in_app_iff in Nin. simpl in Nin.
      rewrite UnderS by (intros X; apply Nin; right; left; symmetry; exact X).
      apply Iu. tauto.
    - intros e In'.
      destruct (String.eqb_spec (name e) (name x)) as [Eq|Neq].
      + rewrite Eq.
        assert (Src : forall rel,
                  lookup (root st3) ((s ++ [name x]) ++ rel)
                  = lookup (root st) ((s ++ [name x]) ++ rel)).
        { intros rel. rewrite <- app_assoc. simpl. apply Iu. exact Fresh. }
        split; [|split].
        * intros rel c0 m0 L0. rewrite <- Src in L0. eapply Tf; exact L0.
        * intros rel es0 L0. rewrite <- Src in L0. eapply Td; exact L0.
        * exact Tg.
      + apply in_app_or in In'. destruct In' as [In'|[<-|[]]]; [|congruence].
        destruct (Im e In') as (Cf & Cd & Cg).
        split; [|split].
        * intros rel c0 m0 L0. destruct (Cf _ _ _ L0) as (m' & X3).
          exists m'. rewrite UnderD by exact Neq. exact X3.
        * intros rel es0 L0. destruct (Cd _ _ L0) as (es' & X3).
          exists es'. rewrite UnderD by exact Neq. exact X3.
        * rewrite <- (app_nil_r [name e]), app_assoc in Cg.
          rewrite <- (app_nil_r [name e]), app_assoc.
          rewrite <- app_assoc in *. simpl in *.
          rewrite UnderS by exact Neq. exact Cg. }
  pose proof (for_each_inv Inv body _ [] st1 st2 I0 Step El)
    as (Fo & Fk & (esd2 & Fdd) & _ & Fm).
  simpl in Fm.
  (* the source directory is deleted last *)
  destruct (getDetails_default_cases H s st2)
    as [E2|[[-> E2]|(_ & h2 & E2 & R2 & G2)]];
    [ rewrite (delete_absent H s st2 E2) in E; discriminate
    | congruence |].
  destruct (delete_resolved H s st2 h2 Ns E2 R2 G2) as (v2 & Lv2 & _ & Dl).
  rewrite Dl in E.
  assert (Est : st' = set_root st2
                        (alter (on_entries (remove_entry (last_name s)))
                           (removelast s) (root st2))).
  { destruct v2 as [c2 m2|[|y ys]]; inv_pair; reflexivity. }
  clear E Dl. subst st'. simpl root.
  pose proof (path_split_last s Ne) as Sp.
  assert (Off : forall q, disjoint q s = true ->
            lookup (alter (on_entries (remove_entry (last_name s)))
                      (removelast s) (root st2)) q
            = lookup (root st2) q).
  { intros q Dq. apply lookup_remove_off. rewrite Sp. exact Dq. }
  assert (Dds : forall rel, disjoint (d ++ rel) s = true).
  { intros rel. rewrite disjoint_sym. apply disjoint_app_r. exact Dsd. }
  split; [|split; [|split; [|split]]].
  - split; [|split].
    + intros rel c0 m0 L0. destruct rel as [|a rel].
      * rewrite app_nil_r in L0. congruence.
      * pose proof L0 as L0'. rewrite lookup_app, L in L0'. simpl in L0'.
        destruct (find_entry a es) as [child|] eqn:Fa; [|discriminate].
        destruct (find_entry_listed a es child Fa) as (e & Ie & <-).
        destruct (Fm e Ie) as (Cf & _).
        specialize (Cf rel c0 m0). rewrite <- !app_assoc in Cf. simpl in Cf.
        destruct (Cf L0) as [m' X]. exists m'. rewrite Off; [exact X|].
        apply Dds.
    + intros rel es0 L0. destruct rel as [|a rel].
      * rewrite app_nil_r. exists esd2. rewrite Off; [exact Fdd|].
        rewrite <- (app_nil_r d). apply Dds.
      * pose proof L0 as L0'. rewrite lookup_app, L in L0'. simpl in L0'.
        destruct (find_entry a es) as [child|] eqn:Fa; [|discriminate].
        destruct (find_entry_listed a es child Fa) as (e & Ie & <-).
        destruct (Fm e Ie) as (_ & Cd & _).
        specialize (Cd rel es0). rewrite <- !app_assoc in Cd. simpl in Cd.
        destruct (Cd L0) as [es' X]. exists es'. rewrite Off; [exact X|].
        apply Dds.
    + rewrite <- Sp at 3. apply lookup_remove_below.
  - intros q Dqs Dqd. rewrite Off by exact Dqs. apply Fo; assumption.
  - intros q es0 Pq Lq. destruct (Fk _ _ Pq Lq) as [es1 L3].
    eapply remove_keeps_dir; eauto.
  - exact Ned.
  - exact Fd.
Qed.

End MoveAllSpec.

Section MoveInside.

Variable H : host.

(** A file cannot be moved below itself. *)
Lemma move_inside_fails (s d : path) (st st' : store) :
  prefix s d = true -> s <> d ->
  move H s d st <> (st', Ok tt).
Proof.
  intros P Nsd E. unfold move in E. unfold bind at 1 in E.
  destruct (getDetails_default_cases H s st)
    as [E0|[[-> E0]|(Ns & h & E0 & R & G)]]; rewrite E0 in E;
    try discriminate.
  destruct R as (Hl & Ne & F & A & (v & L & K) & _).
  destruct (h_kind h) eqn:Kh; [|discriminate].
  destruct v as [c m|es]; [|discriminate].
  pose proof (prefix_removelast s d P Nsd) as Pr.
  assert (Nr : removelast d <> ["root"]).
  { intros X. rewrite X in Pr.
    destruct s as [|a s]; [congruence|]. simpl in Pr.
    apply andb_true_iff in Pr. destruct Pr as [Ea Pr].
    apply String.eqb_eq in Ea. destruct s; [congruence | discriminate]. }
  unfold Path_pop in E. unfold bind at 1 in E.
  destruct (getDetails H (removelast d)
              (mkOptions false true (Some DirectoryK)) st)
    as [st1 out] eqn:Ep.
  destruct (getDetails_inv H _ _ _ _ _ Nr Ep) as (Gr & _ & r & -> & Kr).
  unfold resolved, target in Kr; simpl in Kr, Gr.
  destruct Gr as (_ & _ & Fk & _ & _).
  pose proof (Fk _ _ _ L) as L1.
  destruct r as [ph|].
  - destruct (Kr ph eq_refl) as (_ & _ & _ & _ & (v' & Lv & Kv) & Kk).
    specialize (Kk _ eq_refl).
    pose proof (file_not_above _ _ _ _ _ _ L1 Lv Pr) as X.
    rewrite <- X, L1 in Lv. inversion Lv; subst v'.
    simpl in Kv. congruence.
  - unfold bind, attempt, native_move in E. simpl in E. discriminate.
Qed.

(** [moveAll] into a directory strictly inside the source never
    completes. *)
Lemma moveAll_inside_fails (n : nat) :
  forall s d st st',
    prefix s d = true -> s <> d -> s <> ["root"] ->
    d <> ["root"] -> removelast d <> ["root"] ->
    moveAll H n s d st <> (st', Ok tt).
Proof.
  induction n as [|n IH]; intros s d st st' P Nsd Ns Nd Nr E;
    [discriminate|].
  simpl in E. unfold bind at 1 in E.
  destruct (getDetails_default_cases H s st)
    as [E0|[[-> E0]|(_ & h & E0 & R & G)]]; rewrite E0 in E;
    [discriminate | congruence |].
  destruct R as (Hl & Ne & F & A & (v & L & K) & _).
  destruct v as [c m|es]; simpl in K; rewrite <- K in E.
  { exact (move_inside_fails s d st st' P Nsd E). }
  pose proof (prefix_removelast s d P Nsd) as Pr.
  destruct (dir_move H) as [flt|].
  { unfold Path_pop in E. unfold bind at 1 in E.
    destruct (getDetails H (removelast d)
                (mkOptions false true (Some DirectoryK)) st)
      as [st1 out] eqn:Ep.
    destruct (getDetails_inv H _ _ _ _ _ Nr Ep) as (_ & _ & r & -> & Kr).
    unfold resolved, target in Kr; simpl in Kr.
    destruct (native_move_inv H _ _ _ _ _ _ E)
      as (p & nm & v1 & es1 & -> & _ & _ & _ & _ & _ & Pp & _).
    destruct (Kr p eq_refl) as (Pl & _).
    rewrite Pl, Hl in Pp. congruence. }
  unfold bind at 1 in E.
  destruct (createDirectory H d st) as [st1 [[]|e|]] eqn:Ec; try discriminate.
  destruct (createDirectory_inv H d st st1 Ec) as (Gr & Fd & Gd & Ld).
  apply prefix_spec in P. destruct P as [r ->].
  destruct r as [|r1 r]; [rewrite app_nil_r in Nsd; congruence|].
  destruct Ld as [esd Ldd]; [destruct s; discriminate|].
  assert (Lc : exists esc, lookup (root st1) (s ++ [r1]) = Some (Dir esc)).
  { replace (s ++ r1 :: r) with ((s ++ [r1]) ++ r) in Ldd
      by (rewrite <- app_assoc; reflexivity).
    destruct r as [|r2 r].
    - rewrite app_nil_r in Ldd. eauto.
    - eapply lookup_prefix_dir; [exact Ldd | discriminate]. }
  destruct Lc as [esc Lc].
  destruct (lookup_snoc_dir _ _ _ _ Lc) as (es1 & L1 & F1).
  pose proof (getDetails_some H s default_options st1 (Dir es1)
                Ns eq_refl Ne F G L1 ltac:(discriminate)) as E1.
  unfold bind at 1 in E.
  rewrite (list_dir H s st1 _ es1 E1 eq_refl L1) in E.
  unfold bind at 1 in E.
  match type of E with
  | match for_each ?xs ?body ?st0 with _ => _ end = _ =>
      destruct (for_each xs body st0) as [st2 [[]|e|]] eqn:El;
        try discriminate
  end.
  apply find_entry_In in F1.
  assert (I : In (to_list_entry (entry_of (r1, Dir esc)))
                (map to_list_entry (map entry_of es1)))
    by (apply in_map, in_map; exact F1).
  destruct (for_each_all_ok _ _ _ _ El _ I) as (sti & stj & B).
  unfold Path_push in B. simpl in B.
  eapply (IH (s ++ [r1]) ((s ++ r1 :: r) ++ [r1])); [| | | | | exact B].
  - rewrite <- app_assoc. simpl. rewrite prefix_app_l. simpl.
    rewrite String.eqb_refl. reflexivity.
  - intros X. apply (f_equal (@List.length string)) in X.
    rewrite !length_app in X. simpl in X. lia.
  - apply snoc_not_root; exact Ne.
  - apply snoc_not_root. destruct s; discriminate.
  - rewrite removelast_snoc. exact Nd.
Qed.

End MoveInside.

(** [moveAll] from the root literal never completes: a native move of
    the root is refused, and the entry-by-entry move leaves the first
    directory of the destination in the root, which the final [delete]
    then finds non-empty. *)
Lemma moveAll_root_fails (H : host) (n : nat) (d : path) (st st' : store) :
  prefix d ["root"] = false ->
  moveAll H n ["root"] d st <> (st', Ok tt).
Proof.
  intros P E. destruct n as [|n]; [discriminate|].
  simpl in E. unfold bind at 1 in E. rewrite getDetails_root in E.
  simpl in E.
  destruct (dir_move H) as [flt|].
  { unfold Path_pop in E. unfold bind at 1 in E.
    destruct (getDetails H (removelast d)
                (mkOptions false true (Some DirectoryK)) st)
      as [st1 [out|e|]]; try discriminate.
    destruct (native_move_inv H _ _ _ _ _ _ E)
      as (p & nm & v1 & es1 & _ & _ & _ & _ & _ & _ & Pp & _).
    simpl in Pp. discriminate. }
  unfold bind at 1 in E.
  destruct (createDirectory H d st) as [st1 [[]|e|]] eqn:Ec; try discriminate.
  destruct (createDirectory_inv H d st st1 Ec) as (_ & _ & _ & Ld).
  destruct d as [|a r]; [discriminate|].
  destruct Ld as [esd Ldd]; [discriminate|].
  assert (Nd : a :: r <> ["root"]).
  { intros X. rewrite X in P. simpl in P. discriminate. }
  assert (La : exists esa, lookup (root st1) [a] = Some (Dir esa)).
  { destruct r as [|b r]; [eauto|].
    apply (lookup_prefix_dir (root st1) [a] (b :: r) _ Ldd). discriminate. }
  destruct La as [esa La].
  destruct (lookup_snoc_dir (root st1) [] a _ La) as (es1 & L1 & F1).
  unfold bind at 1 in E.
  rewrite (list_dir H ["root"] st1 root_handle es1
             (getDetails_root H _ st1) eq_refl L1) in E.
  unfold bind at 1 in E.
  match type of E with
  | match for_each ?xs ?body ?st0 with _ => _ end = _ =>
      destruct (for_each xs body st0) as [st2 [[]|e|]] eqn:El;
        try discriminate
  end.
  assert (Keep : exists es, lookup (root st2) [a] = Some (Dir es)).
  { refine (for_each_inv
              (fun _ st0 => exists es, lookup (root st0) [a] = Some (Dir es))
              _ _ [] st1 st2 (ex_intro _ esa La) _ El).
    intros done' x sa sb [esx Lsa] _ B.
    unfold Path_push in B. simpl in B.
    assert (Pd : prefix (a :: r ++ [name x]) ["root"; name x] = false).
    { simpl. destruct r as [|b [|c r]]; simpl.
      - simpl in P. rewrite andb_true_r in P. rewrite P. reflexivity.
      - rewrite !andb_false_r. reflexivity.
      - rewrite !andb_false_r. reflexivity. }
    assert (Dk : dirs_kept_off ["root"; name x] sa sb).
    { destruct (prefix ["root"; name x] (a :: r ++ [name x])) eqn:Pin.
      - exfalso.
        assert (Nsd : ["root"; name x] <> a :: r ++ [name x]).
        { intros X. rewrite <- X in Pd. rewrite prefix_refl in Pd.
          discriminate. }
        destruct (isDirectory_ x).
        + apply (moveAll_inside_fails H n _ _ sa sb Pin Nsd);
            [discriminate | | | exact B].
          * destruct r; discriminate.
          * change (a :: r ++ [name x]) with (((a :: r) ++ [name x])%list).
            rewrite removelast_snoc. exact Nd.
        + exact (move_inside_fails H _ _ sa sb Pin Nsd B).
      - assert (Dj : disjoint ["root"; name x] (a :: r ++ [name x]) = true)
          by (apply disjoint_spec; split; assumption).
        assert (Nr : removelast (a :: r ++ [name x]) <> ["root"]).
        { change (a :: r ++ [name x]) with (((a :: r) ++ [name x])%list).
          rewrite removelast_snoc. exact Nd. }
        destruct (isDirectory_ x).
        + destruct (moveAll_spec H n _ _ sa sb Dj) as (_ & _ & Dk & _);
            [discriminate | destruct r; discriminate | exact Nr | exact B
            | exact Dk].
        + destruct (move_spec H _ _ sa sb Dj Nr B) as (_ & _ & Dk & _).
          exact Dk. }
    apply (Dk [a] esx); [|exact Lsa].
    simpl. rewrite andb_false_r. reflexivity. }
  cbv beta iota in E. rewrite delete_root_literal in E.
  destruct Keep as [esk Lk].
  destruct (root st2) as [c m|[|e2 es2]]; simpl in Lk; discriminate.
Qed.

(** A host that moves directories natively. *)
Definition moving_host : host :=
  {| access_fault := fun _ => None;
     file_move_fault := None;
     dir_move := Some None |}.

(** A host that moves directories natively and denies access to
    [dst/x/f]. *)
Definition sealed_host : host :=
  {| access_fault := fun q =>
       if path_eqb q ["dst"; "x"; "f"] then Some NotAllowedFault else None;
     file_move_fault := None;
     dir_move := Some None |}.

(** C2, as stated, fails when the paths overlap or meet the root literal:
    moving an empty directory onto itself deletes it, so nothing is rooted
    at the destination; moving [a/b] into its parent [a] leaves no [a/b]
    for the former [a/b/b]; with the destination ["root"] the files land at
    the top level, not below the directory named [root]; a native
    directory move to ["root/x"] lands at the top-level [x]; and after a
    native move to a place where the host denies access to a file, the
    file's content cannot be read back. *)
Lemma moveAll_onto_itself_deletes_directory :
  let st := st_of [("a", Dir [])] in
  let st' := fst (moveAll plain_host 5 ["a"] ["a"] st) in
  let nt := st_of [("a", Dir [("b", Dir [("b", Dir [])])])] in
  let nt' := fst (moveAll plain_host 5 ["a"; "b"] ["a"] nt) in
  let rt := st_of [("src", Dir [("f", File (bs "x") 5)])] in
  let rt' := fst (moveAll plain_host 5 ["src"] ["root"] rt) in
  let mt := st_of [("src", Dir [("f", File (bs "x") 5)]); ("root", Dir [])] in
  let mt' := fst (moveAll moving_host 5 ["src"] ["root"; "x"] mt) in
  let gt := st_of [("src", Dir [("f", File (bs "x") 5)]); ("dst", Dir [])] in
  let gt' := fst (moveAll sealed_host 5 ["src"] ["dst"; "x"] gt) in
  snd (isDirectory plain_host ["a"] st) = Ok true
  /\ snd (moveAll plain_host 5 ["a"] ["a"] st) = Ok tt
  /\ snd (isDirectory plain_host ["a"] st') = Ok false
  /\ snd (isDirectory plain_host ["a"; "b"; "b"] nt) = Ok true
  /\ snd (moveAll plain_host 5 ["a"; "b"] ["a"] nt) = Ok tt
  /\ snd (isDirectory plain_host ["a"; "b"] nt') = Ok false
  /\ snd (moveAll plain_host 5 ["src"] ["root"] rt) = Ok tt
  /\ snd (bytes plain_host ["root"; "f"] rt') = Ok None
  /\ snd (bytes plain_host ["f"] rt') = Ok (Some (bs "x"))
  /\ snd (moveAll moving_host 5 ["src"] ["root"; "x"] mt) = Ok tt
  /\ snd (isDirectory moving_host ["root"; "x"] mt') = Ok false
  /\ snd (isDirectory moving_host ["x"] mt') = Ok true
  /\ snd (bytes sealed_host ["src"; "f"] gt) = Ok (Some (bs "x"))
  /\ snd (moveAll sealed_host 5 ["src"] ["dst"; "x"] gt) = Ok tt
  /\ snd (bytes sealed_host ["dst"; "x"; "f"] gt') = Ok None.
Proof. repeat split; reflexivity. Qed.

(** C2 (amended): on a host that grants every access, for every source
    path and every destination path that is neither the source nor an
    ancestor of it, neither the destination nor its parent being the root
    literal: after [moveAll(source, destination)] completes successfully the source no longer exists ([isDirectory] and
    [isFile] are false), every file formerly at or under the source is
    found with the same bytes at the same relative path under the
    destination, every directory formerly at or under the source is a
    directory under the destination, and nothing off the two branches has
    changed.  Without a native directory move the children are relocated
    first and the source directory is removed by [delete] last.  If the
    source is absent, [moveAll] fails with [NotFoundError]. *)
Theorem moveAll_relocates_disjoint_tree :
  forall (H : host) (n : nat) (s d : path) (st : store),
    ((forall q, access_fault H q = None) ->
     prefix d s = false ->
     d <> ["root"] -> removelast d <> ["root"] ->
     forall st', moveAll H n s d st = (st', Ok tt) ->
       snd (isDirectory H s st') = Ok false
       /\ snd (isFile H s st') = Ok false
       /\ (forall rel c,
             snd (bytes H (s ++ rel) st) = Ok (Some c) ->
             snd (bytes H (d ++ rel) st') = Ok (Some c))
       /\ (forall rel,
             snd (isDirectory H (s ++ rel) st) = Ok true ->
             snd (isDirectory H (d ++ rel) st') = Ok true)
       /\ (forall q, disjoint q s = true -> disjoint q d = true ->
             lookup (root st') q = lookup (root st) q))
    /\ (dir_move H = None ->
        snd (isDirectory H s st) = Ok true ->
        moveAll H (S n) s d st =
        (createDirectory H d ;;;
         es <- list_ H s ;;
         for_each es (fun entry =>
           if isDirectory_ entry
           then moveAll H n (Path_push s (name entry))
                  (Path_push d (name entry))
           else move H (Path_push s (name entry))
                  (Path_push d (name entry))) ;;;
         delete H s) st)
    /\ (snd (isFile H s st) = Ok false ->
        snd (isDirectory H s st) = Ok false ->
        moveAll H (S n) s d st
        = (st, Throw (NotFoundError "moveAll" [s; d]))).
Proof.
  intros H n s d st. split; [|split].
  - intros Q Pds Nd Nr st' E.
    assert (Ns : s <> ["root"])
      by (intros ->; exact (moveAll_root_fails H n d st st' Pds E)).
    assert (Dsd : disjoint s d = true).
    { apply disjoint_spec. split; [|exact Pds].
      destruct (prefix s d) eqn:P; [|reflexivity].
      exfalso. apply (moveAll_inside_fails H n s d st st' P); auto.
      intros ->. rewrite prefix_refl in Pds. discriminate. }
    destruct (moveAll_spec H n s d st st' Dsd Ns Nd Nr E)
      as ((Mf & Md & Mg) & Mo & _ & Ned & Fd).
    assert (Gr : forall p, granted H [] p) by (intros p q _ _; apply Q).
    assert (Nroot : forall rel, d ++ rel <> ["root"]).
    { intros rel X. destruct rel as [|a rel].
      - rewrite app_nil_r in X. contradiction.
      - apply (f_equal (@List.length string)) in X.
        rewrite length_app in X. simpl in X.
        destruct d; [congruence | simpl in X; lia]. }
    assert (Nnil : forall rel, d ++ rel <> [])
      by (intros rel X; apply app_eq_nil in X; tauto).
    destruct (absent_reads H s st' Ns Mg) as [-> ->].
    split; [reflexivity|]. split; [reflexivity|].
    split; [|split].
    + intros rel c B. apply bytes_inv in B.
      destruct B as (_ & _ & F & _ & m & L).
      destruct (Mf rel c m L) as [m' L'].
      apply Forall_app in F. destruct F as [_ F].
      rewrite (bytes_file H (d ++ rel) st' c m'); auto.
      apply Forall_app. auto.
    + intros rel B. apply isDirectory_inv in B.
      destruct B as [B|(_ & _ & F & _ & es & L)].
      * exfalso. apply disjoint_spec in Dsd. destruct Dsd as [Psd _].
        destruct s as [|a s]; [discriminate|].
        destruct s as [|b s]; [|discriminate].
        destruct rel; [|discriminate]. simpl in B. congruence.
      * destruct (Md rel es L) as [es' L'].
        apply Forall_app in F. destruct F as [_ F].
        rewrite (isDirectory_dir H (d ++ rel) st' es'); auto.
        apply Forall_app. auto.
    + exact Mo.
  - intros Nm B. simpl. unfold bind at 1 4.
    destruct (getDetails_default_cases H s st)
      as [E0|[[-> E0]|(_ & h & E0 & R & G)]];
      rewrite (isDirectory_run H _ st _ E0) in B; rewrite E0;
      simpl in B; try discriminate.
    + simpl. rewrite Nm. reflexivity.
    + destruct (h_kind h); [discriminate|]. rewrite Nm. reflexivity.
  - intros Bf Bd. simpl. unfold bind.
    destruct (getDetails_default_cases H s st)
      as [E0|[[-> E0]|(_ & h & E0 & R & G)]];
      rewrite (isFile_run H _ st _ E0) in Bf;
      rewrite (isDirectory_run H _ st _ E0) in Bd;
      rewrite E0; simpl in Bf, Bd; try discriminate.
    + reflexivity.
    + destruct (h_kind h); discriminate.
Qed.

(** The move at work, entry by entry and natively. *)
Lemma moveAll_relocates_disjoint_tree_witness :
  let st := st_of [("src", Dir [("f", File (bs "x") 5);
                                ("sub", Dir [("g", File (bs "y") 6)])])] in
  let st' := fst (moveAll plain_host 5 ["src"] ["dst"; "x"] st) in
  snd (isDirectory plain_host ["src"] st') = Ok false
  /\ snd (isFile plain_host ["src"] st') = Ok false
  /\ (forall rel c,
        snd (bytes plain_host (["src"] ++ rel) st) = Ok (Some c) ->
        snd (bytes plain_host (["dst"; "x"] ++ rel) st') = Ok (Some c))
  /\ (forall rel,
        snd (isDirectory plain_host (["src"] ++ rel) st) = Ok true ->
        snd (isDirectory plain_host (["dst"; "x"] ++ rel) st') = Ok true)
  /\ (forall q, disjoint q ["src"] = true -> disjoint q ["dst"; "x"] = true ->
        lookup (root st') q = lookup (root st) q).
Proof.
  cbv zeta.
  apply (proj1 (moveAll_relocates_disjoint_tree plain_host 5
                  ["src"] ["dst"; "x"] _)).
  - reflexivity.
  - reflexivity.
  - discriminate.
  - discriminate.
  - reflexivity.
Defined.

(* ================================================================= *)
(** * Further properties of the adapter *)

(** ** The queries *)

Lemma getFile_resolved (H : host) (h : handle) (st : store) (v : node) :
  h_kind h = FileK ->
  lookup (root st) (h_loc h) = Some v -> node_kind v = h_kind h ->
  exists c m, v = File c m /\ getFile h st = (st, Ok (mkFileObject c m)).
Proof.
  intros K L Kv. destruct v as [c m|es]; [|simpl in Kv; congruence].
  exists c, m. split; [reflexivity|]. unfold getFile. rewrite K, L.
  reflexivity.
Qed.

(** What the four single-entry queries answer, from one resolution of the
    path. *)
Lemma queries_run (H : host) (p : path) (st : store) :
  exists c : option (list byte),
    bytes H p st = (st, Ok c)
    /\ size H p st = (st, Ok (option_map (@List.length byte) c))
    /\ isFile H p st
       = (st, Ok (match c with Some _ => true | None => false end))
    /\ exists d : bool,
         isDirectory H p st = (st, Ok d)
         /\ (d = true -> c = None).
Proof.
  destruct (getDetails_default_cases H p st)
    as [E0|[[-> E0]|(Np & h & E0 & R & G)]].
  - exists None. unfold bytes, readFile, size.
    rewrite (isFile_run H p st _ E0), (isDirectory_run H p st _ E0).
    unfold bind. rewrite E0. repeat split. exists false. split; [reflexivity|].
    discriminate.
  - exists None. unfold bytes, readFile, size.
    rewrite (isFile_run H _ st _ E0), (isDirectory_run H _ st _ E0).
    unfold bind. rewrite E0. simpl. repeat split. exists true. auto.
  - destruct R as (Hl & _ & _ & _ & (v & L & Kv) & _).
    rewrite <- Hl in L.
    unfold bytes, readFile, size.
    rewrite (isFile_run H p st _ E0), (isDirectory_run H p st _ E0).
    unfold bind. rewrite E0.
    destruct (h_kind h) eqn:K.
    + destruct (getFile_resolved H h st v K L) as (c & m & -> & Eg);
        [congruence|].
      exists (Some c). rewrite Eg. simpl. repeat split.
      exists false. split; [reflexivity | discriminate].
    + exists None. simpl. repeat split. exists true. auto.
Qed.

(** X1: [bytes], [size], [isFile], [isDirectory], [list] and
    [lastModified] never change the store, on any host, for any path and
    whatever they answer. *)
Theorem queries_leave_the_store_unchanged :
  forall (H : host) (n : nat) (p : path) (st : store),
    fst (bytes H p st) = st
    /\ fst (size H p st) = st
    /\ fst (isFile H p st) = st
    /\ fst (isDirectory H p st) = st
    /\ fst (list_ H p st) = st
    /\ fst (lastModified H n p st) = st.
Proof.
  intros H n p st.
  destruct (queries_run H p st) as (c & -> & -> & -> & d & -> & _).
  repeat (split; [reflexivity|]). split.
  - destruct (list_ H p st) as [st' o] eqn:E.
    exact (list_store H p st st' o E).
  - destruct (lastModified H n p st) as [st' o] eqn:E.
    exact (lastModified_store H n p st st' o E).
Qed.

(** X2: the single-entry queries agree with one another.  On a path
    that [Path.from] accepts (at least one segment, no empty segment),
    whenever [bytes] answers, with content or with [undefined]: [size] is
    the length of that content and is undefined exactly when [bytes]
    is; [isFile] is true exactly when [bytes] returned content; a path
    for which [isDirectory] is true has no content; and [isFile] and
    [isDirectory] are never both true. *)
Theorem queries_agree :
  forall (H : host) (p : path) (st : store) (c : option (list byte)),
    p <> [] -> Forall (fun x => x <> "") p ->
    snd (bytes H p st) = Ok c ->
    snd (size H p st) = Ok (option_map (@List.length byte) c)
    /\ snd (isFile H p st)
       = Ok (match c with Some _ => true | None => false end)
    /\ (snd (isDirectory H p st) = Ok true -> c = None)
    /\ ~ (snd (isFile H p st) = Ok true
          /\ snd (isDirectory H p st) = Ok true).
Proof.
  intros H p st c _ _ B.
  destruct (queries_run H p st) as (c' & Eb & -> & -> & d & -> & Dc).
  rewrite Eb in B. simpl in B. inversion B; subst c'. simpl.
  repeat (split; [reflexivity|]). split.
  - intros X. apply Dc. congruence.
  - intros [F D]. rewrite Dc in F by congruence. discriminate.
Qed.

Lemma queries_agree_witness :
  let st := st_of [("a", Dir [("f", File (bs "xyz") 5)])] in
  snd (size plain_host ["a"; "f"] st)
    = Ok (option_map (@List.length byte) (Some (bs "xyz")))
  /\ snd (isFile plain_host ["a"; "f"] st) = Ok true
  /\ (snd (isDirectory plain_host ["a"; "f"] st) = Ok true ->
      Some (bs "xyz") = None)
  /\ ~ (snd (isFile plain_host ["a"; "f"] st) = Ok true
        /\ snd (isDirectory plain_host ["a"; "f"] st) = Ok true).
Proof.
  cbv zeta.
  apply (queries_agree plain_host ["a"; "f"]
           (st_of [("a", Dir [("f", File (bs "xyz") 5)])])
           (Some (bs "xyz"))).
  - discriminate.
  - repeat constructor; discriminate.
  - reflexivity.
Defined.

(** X3: the path ["root"] always denotes the root directory and never an
    entry called [root]: whatever the store holds, [isDirectory("root")]
    is true, [isFile], [bytes] and [size] answer as for a directory, and
    [list("root")] enumerates the top-level entries. *)
Theorem root_literal_denotes_the_root :
  forall (H : host) (st : store),
    isDirectory H ["root"] st = (st, Ok true)
    /\ isFile H ["root"] st = (st, Ok false)
    /\ bytes H ["root"] st = (st, Ok None)
    /\ size H ["root"] st = (st, Ok None)
    /\ (forall es, root st = Dir es ->
          list_ H ["root"] st
          = (st, Ok (map (fun e => mkListEntry (fst e)
                                     (kind_eqb (node_kind (snd e)) DirectoryK)
                                     (kind_eqb (node_kind (snd e)) FileK)
                                     false) es))).
Proof.
  intros H st. repeat split.
  intros es R. unfold list_, bind. rewrite getDetails_root.
  unfold values. simpl. rewrite R. unfold ret. rewrite map_map. reflexivity.
Qed.

(* ================================================================= *)
(** ** [createDirectory] *)

Section CreateDirectoryFacts.

Variable H : host.


Lemma createDirectory_from_existing (steps : list string) :
  forall (h : handle) (st : store) (es : entries),
    Forall (fun s => s <> "") steps ->
    granted H (h_loc h) (h_loc h ++ steps) ->
    lookup (root st) (h_loc h ++ steps) = Some (Dir es) ->
    createDirectory_from H h steps st = (st, Ok tt).
Proof.
  induction steps as [|nm rest IH]; intros h st es F G L; [reflexivity|].
  inversion F as [|? ? Nn Fr]; subst.
  destruct (granted_step H _ _ _ G) as [A G'].
  change (nm :: rest) with ([nm] ++ rest) in L. rewrite app_assoc in L.
  assert (L1 : exists es1, lookup (root st) (h_loc h ++ [nm]) = Some (Dir es1)).
  { destruct rest as [|n2 rest].
    - rewrite app_nil_r in L. eauto.
    - exact (lookup_prefix_dir _ _ _ _ L ltac:(discriminate)). }
  destruct L1 as [es1 L1].
  simpl. unfold bind.
  rewrite (getDirectoryHandle_some H h nm true st es1 Nn A L1).
  exact (IH (mkHandle DirectoryK (h_loc h ++ [nm])) st es Fr G' L).
Qed.


(** [isFile] answers true only for a file the store holds. *)
Lemma isFile_inv (p : path) (st : store) :
  snd (isFile H p st) = Ok true ->
  p <> ["root"] /\ p <> [] /\ Forall (fun x => x <> "") p
  /\ granted H [] p
  /\ exists c m, lookup (root st) p = Some (File c m).
Proof.
  intros B.
  destruct (getDetails_default_cases H p st)
    as [E0|[[-> E0]|(Np & h & E0 & R & G)]];
    rewrite (isFile_run H _ st _ E0) in B; simpl in B; try discriminate.
  destruct R as (Hl & Ne & F & _ & (v & L & Kv) & _).
  destruct (h_kind h); [|discriminate].
  destruct v as [c m|es]; [|discriminate]. eauto 10.
Qed.

End CreateDirectoryFacts.



(** X5: [createDirectory] is idempotent: on a path other than ["root"]
    that already is a directory it succeeds and leaves the store as it
    is. *)
Theorem createDirectory_of_a_directory_changes_nothing :
  forall (H : host) (p : path) (st : store),
    p <> ["root"] ->
    snd (isDirectory H p st) = Ok true ->
    createDirectory H p st = (st, Ok tt).
Proof.
  intros H p st Np B. apply isDirectory_inv in B.
  destruct B as [->|(_ & _ & F & G & es & L)]; [congruence|].
  exact (createDirectory_from_existing H p root_handle st es F G L).
Qed.

Lemma createDirectory_of_a_directory_changes_nothing_witness :
  let st := st_of [("a", Dir [("b", Dir [])])] in
  createDirectory plain_host ["a"; "b"] st = (st, Ok tt).
Proof.
  cbv zeta.
  apply (createDirectory_of_a_directory_changes_nothing plain_host).
  - discriminate.
  - reflexivity.
Defined.



(* ================================================================= *)
(** ** [deleteAll] *)

(** What a host offers for removing a subtree: whether handles have a
    [remove] method of their own (the code probes for it), and whether
    [removeEntry] honours its [recursive] flag (the code notes that
    Chromium does not). *)
Record removal := mkRemoval {
  native_remove : bool;
  recursive_honoured : bool
}.

Section DeleteAll.

Variable H : host.
Variable R : removal.

(** Modelled from the spec: [remove({ recursive: true })], the optional
    native whole-subtree delete on the handle itself (section 6).  On the
    root handle the subtree is everything below the root. *)
Definition handle_remove (h : handle) : M unit :=
  fun st =>
    match lookup (root st) (h_loc h) with
    | None => (st, Throw (HostFault NotFoundFault))
    | Some _ =>
        match h_loc h with
        | [] => (set_root st (on_entries (fun _ => []) (root st)), Ok tt)
        | _ :: _ =>
            (set_root st
               (alter (on_entries (remove_entry (h_name h)))
                  (removelast (h_loc h)) (root st)),
             Ok tt)
        end
    end.

(** Modelled from the spec: remove named child with the [recursive] flag
    (section 6): removes one entry, a directory with its subtree; a host
    that does not honour the flag answers as [removeEntry] without it. *)
Definition removeEntry_recursive (h : handle) (nm : string) : M unit :=
  if recursive_honoured R then
    fun st =>
      if String.eqb nm "" then (st, Throw (HostFault TypeErrorFault)) else
      match access_fault H (h_loc h ++ [nm]) with
      | Some f => (st, Throw (HostFault f))
      | None =>
          match lookup (root st) (h_loc h) with
          | Some (Dir es) =>
              match find_entry nm es with
              | None => (st, Throw (HostFault NotFoundFault))
              | Some _ =>
                  (set_root st
                     (alter (on_entries (remove_entry nm)) (h_loc h) (root st)),
                   Ok tt)
              end
          | _ => (st, Throw (HostFault NotFoundFault))
          end
      end
  else removeEntry H h nm.

(** [parentHandle.removeEntry(handle.name, { recursive: true })] is not
    awaited: a rejection of it never reaches the caller of [deleteAll].
    The second [if (!handle)] of the source cannot fire. *)
Definition deleteAll (opaqueId : path) : M unit :=
  h <- getDetails H opaqueId default_options ;;
  match h with
  | None => throw (NotFoundError "deleteAll" [opaqueId])
  | Some handle =>
      if native_remove R then handle_remove handle
      else
        ph <- getDetails H opaqueId (mkOptions true false None) ;;
        let parentHandle :=
          match ph with Some x => x | None => root_handle end in
        attempt (removeEntry_recursive parentHandle (h_name handle)) ;;;
        ret tt
  end.

End DeleteAll.

Example deleteAll_removes_a_subtree :
  let st := st_of [("a", Dir [("b", Dir [("f", File (bs "x") 5)])]);
                   ("g", File (bs "y") 6)] in
  deleteAll plain_host (mkRemoval false true) ["a"; "b"] st
    = (st_of [("a", Dir []); ("g", File (bs "y") 6)], Ok tt)
  /\ deleteAll plain_host (mkRemoval true false) ["a"] st
     = (st_of [("g", File (bs "y") 6)], Ok tt)
  /\ deleteAll plain_host (mkRemoval true true) ["root"] st
     = (st_of [], Ok tt)
  /\ deleteAll plain_host (mkRemoval false true) ["root"] st = (st, Ok tt).
Proof. repeat split; reflexivity. Qed.

Section DeleteAllFacts.

Variable H : host.
Variable R : removal.

(** The store without the entry at [p]. *)
Definition without (p : path) (st : store) : store :=
  set_root st
    (alter (on_entries (remove_entry (last_name p))) (removelast p) (root st)).

Lemma deleteAll_absent (p : path) (st : store) :
  getDetails H p default_options st = (st, Ok None) ->
  deleteAll H R p st = (st, Throw (NotFoundError "deleteAll" [p])).
Proof.
  intros E. unfold deleteAll, bind. rewrite E. reflexivity.
Qed.

(** [deleteAll] of a resolved path. *)
Lemma deleteAll_resolved (p : path) (st : store) (h : handle) :
  p <> ["root"] ->
  getDetails H p default_options st = (st, Ok (Some h)) ->
  resolved H None p st h -> granted H [] p ->
  exists v, lookup (root st) p = Some v /\ node_kind v = h_kind h
    /\ deleteAll H R p st =
       if native_remove R || recursive_honoured R then (without p st, Ok tt)
       else match v with
            | Dir (_ :: _) => (st, Ok tt)
            | _ => (without p st, Ok tt)
            end.
Proof.
  intros N E (Hl & Ne & F & A & (v & L & K) & _) G.
  exists v. split; [exact L|]. split; [exact K|].
  destruct (getDetails_parent H p false None st v N F G L) as (r & Ep & Lp);
    [discriminate|].
  unfold deleteAll, bind. rewrite E.
  destruct (path_snoc_cases p) as [->|[q [n Pq]]]; [congruence|].
  assert (Hname : h_name h = n).
  { unfold h_name. rewrite Hl, Pq, Path_name_app. reflexivity. }
  assert (Hlast : last_name p = n).
  { unfold last_name. rewrite Pq, Path_name_app. reflexivity. }
  assert (Hq : removelast p = q) by (rewrite Pq; apply removelast_snoc).
  unfold without. rewrite Hlast, Hq. rewrite Hq in Lp.
  assert (Hn : n <> "").
  { rewrite Pq in F. apply Forall_app in F. destruct F as [_ F].
    inversion F; assumption. }
  pose proof L as L0. rewrite Pq in L0.
  apply lookup_snoc_dir in L0. destruct L0 as (es & Lq & Fn).
  destruct (native_remove R) eqn:Nr.
  - simpl. unfold handle_remove. rewrite Hl, L, Hname, Hq.
    rewrite Pq. destruct q; reflexivity.
  - simpl. rewrite Ep.
    set (parentHandle := match r with Some x => x | None => root_handle end)
      in *.
    unfold attempt, ret, removeEntry_recursive.
    destruct (recursive_honoured R) eqn:Rh.
    + rewrite Hname, Lp. destruct (String.eqb_spec n ""); [contradiction|].
      rewrite <- Pq, A, Lq, Fn. reflexivity.
    + unfold removeEntry. rewrite Hname, Lp.
      destruct (String.eqb_spec n ""); [contradiction|].
      rewrite <- Pq, A, Lq, Fn. destruct v as [d m|[|x xs]]; reflexivity.
Qed.

End DeleteAllFacts.

Lemma without_spec (H : host) (p : path) (st : store) (v : node) :
  p <> ["root"] -> p <> [] ->
  lookup (root st) p = Some v ->
  (forall r, lookup (root (without p st)) (p ++ r) = None)
  /\ snd (isFile H p (without p st)) = Ok false
  /\ snd (isDirectory H p (without p st)) = Ok false
  /\ (forall q c, prefix p q = false ->
        snd (bytes H q st) = Ok (Some c) ->
        snd (bytes H q (without p st)) = Ok (Some c))
  /\ (forall q, disjoint q p = true ->
        lookup (root (without p st)) q = lookup (root st) q).
Proof.
  intros N Ne L. pose proof (path_split_last p Ne) as Sp.
  assert (Gone : forall r, lookup (root (without p st)) (p ++ r) = None).
  { intros r. unfold without. simpl root. rewrite <- Sp at 3.
    rewrite <- app_assoc. apply lookup_remove_below. }
  assert (Off : forall q, disjoint q p = true ->
                  lookup (root (without p st)) q = lookup (root st) q).
  { intros q Dq. unfold without. simpl root.
    apply lookup_remove_off. rewrite Sp. exact Dq. }
  split; [exact Gone|].
  pose proof (Gone []) as G0. rewrite app_nil_r in G0.
  destruct (absent_reads H p (without p st) N G0) as [-> ->].
  split; [reflexivity|]. split; [reflexivity|]. split; [|exact Off].
  intros q c Pq B. apply bytes_inv in B.
  destruct B as (Nq & Neq & Fq & Gq & m & Lq).
  rewrite (bytes_file H q (without p st) c m); auto.
  rewrite Off; [exact Lq|]. apply disjoint_spec. split; [|exact Pq].
  destruct (prefix q p) eqn:X; [|reflexivity].
  pose proof (file_not_above _ _ _ _ _ _ Lq L X) as Eq. subst q.
  rewrite prefix_refl in Pq. discriminate.
Qed.

(** X7: [deleteAll] throws [NotFoundError] exactly when the path is absent
    (neither [isFile] nor [isDirectory]), and then the store is
    unchanged. *)
Theorem deleteAll_not_found_iff_absent :
  forall (H : host) (R : removal) (p : path) (st : store),
    (snd (deleteAll H R p st) = Throw (NotFoundError "deleteAll" [p]) <->
       snd (isFile H p st) = Ok false /\ snd (isDirectory H p st) = Ok false)
    /\ (snd (deleteAll H R p st) = Throw (NotFoundError "deleteAll" [p]) ->
        fst (deleteAll H R p st) = st).
Proof.
  intros H R p st.
  destruct (getDetails_default_cases H p st)
    as [E|[[-> E]|(N & h & E & Rs & G)]].
  - rewrite (isFile_run H p st None E), (isDirectory_run H p st None E).
    rewrite (deleteAll_absent H R p st E). simpl. tauto.
  - rewrite (isFile_run H _ st _ E), (isDirectory_run H _ st _ E).
    unfold deleteAll, bind. rewrite !getDetails_root. simpl.
    destruct (native_remove R); simpl.
    + unfold handle_remove. simpl.
      split; [split; [discriminate | intros [_ X]; discriminate]
             | discriminate].
    + unfold attempt, removeEntry_recursive, removeEntry. simpl.
      destruct (recursive_honoured R); simpl;
        (split; [split; [discriminate | intros [_ X]; discriminate]
                | discriminate]).
  - destruct (deleteAll_resolved H R p st h N E Rs G) as (v & L & K & D).
    rewrite (isFile_run H p st _ E), (isDirectory_run H p st _ E), D.
    assert (Ok_ : forall (b : bool) (x y : store * outcome unit),
               snd x = Ok tt -> snd y = Ok tt ->
               snd (if b then x else y) = Ok tt)
      by (intros [] ? ? ? ?; assumption).
    assert (S : snd (if native_remove R || recursive_honoured R
                     then (without p st, Ok tt)
                     else match v with
                          | Dir (_ :: _) => (st, Ok tt)
                          | _ => (without p st, Ok tt)
                          end) = Ok tt).
    { apply Ok_; [reflexivity|]. destruct v as [d m|[|x xs]]; reflexivity. }
    rewrite S. simpl.
    split; [split; [discriminate|] | discriminate].
    intros [X Y]. destruct (h_kind h); discriminate.
Qed.

(** X8: where the host has a native [remove] or honours the recursive
    flag, [deleteAll] of an existing file or directory (other than
    ["root"]) succeeds and removes the entry with everything below it:
    afterwards nothing resolves at or below the path, every file that is
    not at or below it reads as before, and every location off its branch
    is unchanged. *)
Theorem deleteAll_removes_the_subtree :
  forall (H : host) (R : removal) (p : path) (st : store),
    p <> ["root"] ->
    native_remove R = true \/ recursive_honoured R = true ->
    snd (isFile H p st) = Ok true \/ snd (isDirectory H p st) = Ok true ->
    deleteAll H R p st = (without p st, Ok tt)
    /\ (forall r, lookup (root (without p st)) (p ++ r) = None)
    /\ snd (isFile H p (without p st)) = Ok false
    /\ snd (isDirectory H p (without p st)) = Ok false
    /\ (forall q c, prefix p q = false ->
          snd (bytes H q st) = Ok (Some c) ->
          snd (bytes H q (without p st)) = Ok (Some c))
    /\ (forall q, disjoint q p = true ->
          lookup (root (without p st)) q = lookup (root st) q).
Proof.
  intros H R p st N Cap Ex.
  destruct (getDetails_default_cases H p st)
    as [E|[[-> E]|(_ & h & E & Rs & G)]]; [| congruence |].
  { rewrite (isFile_run H p st None E), (isDirectory_run H p st None E)
      in Ex. simpl in Ex. destruct Ex; discriminate. }
  destruct (deleteAll_resolved H R p st h N E Rs G) as (v & L & K & D).
  destruct Rs as (_ & Ne & _).
  split; [|exact (without_spec H p st v N Ne L)].
  rewrite D.
  destruct Cap as [-> | ->]; [reflexivity|].
  rewrite orb_true_r. reflexivity.
Qed.

Lemma deleteAll_removes_the_subtree_witness :
  let st := st_of [("a", Dir [("b", Dir [("f", File (bs "x") 5)])]);
                   ("g", File (bs "y") 6)] in
  deleteAll plain_host (mkRemoval false true) ["a"] st
  = (st_of [("g", File (bs "y") 6)], Ok tt).
Proof.
  cbv zeta.
  apply (deleteAll_removes_the_subtree plain_host (mkRemoval false true)
           ["a"]).
  - discriminate.
  - right. reflexivity.
  - right. reflexivity.
Defined.

(** X9: without a native [remove], [deleteAll] never reports that the
    removal failed, because [removeEntry] is not awaited: on a host that
    ignores the recursive flag, [deleteAll] of a directory that lists an
    entry returns successfully and has removed nothing. *)
Theorem deleteAll_of_a_kept_directory_reports_success :
  forall (H : host) (R : removal) (p : path) (st : store),
    p <> ["root"] ->
    native_remove R = false -> recursive_honoured R = false ->
    snd (isDirectory H p st) = Ok true ->
    (exists e es, snd (list_ H p st) = Ok (e :: es)) ->
    deleteAll H R p st = (st, Ok tt).
Proof.
  intros H R p st N Nr Rh B (e & es & Ls).
  destruct (getDetails_default_cases H p st)
    as [E|[[-> E]|(_ & h & E & Rs & G)]]; [| congruence |].
  { rewrite (isDirectory_run H p st None E) in B. discriminate. }
  destruct (deleteAll_resolved H R p st h N E Rs G) as (v & L & K & D).
  rewrite D, Nr, Rh. simpl.
  rewrite (list_run H p st _ E) in Ls.
  destruct Rs as (Hl & _).
  unfold bind, values, ret in Ls. rewrite Hl, L in Ls.
  destruct v as [d m|[|x xs]]; [| |reflexivity].
  - simpl in K. rewrite <- K in Ls. discriminate.
  - simpl in K. rewrite <- K in Ls. discriminate.
Qed.

Lemma deleteAll_of_a_kept_directory_reports_success_witness :
  let st := st_of [("a", Dir [("f", File (bs "x") 5)])] in
  deleteAll plain_host (mkRemoval false false) ["a"] st = (st, Ok tt).
Proof.
  cbv zeta.
  apply (deleteAll_of_a_kept_directory_reports_success plain_host
           (mkRemoval false false) ["a"]).
  - discriminate.
  - reflexivity.
  - reflexivity.
  - reflexivity.
  - eexists _, _. reflexivity.
Defined.

(* ================================================================= *)
(** ** Well-formed hierarchies *)

(** Entry names are non-empty and no name occurs twice. *)
Fixpoint names_ok (names : list string) : bool :=
  match names with
  | [] => true
  | n :: rest =>
      negb (String.eqb n "") && negb (existsb (String.eqb n) rest)
      && names_ok rest
  end.

(** Every directory of the hierarchy has well-formed entry names. *)
Fixpoint well_formed (v : node) : bool :=
  match v with
  | File _ _ => true
  | Dir es =>
      names_ok (map fst es)
      && (fix all (l : list (string * node)) : bool :=
            match l with
            | [] => true
            | (_, c) :: t => well_formed c && all t
            end) es
  end.

Fixpoint all_well_formed (es : entries) : bool :=
  match es with
  | [] => true
  | (_, c) :: t => well_formed c && all_well_formed t
  end.

Lemma well_formed_Dir (es : entries) :
  well_formed (Dir es) = names_ok (map fst es) && all_well_formed es.
Proof. reflexivity. Qed.

Lemma all_find_entry (nm : string) (es : entries) (c : node) :
  all_well_formed es = true -> find_entry nm es = Some c ->
  well_formed c = true.
Proof.
  induction es as [|[k w] es IH]; simpl; [discriminate|].
  intros A F. apply andb_true_iff in A. destruct A as [Ww We].
  destruct (String.eqb k nm); [congruence | auto].
Qed.

Lemma well_formed_lookup (p : path) :
  forall v w, well_formed v = true -> lookup v p = Some w ->
              well_formed w = true.
Proof.
  induction p as [|a p IH]; intros v w W L; simpl in L; [congruence|].
  destruct v as [d m|es]; [discriminate|].
  destruct (find_entry a es) as [c|] eqn:F; [|discriminate].
  rewrite well_formed_Dir in W. apply andb_true_iff in W.
  destruct W as [_ Wa].
  exact (IH c w (all_find_entry a es c Wa F) L).
Qed.

(* ================================================================= *)
(** ** [list] *)

Lemma names_ok_find (n : string) (v : node) (es : entries) :
  names_ok (map fst es) = true -> In (n, v) es ->
  find_entry n es = Some v /\ n <> "".
Proof.
  induction es as [|[k w] es IH]; simpl; [contradiction|].
  intros W I. apply andb_true_iff in W. destruct W as [W1 W3].
  apply andb_true_iff in W1. destruct W1 as [W1 W2].
  destruct I as [I|I].
  - inversion I; subst. rewrite String.eqb_refl. split; [reflexivity|].
    apply String.eqb_neq. apply negb_true_iff. exact W1.
  - destruct (String.eqb k n) eqn:E.
    + exfalso. apply String.eqb_eq in E. subst k.
      apply negb_true_iff in W2.
      assert (X : existsb (String.eqb n) (map fst es) = true).
      { apply existsb_exists. exists n. split; [|apply String.eqb_refl].
        apply in_map_iff. exists (n, v). auto. }
      congruence.
    + exact (IH W3 I).
Qed.

Lemma names_ok_NoDup (names : list string) :
  names_ok names = true -> NoDup names.
Proof.
  induction names as [|n rest IH]; simpl; [constructor|].
  intros W. apply andb_true_iff in W. destruct W as [W1 W3].
  apply andb_true_iff in W1. destruct W1 as [_ W2].
  constructor; [|auto].
  intros I. apply negb_true_iff in W2.
  assert (X : existsb (String.eqb n) rest = true).
  { apply existsb_exists. exists n. split; [exact I | apply String.eqb_refl]. }
  congruence.
Qed.

Lemma granted_snoc (H : host) (p : path) (n : string) :
  granted H [] p -> access_fault H (p ++ [n]) = None ->
  granted H [] (p ++ [n]).
Proof.
  intros G A q Pq Lq.
  destruct (path_eqb q (p ++ [n])) eqn:E.
  - apply path_eqb_eq in E. subst q. exact A.
  - apply G; [|exact Lq].
    apply prefix_spec in Pq. destruct Pq as [r Er].
    destruct (path_snoc_cases r) as [->|[r' [x ->]]].
    + rewrite app_nil_r in Er. subst q.
      rewrite path_eqb_refl in E. discriminate.
    + rewrite app_assoc in Er. apply app_inj_tail in Er.
      destruct Er as [-> _]. apply prefix_app.
Qed.

(** X11: [list] of a path that is a file throws a [TypeError] (a file
    handle has no [values]); [list] of an absent path yields nothing and
    does not throw. *)
Theorem list_of_a_file_or_nothing :
  forall (H : host) (p : path) (st : store),
    (snd (isFile H p st) = Ok true -> list_ H p st = (st, Throw TypeError))
    /\ (snd (isFile H p st) = Ok false ->
        snd (isDirectory H p st) = Ok false ->
        list_ H p st = (st, Ok [])).
Proof.
  intros H p st.
  destruct (getDetails_default_cases H p st)
    as [E|[[-> E]|(N & h & E & Rs & G)]];
    rewrite (isFile_run H _ st _ E), (isDirectory_run H _ st _ E),
      (list_run H _ st _ E); simpl.
  - split; [discriminate | reflexivity].
  - split; discriminate.
  - unfold bind, values. destruct (h_kind h); simpl.
    + split; [reflexivity | discriminate].
    + split; discriminate.
Qed.

Lemma list_of_a_file_or_nothing_witness :
  let st := st_of [("f", File (bs "x") 5)] in
  list_ plain_host ["f"] st = (st, Throw TypeError)
  /\ list_ plain_host ["g"] st = (st, Ok []).
Proof.
  cbv zeta. split.
  - apply (list_of_a_file_or_nothing plain_host ["f"]). reflexivity.
  - apply (list_of_a_file_or_nothing plain_host ["g"]); reflexivity.
Defined.

(** X12: on a well-formed hierarchy the entries [list] yields for a path
    other than ["root"] have pairwise different names, each is flagged
    either a file or a directory and never a symlink, and the flags are
    what [isFile] and [isDirectory] answer for the entry's path wherever
    the host grants access to it. *)
Theorem list_agrees_with_the_queries :
  forall (H : host) (p : path) (st : store) (es : list list_entry),
    well_formed (root st) = true ->
    p <> ["root"] ->
    snd (list_ H p st) = Ok es ->
    NoDup (map name es)
    /\ forall e, In e es ->
         isFile_ e = negb (isDirectory_ e)
         /\ isSymlink_ e = false
         /\ (access_fault H (p ++ [name e]) = None ->
             snd (isFile H (p ++ [name e]) st) = Ok (isFile_ e)
             /\ snd (isDirectory H (p ++ [name e]) st)
                = Ok (isDirectory_ e)).
Proof.
  intros H p st es W N Ls.
  destruct (getDetails_default_cases H p st)
    as [E|[[-> E]|(_ & h & E & Rs & G)]]; [| congruence |];
    rewrite (list_run H _ st _ E) in Ls.
  { inversion Ls; subst. split; [constructor | contradiction]. }
  destruct Rs as (Hl & Ne & F & _ & (v & L & Kv) & _).
  unfold bind, values in Ls. rewrite Hl, L in Ls.
  destruct (h_kind h); [discriminate|].
  destruct v as [c m|ents]; [discriminate|].
  simpl in Ls. inversion Ls; subst es. clear Ls.
  pose proof (well_formed_lookup p _ _ W L) as Wd.
  rewrite well_formed_Dir in Wd. apply andb_true_iff in Wd.
  destruct Wd as [Wn _].
  split.
  - rewrite !map_map. simpl. apply names_ok_NoDup. exact Wn.
  - intros e I. rewrite map_map in I. apply in_map_iff in I.
    destruct I as ([n x] & <- & I). simpl.
    split; [destruct x; reflexivity|]. split; [reflexivity|].
    intros A.
    destruct (names_ok_find n x ents Wn I) as [Fe Nn].
    assert (Lx : lookup (root st) (p ++ [n]) = Some x).
    { rewrite lookup_app, L. simpl. rewrite Fe. reflexivity. }
    assert (E' : getDetails H (p ++ [n]) default_options st
                 = (st, Ok (Some (mkHandle (node_kind x) (p ++ [n]))))).
    { apply getDetails_some; try assumption.
      - apply snoc_not_root. exact Ne.
      - reflexivity.
      - destruct p; discriminate.
      - apply Forall_app. split; [exact F | repeat constructor; exact Nn].
      - apply granted_snoc; assumption.
      - discriminate. }
    rewrite (isFile_run H _ st _ E'), (isDirectory_run H _ st _ E').
    simpl. split; reflexivity.
Qed.

Lemma list_agrees_with_the_queries_witness :
  let st := st_of [("a", Dir [("f", File (bs "x") 5); ("d", Dir [])])] in
  NoDup (map name [mkListEntry "f" false true false;
                   mkListEntry "d" true false false])
  /\ forall e, In e [mkListEntry "f" false true false;
                     mkListEntry "d" true false false] ->
       isFile_ e = negb (isDirectory_ e)
       /\ isSymlink_ e = false
       /\ (access_fault plain_host (["a"] ++ [name e]) = None ->
           snd (isFile plain_host (["a"] ++ [name e]) st) = Ok (isFile_ e)
           /\ snd (isDirectory plain_host (["a"] ++ [name e]) st)
              = Ok (isDirectory_ e)).
Proof.
  cbv zeta.
  apply (list_agrees_with_the_queries plain_host ["a"]).
  - reflexivity.
  - discriminate.
  - reflexivity.
Defined.

(* ================================================================= *)
(** ** [copy] *)

Section CopyFacts.

Variable H : host.

(** Resolution with [create] and kind ["file"] reaches the last segment
    when no file stands on the way and no directory at the end. *)
Lemma walk_create_file (steps : list string) :
  forall (h : handle) (st : store) (es0 : entries) (nm : string),
    Forall (fun s => s <> "") (steps ++ [nm]) ->
    granted H (h_loc h) (h_loc h ++ steps ++ [nm]) ->
    lookup (root st) (h_loc h) = Some (Dir es0) ->
    unblocked (h_loc h ++ steps) st ->
    (forall es, lookup (root st) (h_loc h ++ steps ++ [nm]) <> Some (Dir es)) ->
    exists st',
      walk H true (Some FileK) h (steps ++ [nm]) st
      = (st', Ok (Some (mkHandle FileK (h_loc h ++ steps ++ [nm])))).
Proof.
  induction steps as [|a steps IH]; intros h st es0 nm F G L U Nd.
  - simpl in *. inversion F as [|? ? Nn _]; subst.
    destruct (granted_step H _ _ _ G) as [A _].
    destruct (getFileHandle_create H h nm st es0 Nn A L Nd) as [st1 E1].
    rewrite (proj2 (String.eqb_neq _ _) Nn).
    unfold bind, attempt. rewrite E1. exists st1. reflexivity.
  - simpl in F. inversion F as [|? ? Na Fr]; subst.
    change ((a :: steps) ++ [nm]) with (a :: (steps ++ [nm])) in *.
    destruct (granted_step H _ _ _ G) as [A G'].
    assert (Nf : forall c m,
               lookup (root st) (h_loc h ++ [a]) <> Some (File c m)).
    { intros c m. apply U.
      change (a :: steps) with ([a] ++ steps). rewrite app_assoc.
      apply prefix_app. }
    destruct (getDirectoryHandle_create H h a st es0 Na A L Nf) as [st1 E1].
    destruct (getDirectoryHandle_inv H _ _ _ _ _ _ E1)
      as (_ & Gr & _ & _ & K).
    destruct (K _ eq_refl) as (_ & _ & _ & es1 & L1).
    destruct Gr as (_ & Fk & _).
    destruct (IH (mkHandle DirectoryK (h_loc h ++ [a])) st1 es1 nm Fr)
      as [st2 E2]; simpl.
    + exact G'.
    + exact L1.
    + intros q c m Pq Lq.
      destruct (prefix q (h_loc h ++ [a])) eqn:Pn.
      * apply prefix_spec in Pn. destruct Pn as [r Er].
        destruct r as [|r1 r].
        -- rewrite app_nil_r in Er. rewrite <- Er in Lq. congruence.
        -- rewrite Er in L1.
           destruct (lookup_prefix_dir _ _ _ _ L1 ltac:(discriminate))
             as [es' L']. congruence.
      * rewrite (Fk q Pn) in Lq.
        apply (U q c m); [|exact Lq].
        change (a :: steps) with ([a] ++ steps).
        rewrite app_assoc. exact Pq.
    + intros es Le. rewrite Fk in Le.
      * apply (Nd es). rewrite <- Le.
        change (a :: steps ++ [nm]) with ([a] ++ steps ++ [nm]).
        rewrite app_assoc. reflexivity.
      * destruct (prefix ((h_loc h ++ [a]) ++ steps ++ [nm]) (h_loc h ++ [a]))
          eqn:X; [|reflexivity].
        apply prefix_length in X. rewrite !length_app in X. simpl in X. lia.
    + exists st2. simpl in E2.
      simpl. rewrite (proj2 (String.eqb_neq _ _) Na).
      destruct (steps ++ [nm]) as [|x xs] eqn:Es.
      { destruct steps; discriminate. }
      unfold bind at 1. unfold attempt. rewrite E1.
      change (a :: x :: xs) with ([a] ++ x :: xs).
      rewrite app_assoc. exact E2.
Qed.

(** [copy] goes through once both ends resolve. *)
Lemma copy_runs (s d : path) (st st1 : store) (c : list byte) (m : Z)
    (th : handle) :
  s <> ["root"] -> s <> [] -> Forall (fun x => x <> "") s ->
  granted H [] s ->
  lookup (root st) s = Some (File c m) ->
  d <> ["root"] ->
  isDirectory H d st = (st, Ok false) ->
  getDetails H d (mkOptions false true (Some FileK)) st = (st1, Ok (Some th)) ->
  exists st', copy H s d st = (st', Ok tt).
Proof.
  intros Ns Ne F G L Nd Bd Ed.
  destruct (getDetails_inv H _ _ _ _ _ Nd Ed) as (Gr & _ & r & Er & Kr).
  inversion Er; subst r. unfold resolved, target in Kr; simpl in Kr.
  destruct (Kr th eq_refl) as (Tl & _ & _ & _ & (v & Lv & Kv) & Kk).
  specialize (Kk _ eq_refl). rewrite Kk in Kv.
  destruct v as [c' m'|es']; [|discriminate].
  simpl in Gr. destruct Gr as (_ & _ & Fk & _).
  pose proof (Fk _ _ _ L) as L1.
  destruct (write_to_handle d c st1 c' m' Lv) as (st' & Ew & _).
  exists st'. unfold copy. unfold bind at 1.
  rewrite (getDetails_some H s default_options st (File c m)
             Ns eq_refl Ne F G L) by discriminate.
  simpl. unfold bind at 1. rewrite Bd.
  unfold bind at 1. rewrite Ed.
  unfold bind at 1. unfold getFile. simpl. rewrite L1. simpl.
  destruct th as [tk tl]. simpl in Kk, Tl. subst tk tl. exact Ew.
Qed.

End CopyFacts.

(** X13: [copy] of a readable file to a destination that is not a
    directory, with non-empty segments, access granted and no file on the
    way, succeeds: the missing directories of the destination are created,
    the destination then reads as the source did, every other file reads
    as before (the source too, unless it is the destination), and nothing
    off the way to the destination has changed. *)
Theorem copy_duplicates_the_file :
  forall (H : host) (s d : path) (st : store) (c : list byte),
    snd (bytes H s st) = Ok (Some c) ->
    d <> [] -> Forall (fun x => x <> "") d -> granted H [] d ->
    unblocked (removelast d) st ->
    snd (isDirectory H d st) = Ok false ->
    exists st',
      copy H s d st = (st', Ok tt)
      /\ snd (bytes H d st') = Ok (Some c)
      /\ (forall q x, q <> d -> snd (bytes H q st) = Ok (Some x) ->
                      snd (bytes H q st') = Ok (Some x))
      /\ (forall q, snd (isDirectory H q st) = Ok true ->
                    snd (isDirectory H q st') = Ok true)
      /\ (forall q, prefix q d = false ->
                    lookup (root st') q = lookup (root st) q).
Proof.
  intros H s d st c Bs Ned Fd Gd U Bd.
  apply bytes_inv in Bs. destruct Bs as (Ns & Nes & Fs & Gs & m & Ls).
  assert (Nd : d <> ["root"]).
  { intros ->. discriminate. }
  assert (Bd' : isDirectory H d st = (st, Ok false)).
  { destruct (queries_run H d st) as (_ & _ & _ & _ & b & Eb & _).
    rewrite Eb in Bd. simpl in Bd. congruence. }
  assert (NotDir : forall es, lookup (root st) d <> Some (Dir es)).
  { intros es Le.
    rewrite (isDirectory_dir H d st es Nd Ned Fd Gd Le) in Bd'.
    discriminate. }
  assert (R : exists es0, root st = Dir es0).
  { destruct s as [|a r]; [congruence|].
    destruct (root st) as [x y|es0]; [discriminate | eauto]. }
  destruct R as [es0 R].
  assert (Ed : exists st1 th,
             getDetails H d (mkOptions false true (Some FileK)) st
             = (st1, Ok (Some th))).
  { destruct (lookup (root st) d) as [[c' m'|es]|] eqn:Ld.
    - exists st. eexists.
      apply (getDetails_some H d _ st (File c' m')); auto.
      intros kk X. inversion X. reflexivity.
    - exfalso. exact (NotDir es eq_refl).
    - destruct (path_snoc_cases d) as [->|[pp [nm Ep]]]; [congruence|].
      rewrite Ep, removelast_snoc in U. rewrite Ep in Fd, Gd, Ld.
      destruct (walk_create_file H pp root_handle st es0 nm Fd Gd)
        as [st1 E1]; simpl.
      + rewrite R. reflexivity.
      + exact U.
      + rewrite Ld. discriminate.
      + exists st1. eexists. rewrite getDetails_walk by exact Nd.
        unfold target. simpl. rewrite Ep. exact E1. }
  destruct Ed as (st1 & th & Ed).
  destruct (copy_runs H s d st st1 c m th Ns Nes Fs Gs Ls Nd Bd' Ed)
    as [st' E].
  exists st'. split; [exact E|].
  destruct (copy_inv H s d st st' E)
    as (c0 & m0 & Ls0 & Ld' & Ch & _).
  rewrite Ls in Ls0. inversion Ls0; subst c0 m0.
  destruct Ch as (_ & Fr & Fk & Dk & _).
  split; [|split; [|split]].
  - rewrite (bytes_file H d st' c (clock st)); auto.
  - intros q x Nq B. apply bytes_inv in B.
    destruct B as (Nq1 & Neq & Fq & Gq & mq & Lq).
    rewrite (bytes_file H q st' x mq); auto.
  - intros q B. apply isDirectory_inv in B.
    destruct B as [->|(Nq & Neq & Fq & Gq & es1 & L)]; [reflexivity|].
    destruct (Dk q es1 L) as [es2 L2].
    rewrite (isDirectory_dir H q st' es2); auto.
  - exact Fr.
Qed.

Lemma copy_duplicates_the_file_witness :
  let st := st_of [("f", File (bs "x") 5)] in
  exists st',
    copy plain_host ["f"] ["a"; "b"; "g"] st = (st', Ok tt)
    /\ snd (bytes plain_host ["a"; "b"; "g"] st') = Ok (Some (bs "x"))
    /\ (forall q x, q <> ["a"; "b"; "g"] ->
                    snd (bytes plain_host q st) = Ok (Some x) ->
                    snd (bytes plain_host q st') = Ok (Some x))
    /\ (forall q, snd (isDirectory plain_host q st) = Ok true ->
                  snd (isDirectory plain_host q st') = Ok true)
    /\ (forall q, prefix q ["a"; "b"; "g"] = false ->
                  lookup (root st') q = lookup (root st) q).
Proof.
  cbv zeta.
  apply (copy_duplicates_the_file plain_host ["f"] ["a"; "b"; "g"]).
  - reflexivity.
  - discriminate.
  - repeat constructor; discriminate.
  - intros q _ _. reflexivity.
  - intros q c m P. apply prefix_spec in P. destruct P as [r Er].
    destruct q as [|a q]; [simpl; discriminate|].
    inversion Er; subst. simpl. discriminate.
  - reflexivity.
Defined.

(* ================================================================= *)
(** ** Refusals *)

(** X14: a directory where a file is needed is refused with
    [DirectoryError], and the store is left as it is: [append] to a
    directory, [copy] and [move] of a directory, and [copy] of a file onto
    an existing directory. *)
Theorem directories_are_refused_with_DirectoryError :
  forall (H : host) (s d : path) (b : list byte) (st : store),
    (snd (isDirectory H s st) = Ok true ->
     append H s b st = (st, Throw (DirectoryError "append" [s]))
     /\ copy H s d st = (st, Throw (DirectoryError "copy" [s; d]))
     /\ move H s d st = (st, Throw (DirectoryError "move" [s; d])))
    /\ (snd (isFile H s st) = Ok true ->
        snd (isDirectory H d st) = Ok true ->
        copy H s d st = (st, Throw (DirectoryError "copy" [s; d]))).
Proof.
  intros H s d b st. split.
  - intros B.
    destruct (getDetails_default_cases H s st)
      as [E|[[-> E]|(N & h & E & Rs & G)]];
      rewrite (isDirectory_run H _ st _ E) in B; simpl in B;
      try discriminate.
    + unfold append, copy, move, bind. rewrite E. simpl.
      repeat split; reflexivity.
    + destruct (h_kind h) eqn:K; [discriminate|].
      unfold append, copy, move, bind. rewrite E, K.
      repeat split; reflexivity.
  - intros Bs Bd.
    destruct (getDetails_default_cases H s st)
      as [E|[[-> E]|(N & h & E & Rs & G)]];
      rewrite (isFile_run H _ st _ E) in Bs; simpl in Bs;
      try discriminate.
    destruct (h_kind h) eqn:K; [|discriminate].
    destruct (queries_run H d st) as (_ & _ & _ & _ & x & Ex & _).
    rewrite Ex in Bd. simpl in Bd. inversion Bd; subst x.
    unfold copy. unfold bind at 1. rewrite E, K.
    unfold bind at 1. rewrite Ex. reflexivity.
Qed.

Lemma directories_are_refused_with_DirectoryError_witness :
  let st := st_of [("a", Dir []); ("f", File (bs "x") 5)] in
  (append plain_host ["a"] (bs "y") st
     = (st, Throw (DirectoryError "append" [["a"]]))
   /\ copy plain_host ["a"] ["g"] st
      = (st, Throw (DirectoryError "copy" [["a"]; ["g"]]))
   /\ move plain_host ["a"] ["g"] st
      = (st, Throw (DirectoryError "move" [["a"]; ["g"]])))
  /\ copy plain_host ["f"] ["a"] st
     = (st, Throw (DirectoryError "copy" [["f"]; ["a"]])).
Proof.
  cbv zeta. split.
  - apply (directories_are_refused_with_DirectoryError plain_host
             ["a"] ["g"] (bs "y")). reflexivity.
  - apply (directories_are_refused_with_DirectoryError plain_host
             ["f"] ["a"] (bs "y")); reflexivity.
Defined.

(** X15: an absent source is refused with [NotFoundError] naming the
    operation and both paths, and the store is left as it is, by [copy],
    [copyAll] and [move]; [size] and [lastModified] of an absent path
    answer [undefined] instead. *)
Theorem absent_sources_are_refused_with_NotFoundError :
  forall (H : host) (n : nat) (s d : path) (st : store),
    snd (isFile H s st) = Ok false ->
    snd (isDirectory H s st) = Ok false ->
    copy H s d st = (st, Throw (NotFoundError "copy" [s; d]))
    /\ copyAll H (S n) s d st = (st, Throw (NotFoundError "copyAll" [s; d]))
    /\ move H s d st = (st, Throw (NotFoundError "move" [s; d]))
    /\ size H s st = (st, Ok None)
    /\ lastModified H (S n) s st = (st, Ok None).
Proof.
  intros H n s d st Bf Bd.
  destruct (getDetails_default_cases H s st)
    as [E|[[-> E]|(N & h & E & Rs & G)]];
    rewrite (isFile_run H _ st _ E) in Bf;
    rewrite (isDirectory_run H _ st _ E) in Bd; simpl in Bf, Bd;
    try discriminate.
  - unfold copy, move, size. simpl copyAll. simpl lastModified.
    unfold bind.
    rewrite (isFile_run H _ st _ E), (isDirectory_run H _ st _ E), E.
    repeat split; reflexivity.
  - destruct (h_kind h); discriminate.
Qed.

Lemma absent_sources_are_refused_with_NotFoundError_witness :
  let st := st_of [("f", File (bs "x") 5)] in
  copy plain_host ["g"] ["h"] st
    = (st, Throw (NotFoundError "copy" [["g"]; ["h"]]))
  /\ copyAll plain_host 3 ["g"] ["h"] st
     = (st, Throw (NotFoundError "copyAll" [["g"]; ["h"]]))
  /\ move plain_host ["g"] ["h"] st
     = (st, Throw (NotFoundError "move" [["g"]; ["h"]]))
  /\ size plain_host ["g"] st = (st, Ok None)
  /\ lastModified plain_host 3 ["g"] st = (st, Ok None).
Proof.
  cbv zeta.
  apply (absent_sources_are_refused_with_NotFoundError plain_host 2
           ["g"] ["h"]); reflexivity.
Defined.

(* ================================================================= *)
(** ** [write] and [append] where nothing blocks the path *)

(** The ways to an existing entry are not blocked. *)
Lemma unblocked_above (p : path) (st : store) (v : node) :
  p <> [] -> lookup (root st) p = Some v ->
  unblocked (removelast p) st.
Proof.
  intros Ne L q c x Pq Lq.
  destruct (path_snoc_cases p) as [->|[pp [nm Ep]]]; [congruence|].
  rewrite Ep, removelast_snoc in Pq. apply prefix_spec in Pq.
  destruct Pq as [r ->]. rewrite Ep, <- app_assoc in L.
  destruct (lookup_prefix_dir _ _ _ _ L) as [es' L']; [|congruence].
  destruct r; discriminate.
Qed.



(** X17: [append] to an existing file succeeds and extends it: afterwards
    [bytes] returns the former content followed by the appended bytes,
    and every other file reads as before. *)
Theorem append_extends_the_file :
  forall (H : host) (p : path) (b c : list byte) (st : store),
    snd (bytes H p st) = Ok (Some c) ->
    exists st',
      append H p b st = (st', Ok tt)
      /\ snd (bytes H p st') = Ok (Some (c ++ b))
      /\ (forall q x, q <> p -> snd (bytes H q st) = Ok (Some x) ->
                      snd (bytes H q st') = Ok (Some x)).
Proof.
  intros H p b c st B. apply bytes_inv in B.
  destruct B as (Np & Ne & F & G & m & L).
  assert (R : exists es0, root st = Dir es0).
  { destruct p as [|a r]; [congruence|].
    destruct (root st) as [x y|es0]; [discriminate | eauto]. }
  destruct R as [es0 R].
  pose proof (unblocked_above p st _ Ne L) as U.
  destruct (write_then_bytes H p (c ++ b) st es0 Np Ne F G R U)
    as (st' & E & Bp & Fr).
  { rewrite L. discriminate. }
  exists st'. split; [|split].
  - unfold append. unfold bind at 1.
    rewrite (getDetails_some H p default_options st (File c m)
               Np eq_refl Ne F G L) by discriminate.
    simpl. unfold bind at 1. unfold getFile. simpl. rewrite L.
    exact E.
  - rewrite Bp. reflexivity.
  - intros q x Nq Bq. apply bytes_inv in Bq.
    destruct Bq as (Nq1 & Neq & Fq & Gq & mq & Lq).
    rewrite (bytes_file H q st' x mq); auto.
    rewrite Fr; [exact Lq|].
    destruct (prefix q p) eqn:P; [|reflexivity].
    exfalso. exact (U q x mq (prefix_removelast q p P Nq) Lq).
Qed.

Lemma append_extends_the_file_witness :
  let st := st_of [("a", Dir [("f", File (bs "ab") 5)])] in
  exists st',
    append plain_host ["a"; "f"] (bs "cd") st = (st', Ok tt)
    /\ snd (bytes plain_host ["a"; "f"] st') = Ok (Some (bs "ab" ++ bs "cd"))
    /\ (forall q x, q <> ["a"; "f"] ->
                    snd (bytes plain_host q st) = Ok (Some x) ->
                    snd (bytes plain_host q st') = Ok (Some x)).
Proof.
  cbv zeta.
  apply (append_extends_the_file plain_host ["a"; "f"] (bs "cd") (bs "ab")).
  reflexivity.
Defined.



(* ================================================================= *)
(** ** [moveAll] terminates *)

Section MoveAllTermination.

Variable H : host.

Lemma moveAll_step (n : nat) (s d : path) :
  moveAll H (S n) s d =
  (h <- getDetails H s default_options ;;
   match h with
   | None => throw (NotFoundError "moveAll" [s; d])
   | Some handle =>
       match h_kind handle with
       | FileK => move H s d
       | DirectoryK =>
           match dir_move H with
           | Some flt =>
               let (destinationName, destinationPath) := Path_pop d in
               destinationParent <-
                 getDetails H destinationPath
                   (mkOptions false true (Some DirectoryK)) ;;
               native_move H flt handle destinationParent destinationName
           | None =>
               createDirectory H d ;;;
               es <- list_ H s ;;
               for_each es (fun entry =>
                 if isDirectory_ entry
                 then moveAll H n (Path_push s (name entry))
                        (Path_push d (name entry))
                 else move H (Path_push s (name entry))
                        (Path_push d (name entry))) ;;;
               delete H s
           end
       end
   end).
Proof. reflexivity. Qed.

(** When neither path lies on the other's branch, moving an entry leaves
    its siblings below the source as they are, and fuel above the height
    of the source is enough. *)
Lemma moveAll_fuel_disjoint (k : nat) :
  forall s d st,
    disjoint s d = true -> s <> ["root"] -> d <> ["root"] ->
    (forall v, lookup (root st) s = Some v -> (height v <= k)%nat) ->
    snd (moveAll H (S k) s d st) <> OutOfFuel.
Proof.
  induction k as [|k IH]; intros s d st Dsd Ns Nd B;
    rewrite moveAll_step; unfold bind at 1;
    (destruct (getDetails_default_cases H s st)
       as [E0|[[-> E0]|(_ & h & E0 & R & G)]];
     [ rewrite E0; discriminate | congruence |]);
    destruct R as (Hl & Ne & F & A & (v & L & K) & _); rewrite E0.
  { specialize (B v L). pose proof (height_pos v). lia. }
  destruct v as [c m|es]; simpl in K; rewrite <- K.
  { apply fuelfree_move. }
  destruct (dir_move H) as [flt|].
  { unfold Path_pop.
    apply (fuelfree_bind _ _ (fuelfree_getDetails H _ _)).
    intros ph. apply fuelfree_native_move. }
  unfold bind at 1.
  pose proof (fuelfree_createDirectory H d st) as Fc.
  destruct (createDirectory H d st) as [st1 [[]|e|]] eqn:Ec;
    simpl in Fc; [| discriminate | congruence].
  destruct (createDirectory_inv H d st st1 Ec) as (Gr & _ & _ & _).
  destruct Gr as (_ & Fr & _ & _ & _).
  pose proof Dsd as Dsd'. apply disjoint_spec in Dsd'.
  destruct Dsd' as [Psd Pds].
  assert (L1 : lookup (root st1) s = Some (Dir es)) by (rewrite Fr; auto).
  pose proof (getDetails_some H s default_options st1 (Dir es)
                Ns eq_refl Ne F G L1 ltac:(discriminate)) as E1.
  unfold bind at 1.
  rewrite (list_dir H s st1 _ es E1 eq_refl L1).
  unfold bind at 1.
  match goal with
  | |- snd (match for_each ?xs ?body ?st0 with _ => _ end) <> _ =>
      destruct (for_each_fuel
                  (fun sti => forall y r w,
                       lookup (root sti) (s ++ y :: r) = Some w ->
                       lookup (root st1) (s ++ y :: r) = Some w)
                  body xs st0) as [T1 _];
        [ auto | |
          destruct (for_each xs body st0) as [st2 [[]|e|]];
            [ apply fuelfree_delete | discriminate
            | simpl in T1; congruence ] ]
  end.
  intros x sti _ Inv. unfold Path_push.
  assert (Dx : disjoint (s ++ [name x]) (d ++ [name x]) = true)
    by (apply disjoint_app; exact Dsd).
  assert (Nx : s ++ [name x] <> ["root"])
    by (apply snoc_not_root; exact Ne).
  assert (Ndx : d ++ [name x] <> ["root"]).
  { apply snoc_not_root. intros ->. simpl in Pds. discriminate. }
  assert (Nrx : removelast (d ++ [name x]) <> ["root"])
    by (rewrite removelast_snoc; exact Nd).
  assert (Keep : forall st2,
            lookup (root st2) (s ++ [name x]) = None ->
            off_limits2 (s ++ [name x]) (d ++ [name x]) sti st2 ->
            forall y r w,
              lookup (root st2) (s ++ y :: r) = Some w ->
              lookup (root st1) (s ++ y :: r) = Some w).
  { intros st2 Gone Off y r w Lw.
    destruct (String.eqb_spec y (name x)) as [->|Ny].
    - change (name x :: r) with ([name x] ++ r) in Lw.
      rewrite app_assoc, (lookup_none_below _ _ r Gone) in Lw.
      discriminate.
    - apply Inv. rewrite <- Off; [exact Lw | |].
      + apply (disjoint_siblings s y (name x) r []). exact Ny.
      + apply disjoint_app. exact Dsd. }
  destruct (isDirectory_ x).
  - split.
    + apply IH; [exact Dx | exact Nx | exact Ndx |].
      intros w Lw.
      change [name x] with (name x :: []) in Lw.
      apply Inv in Lw. rewrite lookup_app, L1 in Lw.
      apply height_lookup in Lw.
      change (List.length [name x]) with 1%nat in Lw.
      specialize (B _ L). lia.
    + intros st2 E2.
      destruct (moveAll_spec H (S k) _ _ sti st2 Dx Nx Ndx Nrx E2)
        as ((_ & _ & Gone) & Off & _).
      exact (Keep st2 Gone Off).
  - split; [apply fuelfree_move|].
    intros st2 E2.
    destruct (move_spec H _ _ sti st2 Dx Nrx E2)
      as ((_ & _ & Gone) & Off & _).
    exact (Keep st2 Gone Off).
Qed.

End MoveAllTermination.

(** X19: [moveAll] terminates when neither path lies on the other's
    branch and neither is ["root"]: on every host and store, fuel above
    the height of the hierarchy is never used up, whether the move
    succeeds or throws. *)
Theorem moveAll_terminates_on_disjoint_paths :
  forall (H : host) (n : nat) (s d : path) (st : store),
    disjoint s d = true -> s <> ["root"] -> d <> ["root"] ->
    (height (root st) <= n)%nat ->
    snd (moveAll H (S n) s d st) <> OutOfFuel.
Proof.
  intros H n s d st Dsd Ns Nd Hn.
  apply moveAll_fuel_disjoint; try assumption.
  intros v L. apply height_lookup in L. lia.
Qed.

Lemma moveAll_terminates_on_disjoint_paths_witness :
  let st := st_of [("a", Dir [("b", Dir [("f", File (bs "x") 5)])])] in
  snd (moveAll plain_host 5 ["a"] ["c"; "d"] st) <> OutOfFuel.
Proof.
  cbv zeta.
  apply (moveAll_terminates_on_disjoint_paths plain_host 4 ["a"] ["c"; "d"]).
  - reflexivity.
  - discriminate.
  - discriminate.
  - simpl. lia.
Defined.

(* ================================================================= *)
(** ** The variant over the remote API *)

(** The second [FastHfsImpl], the one constructed from an API key: its
    methods are those of the handle-based adapter, but [getDetails] and
    [createDirectory] are still to be written, and nothing falls back to
    the root. *)
Module Api.

Section Variant.

Variable H : host.

(** [getDetails(api, opaqueId)]: the body is a [TODO]; every call answers
    [undefined]. *)
Definition getDetails (opaqueId : path) : M (option handle) := ret None.

Definition readFile (opaqueId : path) : M (option (list byte)) :=
  h <- getDetails opaqueId ;;
  match h with
  | None => ret None
  | Some handle =>
      match h_kind handle with
      | DirectoryK => ret None
      | FileK =>
          file <- getFile handle ;;
          ret (Some (f_bytes file))
      end
  end.

Definition bytes (opaqueId : path) : M (option (list byte)) :=
  readFile opaqueId.

(** [parentHandle.getFileHandle] on [undefined] is a [TypeError]. *)
Definition write (opaqueId : path) (contents : list byte) : M unit :=
  h <- getDetails opaqueId ;;
  handle <-
    match h with
    | Some handle => ret handle
    | None =>
        let nm := Path_name opaqueId in
        parentHandle <- getDetails opaqueId ;;
        match parentHandle with
        | None => throw TypeError
        | Some ph => getFileHandle H ph (js_string nm) true
        end
    end ;;
  w <- createWritable handle ;;
  w' <- writable_write w contents ;;
  writable_close w'.

Definition append (opaqueId : path) (contents : list byte) : M unit :=
  h <- getDetails opaqueId ;;
  match h with
  | None => write opaqueId contents
  | Some handle =>
      match h_kind handle with
      | DirectoryK => throw (DirectoryError "append" [opaqueId])
      | FileK =>
          file <- getFile handle ;;
          let newValue := f_bytes file ++ contents in
          write opaqueId newValue
      end
  end.

Definition isFile (opaqueId : path) : M bool :=
  h <- getDetails opaqueId ;;
  ret (match h with
       | Some handle => kind_eqb (h_kind handle) FileK
       | None => false
       end).

Definition isDirectory (opaqueId : path) : M bool :=
  h <- getDetails opaqueId ;;
  ret (match h with
       | Some handle => kind_eqb (h_kind handle) DirectoryK
       | None => false
       end).

(** The body is a [TODO]. *)
Definition createDirectory (opaqueId : path) : M unit := ret tt.

Definition delete (opaqueId : path) : M unit :=
  h <- getDetails opaqueId ;;
  parentHandle <- getDetails opaqueId ;;
  match h with
  | None => throw (NotFoundError "delete" [opaqueId])
  | Some handle =>
      match h_kind handle with
      | DirectoryK =>
          es <- values handle ;;
          match es with
          | _ :: _ => throw (NotEmptyError "delete" [opaqueId])
          | [] => ret tt
          end
      | FileK => ret tt
      end ;;;
      match parentHandle with
      | None => throw TypeError
      | Some ph => attempt (removeEntry H ph (h_name handle)) ;;; ret tt
      end
  end.

Definition deleteAll (opaqueId : path) : M unit :=
  h <- getDetails opaqueId ;;
  match h with
  | None => throw (NotFoundError "deleteAll" [opaqueId])
  | Some handle => handle_remove handle
  end.

Definition list_ (opaqueId : path) : M (list list_entry) :=
  h <- getDetails opaqueId ;;
  match h with
  | None => ret []
  | Some handle =>
      es <- values handle ;;
      ret (map (fun e =>
                  mkListEntry (e_name e)
                    (kind_eqb (e_kind e) DirectoryK)
                    (kind_eqb (e_kind e) FileK)
                    false) es)
  end.

Definition size (opaqueId : path) : M (option nat) :=
  h <- getDetails opaqueId ;;
  match h with
  | None => ret None
  | Some handle =>
      match h_kind handle with
      | DirectoryK => ret None
      | FileK =>
          file <- getFile handle ;;
          ret (Some (List.length (f_bytes file)))
      end
  end.

Fixpoint lastModified (fuel : nat) (opaqueId : path) : M (option Z) :=
  match fuel with
  | O => out_of_fuel
  | S n =>
      h <- getDetails opaqueId ;;
      match h with
      | None => ret None
      | Some handle =>
          match h_kind handle with
          | FileK =>
              file <- getFile handle ;;
              ret (Some (f_lastModified file))
          | DirectoryK =>
              es <- list_ opaqueId ;;
              lm <- newest (lastModified n) opaqueId es 0%Z ;;
              if Z.eqb lm 0 then (t <- now ;; ret (Some t))
              else ret (Some lm)
          end
      end
  end.

Definition copy (source destination : path) : M unit :=
  h <- getDetails source ;;
  match h with
  | None => throw (NotFoundError "copy" [source; destination])
  | Some fromHandle =>
      match h_kind fromHandle with
      | DirectoryK => throw (DirectoryError "copy" [source; destination])
      | FileK =>
          d <- isDirectory destination ;;
          if d then throw (DirectoryError "copy" [source; destination])
          else
            toHandle <- getDetails destination ;;
            file <- getFile fromHandle ;;
            match toHandle with
            | None => throw TypeError
            | Some th =>
                w <- createWritable th ;;
                w' <- writable_write w (f_bytes file) ;;
                writable_close w'
            end
      end
  end.

Fixpoint copyAll (fuel : nat) (source destination : path) : M unit :=
  match fuel with
  | O => out_of_fuel
  | S n =>
      f <- isFile source ;;
      if f then copy source destination
      else
        d <- isDirectory source ;;
        if negb d then throw (NotFoundError "copyAll" [source; destination])
        else
          createDirectory destination ;;;
          es <- list_ source ;;
          for_each es (fun entry =>
            let destinationPath := Path_push destination (name entry) in
            let sourcePath := Path_push source (name entry) in
            if isDirectory_ entry then copyAll n sourcePath destinationPath
            else copy sourcePath destinationPath)
  end.

Definition move (source destination : path) : M unit :=
  h <- getDetails source ;;
  match h with
  | None => throw (NotFoundError "move" [source; destination])
  | Some handle =>
      match h_kind handle with
      | DirectoryK => throw (DirectoryError "move" [source; destination])
      | FileK =>
          let (destinationName, destinationPath) := Path_pop destination in
          destinationParent <- getDetails destinationPath ;;
          r <- attempt (native_move H (file_move_fault H) handle
                          destinationParent destinationName) ;;
          match r with
          | inr _ => ret tt
          | inl ex =>
              if String.eqb (error_name ex) "NotAllowedError" then
                copy source destination ;;;
                delete source
              else throw ex
          end
      end
  end.

Fixpoint moveAll (fuel : nat) (source destination : path) : M unit :=
  match fuel with
  | O => out_of_fuel
  | S n =>
      h <- getDetails source ;;
      match h with
      | None => throw (NotFoundError "moveAll" [source; destination])
      | Some handle =>
          match h_kind handle with
          | FileK => move source destination
          | DirectoryK =>
              match dir_move H with
              | Some flt =>
                  let (destinationName, destinationPath) := Path_pop destination in
                  destinationParent <- getDetails destinationPath ;;
                  native_move H flt handle destinationParent destinationName
              | None =>
                  createDirectory destination ;;;
                  es <- list_ source ;;
                  for_each es (fun entry =>
                    let destinationPath := Path_push destination (name entry) in
                    let sourcePath := Path_push source (name entry) in
                    if isDirectory_ entry then moveAll n sourcePath destinationPath
                    else move sourcePath destinationPath) ;;;
                  delete source
              end
          end
      end
  end.

End Variant.

End Api.

(** X20: the variant over the remote API resolves nothing and writes
    nothing: on every host and store and for every path, its queries
    answer as for an absent entry, [createDirectory] returns without
    creating anything, [write] and [append] always fail with a
    [TypeError], every other operation fails with [NotFoundError], and the
    store is never changed. *)
Theorem api_variant_resolves_nothing :
  forall (H : host) (n : nat) (p d : path) (b : list byte) (st : store),
    Api.bytes p st = (st, Ok None)
    /\ Api.size p st = (st, Ok None)
    /\ Api.isFile p st = (st, Ok false)
    /\ Api.isDirectory p st = (st, Ok false)
    /\ Api.list_ p st = (st, Ok [])
    /\ Api.lastModified (S n) p st = (st, Ok None)
    /\ Api.createDirectory p st = (st, Ok tt)
    /\ Api.write H p b st = (st, Throw TypeError)
    /\ Api.append H p b st = (st, Throw TypeError)
    /\ Api.delete H p st = (st, Throw (NotFoundError "delete" [p]))
    /\ Api.deleteAll p st = (st, Throw (NotFoundError "deleteAll" [p]))
    /\ Api.copy p d st = (st, Throw (NotFoundError "copy" [p; d]))
    /\ Api.copyAll (S n) p d st
       = (st, Throw (NotFoundError "copyAll" [p; d]))
    /\ Api.move H p d st = (st, Throw (NotFoundError "move" [p; d]))
    /\ Api.moveAll H (S n) p d st
       = (st, Throw (NotFoundError "moveAll" [p; d])).
Proof.
  intros H n p d b st. repeat split.
Qed.

(* ================================================================= *)
(** ** What exists is listed *)

Lemma granted_prefix (H : host) (p r : path) :
  granted H [] (p ++ r) -> granted H [] p.
Proof.
  intros G q Pq Lq. apply G; [|exact Lq].
  exact (prefix_trans _ _ _ Pq (prefix_app p r)).
Qed.

(** [list] of the directory above an entry the store holds. *)
Lemma list_above (H : host) (p : path) (nm : string) (st : store) (v : node) :
  p <> [] -> p <> ["root"] ->
  Forall (fun x => x <> "") (p ++ [nm]) ->
  granted H [] (p ++ [nm]) ->
  lookup (root st) (p ++ [nm]) = Some v ->
  exists es,
    list_ H p st = (st, Ok es)
    /\ In (mkListEntry nm (kind_eqb (node_kind v) DirectoryK)
             (kind_eqb (node_kind v) FileK) false) es.
Proof.
  intros Ne Np F G L.
  destruct (lookup_snoc_dir _ _ _ _ L) as (ents & Lp & Fe).
  apply Forall_app in F. destruct F as [Fp _].
  pose proof (getDetails_some H p default_options st (Dir ents)
                Np eq_refl Ne Fp (granted_prefix H p [nm] G) Lp
                ltac:(discriminate)) as E.
  exists (map to_list_entry (map entry_of ents)). split.
  - exact (list_dir H p st _ ents E eq_refl Lp).
  - apply find_entry_In in Fe.
    change (mkListEntry nm (kind_eqb (node_kind v) DirectoryK)
              (kind_eqb (node_kind v) FileK) false)
      with (to_list_entry (entry_of (nm, v))).
    apply in_map, in_map. exact Fe.
Qed.

(** X21: what the queries find, [list] yields: if [isFile] (or
    [isDirectory]) is true for the path of an entry [nm] below a path [p]
    other than ["root"], then [list(p)] succeeds and yields an entry named
    [nm] that is flagged a file (a directory). *)
Theorem existing_entries_are_listed :
  forall (H : host) (p : path) (nm : string) (st : store),
    p <> [] -> p <> ["root"] ->
    (snd (isFile H (p ++ [nm]) st) = Ok true ->
     exists es, list_ H p st = (st, Ok es)
                /\ In (mkListEntry nm false true false) es)
    /\ (snd (isDirectory H (p ++ [nm]) st) = Ok true ->
        exists es, list_ H p st = (st, Ok es)
                   /\ In (mkListEntry nm true false false) es).
Proof.
  intros H p nm st Ne Np. split; intros B.
  - apply isFile_inv in B. destruct B as (_ & _ & F & G & c & m & L).
    exact (list_above H p nm st (File c m) Ne Np F G L).
  - apply isDirectory_inv in B.
    destruct B as [X|(_ & _ & F & G & es & L)].
    + destruct p; [congruence|]. destruct p; discriminate.
    + exact (list_above H p nm st (Dir es) Ne Np F G L).
Qed.

Lemma existing_entries_are_listed_witness :
  let st := st_of [("a", Dir [("f", File (bs "x") 5); ("d", Dir [])])] in
  (exists es, list_ plain_host ["a"] st = (st, Ok es)
              /\ In (mkListEntry "f" false true false) es)
  /\ (exists es, list_ plain_host ["a"] st = (st, Ok es)
                 /\ In (mkListEntry "d" true false false) es).
Proof.
  cbv zeta. split.
  - apply (existing_entries_are_listed plain_host ["a"] "f");
      [discriminate | discriminate | reflexivity].
  - apply (existing_entries_are_listed plain_host ["a"] "d");
      [discriminate | discriminate | reflexivity].
Defined.

(* ================================================================= *)
(** ** Modification times under [copy] *)

(** X22: [copy] does not carry the modification time over: after a
    successful [copy] the destination's [lastModified] is the host's
    clock at the time of the copy, and the source, unless it is the
    destination, keeps the [lastModified] it had. *)
Theorem copy_stamps_the_destination :
  forall (H : host) (n : nat) (s d : path) (st st' : store),
    copy H s d st = (st', Ok tt) ->
    snd (lastModified H (S n) d st') = Ok (Some (clock st))
    /\ (s <> d ->
        snd (lastModified H (S n) s st')
        = snd (lastModified H (S n) s st)).
Proof.
  intros H n s d st st' E.
  destruct (copy_inv H s d st st' E)
    as (c & m & Ls & Ld & Ch & Ns & Nd & Nes & Ned & Fs & Fd & Gs & Gd).
  destruct Ch as (_ & _ & Fk & _).
  assert (Stamp : forall p st0 c0 m0,
             p <> ["root"] -> p <> [] -> Forall (fun x => x <> "") p ->
             granted H [] p ->
             lookup (root st0) p = Some (File c0 m0) ->
             lastModified H (S n) p st0 = (st0, Ok (Some m0))).
  { intros p st0 c0 m0 Np Nep Fp Gp Lp.
    apply (lastModified_file_step H n p st0 (mkHandle FileK p) c0 m0).
    - apply (getDetails_some H p default_options st0 (File c0 m0));
        auto; discriminate.
    - reflexivity.
    - exact Lp. }
  split.
  - rewrite (Stamp d st' c (clock st)); auto.
  - intros Nsd.
    rewrite (Stamp s st' c m), (Stamp s st c m); auto.
Qed.

Lemma copy_stamps_the_destination_witness :
  let st := st_of [("f", File (bs "x") 5)] in
  let st' := fst (copy plain_host ["f"] ["g"] st) in
  snd (lastModified plain_host 1 ["g"] st') = Ok (Some (clock st))
  /\ (["f"] <> ["g"] ->
      snd (lastModified plain_host 1 ["f"] st')
      = snd (lastModified plain_host 1 ["f"] st)).
Proof.
  cbv zeta.
  apply (copy_stamps_the_destination plain_host 0 ["f"] ["g"]).
  reflexivity.
Defined.

(* ================================================================= *)
(** ** The resolver finds what the store holds *)


